(** * Distributed checkpoint save: a model of [state_dict_saver.py]

    The module [torch/distributed/checkpoint/state_dict_saver.py] is embedded
    as state-passing code.  Every process (rank) owns a store of dictionaries,
    the state of the external objects it talks to (planner, storage writer,
    stateful objects), the closed-over variable [global_metatadata] of
    [_save_state_dict], and a log of the calls it made.  A group of processes
    is a list indexed by rank. *)

From stdpp Require Import base option list gmap strings.

Local Open Scope list_scope.

(** ** Exceptions *)

Inductive Exn (E : Type) : Type :=
| AssertionError (msg : string)   (* a failed [assert] of the module *)
| RuntimeError (msg : string)     (* raised by the helpers of the package *)
| IndexError                      (* list index out of range *)
| InvalidReference                (* a dictionary reference that is not in the store *)
| Raised (e : E).                 (* raised by a planner, writer or stateful object *)
Arguments AssertionError {E} msg.
Arguments RuntimeError {E} msg.
Arguments IndexError {E}.
Arguments InvalidReference {E}.
Arguments Raised {E} e.

(** Dictionaries live in a store and are passed by reference. *)
Abbreviation loc := positive.

(** The types the module treats as opaque. *)
Class Types : Type := {
  Value : Type;          (* any Python value that is not a [Stateful] *)
  SavePlan : Type;       (* a local plan *)
  Metadata : Type;       (* the global metadata *)
  WriteResult : Type;
  ProcessGroup : Type;
  CheckpointId : Type;
  Ext : Type;            (* state of the external objects of one process *)
  UserExn : Type;        (* exceptions raised by external code *)
}.

Section Interfaces.
Context `{TY : Types}.

(** A method of an external object: it may change the external state and
    either returns or raises; a change made before raising persists. *)
Definition Method (A : Type) : Type := Ext → (UserExn + A) * Ext.

(** [Stateful] protocol (stateful.py): only [state_dict] is used on save.
    An element of a state dict is a [Stateful] object
    ([isinstance(elem, Stateful)]) or any other value; what [state_dict()]
    returns is again any Python object, a [Stateful] one included. *)
#[warnings="-register-all"] Inductive Stateful : Type :=
| Build_Stateful (state_dict : Method Elem)
with Elem : Type :=
| Plain (v : Value)
| Obj (o : Stateful).

Definition state_dict_of (o : Stateful) : Method Elem :=
  match o with Build_Stateful state_dict => state_dict end.

Definition isinstance_Stateful (elem : Elem) : bool :=
  match elem with Obj _ => true | Plain _ => false end.

(** A Python dict keeps insertion order and has unique keys. *)
Definition Dict : Type := list (string * Elem).

Fixpoint dict_setitem (d : Dict) (key : string) (v : Elem) : Dict :=
  match d with
  | [] => [(key, v)]
  | (k, x) :: d' =>
      if decide (k = key) then (k, v) :: d' else (k, x) :: dict_setitem d' key v
  end.

(** [Future[List[WriteResult]]] returned by [StorageWriter.write_data]. *)
Record WFuture : Type := {
  wait : Method unit;
  value : Method (list WriteResult);
}.

(** [SavePlanner] interface (planner.py).  [create_global_plan] returns a
    pair whose second component is the metadata; Python does not enforce
    that it is not [None]. *)
Record SavePlanner : Type := {
  set_up_planner : Dict → bool → Method unit;
  create_local_plan : Method SavePlan;
  create_global_plan : list SavePlan → Method (list SavePlan * option Metadata);
  finish_plan : SavePlan → Method SavePlan;
}.

(** [AsyncStager] protocol (storage.py). *)
Record AsyncStager : Type := {
  stage : Dict → Method Dict;
  synchronize_after_execute : Ext → bool;
  synchronize : Method unit;
}.

(** [StorageWriter] interface (storage.py).  [finish] receives the metadata
    object by reference and may update it in place, so its model returns the
    content of the object after the call.  [stager] is [Some] exactly when
    [isinstance(storage_writer, AsyncStager)]. *)
Record StorageWriter : Type := {
  reset : Method unit;
  set_up_storage_writer : bool → Method unit;
  prepare_local_plan : SavePlan → Method SavePlan;
  prepare_global_plan : list SavePlan → Method (list SavePlan);
  write_data : SavePlan → SavePlanner → Method WFuture;
  finish : Metadata → list (list WriteResult) → Method Metadata;
  stager : option AsyncStager;
}.

(** What the module imports from the rest of the package and from
    [torch.distributed]; none of it is among the sources. *)
Class Package : Type := {
  (* [DefaultSavePlanner()] of default_planner.py builds a new planner *)
  DefaultSavePlanner : Method SavePlanner;
  (* [_offload_state_dict_to_cpu] of _state_dict_utils.py *)
  _offload_state_dict_to_cpu : Dict → Method Dict;
  (* the writer that [_storage_setup] detects for a checkpoint id, if any *)
  writer_for : CheckpointId → option StorageWriter;
  (* [_get_default_group()] of distributed_c10d.py *)
  _get_default_group : ProcessGroup;
  (* [torch.device("cpu") in pg._device_types] *)
  has_cpu_device : ProcessGroup → bool;
}.

End Interfaces.

Section Process.
Context `{TY : Types}.

(** ** The log of one process *)

Inductive Comm : Type := Gather | Scatter | Broadcast.

Inductive Event : Type :=
| Warn (msg : string)
| Call_state_dict
| Call_reset
| Call_set_up_planner (state_dict : Dict) (is_coordinator : bool)
| Call_set_up_storage_writer (is_coordinator : bool)
| Call_create_local_plan
| Call_prepare_local_plan (local_plan : SavePlan)
| Call_create_global_plan (all_local_plans : list SavePlan)
| Call_prepare_global_plan (all_local_plans : list SavePlan)
| Call_finish_plan (central_plan : SavePlan)
| Call_write_data (final_local_plan : SavePlan)
| Call_wait
| Call_value
| Call_finish (metadata : Metadata) (results : list (list WriteResult))
| Call_stage (state_dict : Dict)
| Call_offload (state_dict : Dict)
| Call_synchronize
| Call_DefaultSavePlanner
| Shutdown
| Collective (tag : string) (c : Comm).

(** ** One process *)

Record Proc : Type := {
  dicts : gmap loc Dict;
  ext : Ext;
  global_metatadata : option Metadata;
  trace : list Event;
}.

Definition M (A : Type) : Type := Proc → (Exn UserExn + A) * Proc.

Definition ret {A} (a : A) : M A := fun p => (inr a, p).
Definition bind {A B} (m : M A) (k : A → M B) : M B :=
  fun p => match m p with
           | (inr a, p') => k a p'
           | (inl e, p') => (inl e, p')
           end.
Definition raise {A} (e : Exn UserExn) : M A := fun p => (inl e, p).

End Process.

Notation "x <- m ;; k" := (bind m (fun x => k))
  (at level 100, m at next level, right associativity, only parsing).
Notation "m ;;; k" := (bind m (fun _ => k))
  (at level 100, right associativity, only parsing).

(** A group of processes: the list of its processes in rank order, each
    with the value it currently holds. *)
Abbreviation World A := (list (A * Proc)).

(** Sequencing of group operations: the first failure ends the run. *)
Notation "x <-- m ;; k" := (match m with inl f => inl f | inr x => k end)
  (at level 100, m at next level, right associativity, only parsing).

Section Saver.
Context `{TY : Types} {PK : Package}.

Definition log (ev : Event) (p : Proc) : Proc :=
  {| dicts := dicts p; ext := ext p;
     global_metatadata := global_metatadata p;
     trace := trace p ++ [ev] |}.

Definition emit (ev : Event) : M unit := fun p => (inr tt, log ev p).

(** Calling a method of an external object: the call is logged, then the
    method runs on the external state. *)
Definition call {A} (ev : Event) (m : Method A) : M A :=
  fun p =>
    let (r, x) := m (ext p) in
    (match r with inl e => inl (Raised e) | inr a => inr a end,
     {| dicts := dicts p; ext := x;
        global_metatadata := global_metatadata p;
        trace := trace p ++ [ev] |}).

Definition py_assert (b : bool) (msg : string) : M unit :=
  if b then ret tt else raise (AssertionError msg).

(** The dictionary store. *)
Definition new_dict (d : Dict) : M loc :=
  fun p =>
    let l := fresh (dom (dicts p)) in
    (inr l, {| dicts := <[l := d]> (dicts p); ext := ext p;
               global_metatadata := global_metatadata p; trace := trace p |}).

Definition deref (l : loc) : M Dict :=
  fun p => match dicts p !! l with
           | Some d => (inr d, p)
           | None => (inl InvalidReference, p)
           end.

Definition setitem (l : loc) (key : string) (v : Elem) : M unit :=
  fun p => match dicts p !! l with
           | Some d =>
               (inr tt, {| dicts := <[l := dict_setitem d key v]> (dicts p);
                           ext := ext p;
                           global_metatadata := global_metatadata p;
                           trace := trace p |})
           | None => (inl InvalidReference, p)
           end.

Fixpoint for_each {A} (xs : list A) (body : A → M unit) : M unit :=
  match xs with
  | [] => ret tt
  | x :: xs' => body x ;;; for_each xs' body
  end.

(** ** [_stateful_to_state_dict] *)

Definition _stateful_to_state_dict (state_dict : loc) : M loc :=
  stateful_state_dict <- new_dict [] ;;
  items <- deref state_dict ;;
  for_each items (fun '(key, elem) =>
    v <- match elem with
         | Obj o => call Call_state_dict (state_dict_of o)
         | Plain _ => ret elem
         end ;;
    setitem stateful_state_dict key v) ;;;
  ret stateful_state_dict.

(** Reference rendering of the resolution, following the description "same
    keys, each Stateful value replaced by its snapshot, every other value
    kept": a map over the items, in iteration order. *)
Fixpoint snapshot_items (items : Dict) : Method Dict :=
  fun x =>
    match items with
    | [] => (inr [], x)
    | (key, Plain v) :: rest =>
        match snapshot_items rest x with
        | (inr r, x') => (inr ((key, Plain v) :: r), x')
        | (inl e, x') => (inl e, x')
        end
    | (key, Obj o) :: rest =>
        match state_dict_of o x with
        | (inr s, x') =>
            match snapshot_items rest x' with
            | (inr r, x'') => (inr ((key, s) :: r), x'')
            | (inl e, x'') => (inl e, x'')
            end
        | (inl e, x') => (inl e, x')
        end
    end.

Definition stateful_calls (items : Dict) : list Event :=
  omap (fun '(_, elem) => if isinstance_Stateful elem then Some Call_state_dict else None) items.

(** What one element of the result looks like, relative to the input. *)
Definition resolved_elem (input output : string * Elem) : Prop :=
  input.1 = output.1 ∧
  match input.2 with
  | Plain v => output.2 = Plain v
  | Obj o => ∃ x s x', state_dict_of o x = (inr s, x') ∧ output.2 = s
  end.

(** ** Operations of a group

    An operation of the group either fails as a whole (the spec: "a failure
    on any rank is expected to fail the whole operation"), leaving the
    processes as they are at that point, or leaves every process with a
    value. *)
Definition Outcome (X : Type) : Type := (Exn UserExn * list Proc) + X.


(** Every process runs [f] on the value it holds.  When several processes
    raise, the error of the lowest rank is reported. *)
Fixpoint each {A B} (f : A → M B) (w : World A) : Outcome (World B) :=
  match w with
  | [] => inr []
  | (a, p) :: w' =>
      match f a p, each f w' with
      | (inr b, p'), inr r => inr ((b, p') :: r)
      | (inr b, p'), inl (e, ps) => inl (e, p' :: ps)
      | (inl e, p'), inr r => inl (e, p' :: r.*2)
      | (inl e, p'), inl (_, ps) => inl (e, p' :: ps)
      end
  end.

(** Only the process of rank [c] runs [f]. *)
Definition at_rank {A B} (c : nat) (f : A → M B) (w : World A) : Outcome (B * World A) :=
  match w !! c with
  | Some (a, p) =>
      match f a p with
      | (inr b, p') => inr (b, <[c := (a, p')]> w)
      | (inl e, p') => inl (e, (<[c := (a, p')]> w).*2)
      end
  | None => inl (RuntimeError "coordinator rank is not in the group", w.*2)
  end.

(** Modelled from the spec: the Collective Coordinator ([_DistWrapper] of
    utils.py, which is not among the sources).  Spec 4.1: every participant
    executes [local]; with communication the coordinator gathers the values
    in rank order, executes [global] on the sequence and either distributes
    element [i] to participant [i] ([reduce_scatter]) or gives the one
    aggregate to every participant ([all_reduce]); a single participant
    without a communication backend invokes [global] directly on the
    one-element sequence.  An exception in a local or global step is fatal
    for the whole operation.  The members of the process group are the
    processes of the list; [rank] is the position in it. *)
Record _DistWrapper : Type := {
  use_dist : bool;
  coordinator_rank : nat;
  rank : nat;
  is_coordinator : bool;
}.

Definition _DistWrapper_init (use_dist : bool) (coordinator_rank group_rank : nat)
  : _DistWrapper :=
  if use_dist then
    {| use_dist := true; coordinator_rank := coordinator_rank; rank := group_rank;
       is_coordinator := bool_decide (group_rank = coordinator_rank) |}
  else
    {| use_dist := false; coordinator_rank := coordinator_rank; rank := 0;
       is_coordinator := true |}.

Definition gathered {A T} (tag : string) (local : A → M T) (a : A) : M (A * T) :=
  t <- local a ;;
  emit (Collective tag Gather) ;;;
  ret (a, t).

Definition received {A R} (tag : string) (c : Comm) (x : A * R) : M (A * R) :=
  emit (Collective tag c) ;;;
  ret x.

Definition reduce_scatter {A T R} (use_dist : bool) (coordinator_rank : nat)
    (tag : string) (local : A → M T) (global : A → list T → M (list R))
    (w : World A) : Outcome (World (A * R)) :=
  if use_dist then
    w1 <-- each (gathered tag local) w ;;
    let all_data := w1.*1.*2 in
    x <-- at_rank coordinator_rank (fun '(a, _) => global a all_data) w1 ;;
    let '(all_results, w2) := x in
    if decide (length w2 ≤ length all_results) then
      each (received tag Scatter)
           (zip_with (fun '((a, _), p) r => ((a, r), p)) w2 all_results)
    else inl (IndexError, w2.*2)
  else
    each (fun a =>
            t <- local a ;;
            all_results <- global a [t] ;;
            match all_results with
            | r :: _ => ret (a, r)
            | [] => raise IndexError
            end) w.

Definition all_reduce {A T G} (use_dist : bool) (coordinator_rank : nat)
    (tag : string) (local : A → M T) (global : A → list T → M G)
    (w : World A) : Outcome (World G) :=
  if use_dist then
    w1 <-- each (gathered tag local) w ;;
    let all_data := w1.*1.*2 in
    x <-- at_rank coordinator_rank (fun '(a, _) => global a all_data) w1 ;;
    let '(result, w2) := x in
    each (fun '(a, _) => emit (Collective tag Broadcast) ;;; ret result) w2
  else
    each (fun a => t <- local a ;; global a [t]) w.

(** Modelled from the spec: a participant of a collective that a peer never
    joins has executed [local] and waits in the gather.  What it observes
    there is left open (spec 9); spec 1 lets the operation fail as a whole. *)
Definition waiting {A T} (tag : string) (local : A → M T) (a : A) : M unit :=
  gathered tag local a ;;; ret tt.

(** The code of a rank before its first collective.  No rank hears from the
    others while it runs [own]: when some rank raises there, the others
    still run theirs and then the part [blocked] that takes them into the
    collective, where they wait for the missing rank; the operation fails as
    a whole, with the exception of the lowest rank that raised.  When every
    rank gets through, the group goes on [together]. *)
Definition until_collective {A B X} (own : A → M B) (blocked : B → M unit)
    (together : World B → Outcome X) (w : World A) : Outcome X :=
  match each own w with
  | inr w1 => together w1
  | inl (e, _) =>
      inl (e, (fun '(a, p) => match own a p with
                              | (inr b, p1) => (blocked b p1).2
                              | (inl _, p1) => p1
                              end) <$> w)
  end.

(** Processes without a communication backend do not form a group: each is
    run as a group of its own.  The outcomes are put together as for [each]. *)
Fixpoint separately {A X} (run : World A → Outcome (World X)) (w : World A)
  : Outcome (World X) :=
  match w with
  | [] => inr []
  | x :: w' =>
      match run [x], separately run w' with
      | inr r, inr r' => inr (r ++ r')
      | inr r, inl (e, ps) => inl (e, r.*2 ++ ps)
      | inl (e, ps), inr r' => inl (e, ps ++ r'.*2)
      | inl (e, ps), inl (_, ps') => inl (e, ps ++ ps')
      end
  end.

(** Modelled from the spec: [_storage_setup] of _storage_utils.py is not
    among the sources.  Spec 6 and the docstring of [save]: a given writer is
    used; without one the writer is inferred from [checkpoint_id]; when that
    is not possible a precondition failure is raised. *)
Definition _storage_setup (storage_writer : option StorageWriter)
    (checkpoint_id : option CheckpointId) : M StorageWriter :=
  match storage_writer with
  | Some w => ret w
  | None =>
      match checkpoint_id with
      | Some id =>
          match writer_for id with
          | Some w => ret w
          | None => raise (RuntimeError "Cannot detect which StorageWriter to use.")
          end
      | None =>
          raise (RuntimeError "`checkpoint_id` must be specificed if storage_writer is None.")
      end
  end.

(** ** [_save_state_dict]

    The usage logging ([torch._C._log_api_usage_once]), the profiling
    context ([_profile]) and the decorator [_api_bc_check] of the entry
    points do not take part in the protocol and are left out. *)

Definition set_global_metatadata (v : option Metadata) : M unit :=
  fun p => (inr tt, {| dicts := dicts p; ext := ext p;
                       global_metatadata := v; trace := trace p |}).

Definition get_global_metatadata : M (option Metadata) :=
  fun p => (inr (global_metatadata p), p).

(** The variables the closures of [_save_state_dict] capture.  [planner] is
    the planner after the default has been filled in, so the closures'
    [assert planner is not None] cannot fail and is not repeated. *)
Record Captured : Type := {
  c_state_dict : loc;
  c_storage_writer : StorageWriter;
  c_planner : SavePlanner;
  c_distW : _DistWrapper;
}.

Definition local_step (c : Captured) : M SavePlan :=
  let planner := c_planner c in
  let storage_writer := c_storage_writer c in
  let distW := c_distW c in
  state_dict <- deref (c_state_dict c) ;;
  call (Call_set_up_planner state_dict (is_coordinator distW))
       (set_up_planner planner state_dict (is_coordinator distW)) ;;;
  call (Call_set_up_storage_writer (is_coordinator distW))
       (set_up_storage_writer storage_writer (is_coordinator distW)) ;;;
  local_plan <- call Call_create_local_plan (create_local_plan planner) ;;
  local_plan <- call (Call_prepare_local_plan local_plan)
                     (prepare_local_plan storage_writer local_plan) ;;
  ret local_plan.

Definition global_step (c : Captured) (all_local_plans : list SavePlan)
  : M (list SavePlan) :=
  let planner := c_planner c in
  let storage_writer := c_storage_writer c in
  r <- call (Call_create_global_plan all_local_plans)
            (create_global_plan planner all_local_plans) ;;
  let '(all_local_plans, metadata) := r in
  set_global_metatadata metadata ;;;
  all_local_plans <- call (Call_prepare_global_plan all_local_plans)
                          (prepare_global_plan storage_writer all_local_plans) ;;
  ret all_local_plans.

Definition write_data_step (c : Captured) (central_plan : SavePlan)
  : M (list WriteResult) :=
  let planner := c_planner c in
  let storage_writer := c_storage_writer c in
  final_local_plan <- call (Call_finish_plan central_plan)
                           (finish_plan planner central_plan) ;;
  all_writes <- call (Call_write_data final_local_plan)
                     (write_data storage_writer final_local_plan planner) ;;
  call Call_wait (wait all_writes) ;;;
  call Call_value (value all_writes).

Definition assert_metadata : string := "global_metatadata is not None".

Definition finish_checkpoint (c : Captured) (all_results : list (list WriteResult))
  : M Metadata :=
  let storage_writer := c_storage_writer c in
  g <- get_global_metatadata ;;
  match g with
  | None => raise (AssertionError assert_metadata)
  | Some metadata =>
      metadata <- call (Call_finish metadata all_results)
                       (finish storage_writer metadata all_results) ;;
      set_global_metatadata (Some metadata) ;;;
      ret metadata
  end.

(** The positional arguments of [_save_state_dict] that differ per process;
    [coordinator_rank] and [no_dist] are the same on every rank. *)
Record SaveArgs : Type := {
  state_dict : loc;
  storage_writer : StorageWriter;
  process_group : option ProcessGroup;
  planner : option SavePlanner;
}.

Definition enter_save_state_dict (x : SaveArgs * _DistWrapper) : M Captured :=
  let '(a, distW) := x in
  planner <- match planner a with
             | None => call Call_DefaultSavePlanner DefaultSavePlanner
             | Some planner => ret planner
             end ;;
  set_global_metatadata None ;;;
  ret {| c_state_dict := state_dict a; c_storage_writer := storage_writer a;
         c_planner := planner; c_distW := distW |}.

Definition with_distW {A} (use_dist : bool) (coordinator_rank : nat) (w : World A)
  : World (A * _DistWrapper) :=
  imap (fun r '(a, p) => ((a, _DistWrapper_init use_dist coordinator_rank r), p)) w.

Definition plan_phase (no_dist : bool) (coordinator_rank : nat)
  : World Captured → Outcome (World (Captured * SavePlan)) :=
  reduce_scatter (negb no_dist) coordinator_rank "plan" local_step global_step.

Definition write_phase (no_dist : bool) (coordinator_rank : nat)
  : World (Captured * SavePlan) → Outcome (World Metadata) :=
  all_reduce (negb no_dist) coordinator_rank "write"
    (fun '(c, central_plan) => write_data_step c central_plan)
    (fun '(c, _) => finish_checkpoint c).

(** The ranks of a group whose code is: run [enter], then call
    [_save_state_dict] on what it returned.  Up to the first collective (the
    gather of the plan phase) every rank is on its own. *)
Definition _save_state_dict_group {K} (enter : K → M SaveArgs) (coordinator_rank : nat)
    (no_dist : bool) (w : World K) : Outcome (World Metadata) :=
  until_collective
    (fun '(k, distW) => a <- enter k ;; enter_save_state_dict (a, distW))
    (fun c => if use_dist (c_distW c) then waiting "plan" local_step c else ret tt)
    (fun w0 => w1 <-- plan_phase no_dist coordinator_rank w0 ;;
               write_phase no_dist coordinator_rank w1)
    (with_distW (negb no_dist) coordinator_rank w).

Definition _save_state_dict_after {K} (enter : K → M SaveArgs) (coordinator_rank : nat)
    (no_dist : bool) (w : World K) : Outcome (World Metadata) :=
  if no_dist then separately (_save_state_dict_group enter coordinator_rank true) w
  else _save_state_dict_group enter coordinator_rank false w.

Definition _save_state_dict (coordinator_rank : nat) (no_dist : bool)
    (w : World SaveArgs) : Outcome (World Metadata) :=
  _save_state_dict_after ret coordinator_rank no_dist w.

(** What one process runs without a communication backend: its own code
    and both phases with itself as the only participant and coordinator. *)
Definition alone {K} (enter : K → M SaveArgs) (coordinator_rank : nat) (k : K)
  : M Metadata :=
  a <- enter k ;;
  c <- enter_save_state_dict (a, _DistWrapper_init false coordinator_rank 0) ;;
  x <- (local_plan <- local_step c ;;
        all_results <- global_step c [local_plan] ;;
        match all_results with
        | central_plan :: _ => ret (c, central_plan)
        | [] => raise IndexError
        end) ;;
  let '(c, central_plan) := x in
  results <- write_data_step c central_plan ;;
  finish_checkpoint c [results].

(** The calls one process makes in the two phases, in order. *)
Definition plan_calls (distW : _DistWrapper) (state_dict : Dict)
    (local_plan0 : SavePlan) (all_local_plans global_plan0 : list SavePlan)
  : list Event :=
  [Call_set_up_planner state_dict (is_coordinator distW);
   Call_set_up_storage_writer (is_coordinator distW);
   Call_create_local_plan;
   Call_prepare_local_plan local_plan0] ++
  (if use_dist distW then [Collective "plan" Gather] else []) ++
  (if is_coordinator distW
   then [Call_create_global_plan all_local_plans; Call_prepare_global_plan global_plan0]
   else []) ++
  (if use_dist distW then [Collective "plan" Scatter] else []).

Definition write_calls (distW : _DistWrapper) (central_plan final_local_plan : SavePlan)
    (metadata : Metadata) (all_results : list (list WriteResult)) : list Event :=
  [Call_finish_plan central_plan;
   Call_write_data final_local_plan;
   Call_wait;
   Call_value] ++
  (if use_dist distW then [Collective "write" Gather] else []) ++
  (if is_coordinator distW then [Call_finish metadata all_results] else []) ++
  (if use_dist distW then [Collective "write" Broadcast] else []).

Definition default_planner_calls (a : SaveArgs) : list Event :=
  match planner a with None => [Call_DefaultSavePlanner] | Some _ => [] end.

(** A planner whose [create_global_plan] never returns [None] as metadata. *)
Definition returns_metadata (pl : SavePlanner) : Prop :=
  ∀ all_local_plans x global_plan metadata x',
    create_global_plan pl all_local_plans x = (inr (global_plan, metadata), x') →
    is_Some metadata.

(** ** [save_state_dict] (deprecated) *)

Definition warn_deprecated : string :=
  "'save_state_dict' is deprecated and will be removed in future versions.Please use 'save' instead.".

Definition enter_save_state_dict_deprecated (a : SaveArgs) : M SaveArgs :=
  emit (Warn warn_deprecated) ;;;
  call Call_reset (reset (storage_writer a)) ;;;
  ret a.

Definition save_state_dict (coordinator_rank : nat) (no_dist : bool)
    (w : World SaveArgs) : Outcome (World Metadata) :=
  _save_state_dict_after enter_save_state_dict_deprecated coordinator_rank no_dist w.

(** ** [save] *)

Record SaveKwargs : Type := {
  k_state_dict : loc;
  k_checkpoint_id : option CheckpointId;
  k_storage_writer : option StorageWriter;
  k_planner : option SavePlanner;
  k_process_group : option ProcessGroup;
}.

Definition warn_no_dist : string :=
  "torch.distributed is unavailable or uninitialized, assuming the intent is to save in a single process.".

(** The part of [save] before the call of [_save_state_dict].
    [dist_ready] is [dist.is_available() and dist.is_initialized()]. *)
Definition enter_save (dist_ready : bool) (k : SaveKwargs) : M SaveArgs :=
  let no_dist := negb dist_ready in
  (if no_dist then emit (Warn warn_no_dist) else ret tt) ;;;
  storage_writer <- _storage_setup (k_storage_writer k) (k_checkpoint_id k) ;;
  state_dict <- _stateful_to_state_dict (k_state_dict k) ;;
  ret {| state_dict := state_dict; storage_writer := storage_writer;
         process_group := k_process_group k; planner := k_planner k |}.

Definition save (dist_ready : bool) (w : World SaveKwargs) : Outcome (World Metadata) :=
  _save_state_dict_after (enter_save dist_ready) 0 (negb dist_ready) w.

(** Reference rendering of "a single-participant run": the steps of
    [save] on one process, one after the other, without any collective. *)
Definition single_process_save (k : SaveKwargs) : M Metadata :=
  a <- enter_save false k ;;
  c <- enter_save_state_dict (a, _DistWrapper_init false 0 0) ;;
  local_plan <- local_step c ;;
  global_plan <- global_step c [local_plan] ;;
  central_plan <- match global_plan with
                  | central_plan :: _ => ret central_plan
                  | [] => raise IndexError
                  end ;;
  results <- write_data_step c central_plan ;;
  finish_checkpoint c [results].

Definition outcome_of {A} (r : (Exn UserExn + A) * Proc) : Outcome (World A) :=
  match r with
  | (inr a, p) => inr [(a, p)]
  | (inl e, p) => inl (e, [p])
  end.

Definition is_collective (ev : Event) : Prop :=
  match ev with Collective _ _ => True | _ => False end.

(** [m] only appends to the log, and only events that satisfy [P]. *)
Definition emits (P : Event → Prop) {A} (m : M A) : Prop :=
  ∀ p r p', m p = (r, p') → ∃ evs, trace p' = trace p ++ evs ∧ Forall P evs.

(** ** [async_save] *)

Definition assert_cpu_backend : string :=
  "A CPU backend must be enabled for async save; try initializing process group with 'cpu:gloo,cuda:nccl'".

Definition the_stager (storage_writer : option StorageWriter) : option AsyncStager :=
  w ← storage_writer; stager w.

(** The staging step of [async_save]. *)
Definition stage_state_dict (k : SaveKwargs) : M loc :=
  match the_stager (k_storage_writer k) with
  | Some st =>
      state_dict <- deref (k_state_dict k) ;;
      staged <- call (Call_stage state_dict) (stage st state_dict) ;;
      new_dict staged
  | None =>
      resolved <- _stateful_to_state_dict (k_state_dict k) ;;
      state_dict <- deref resolved ;;
      offloaded <- call (Call_offload state_dict) (_offload_state_dict_to_cpu state_dict) ;;
      new_dict offloaded
  end.

(** The part of [async_save] before [executor.submit]: the arguments of the
    submitted call of [save]. *)
Definition enter_async_save (dist_ready : bool) (k : SaveKwargs) : M SaveKwargs :=
  (if dist_ready then
     let pg := default _get_default_group (k_process_group k) in
     py_assert (has_cpu_device pg) assert_cpu_backend
   else ret tt) ;;;
  cpu_state_dict <- stage_state_dict k ;;
  ret {| k_state_dict := cpu_state_dict; k_checkpoint_id := k_checkpoint_id k;
         k_storage_writer := k_storage_writer k; k_planner := k_planner k;
         k_process_group := k_process_group k |}.

(** The state of a [Future] once its call has run. *)
Definition Handle : Type := Exn UserExn + Metadata.

(** [executor.submit] followed by [f.add_done_callback]: the executor (the
    given one or [ThreadPoolExecutor(max_workers=1)]) runs the submitted
    call on the group; the model places the whole run at the point of
    submission and the done-callback (which shuts the executor down) right
    after it.  The handle of a process carries what the call returned or
    raised there. *)
Definition submit {A} (task : World A → Outcome (World Metadata)) (w : World A)
  : list (Handle * Proc) :=
  match task w with
  | inr r => (fun '(metadata, p) => (inr metadata, log Shutdown p)) <$> r
  | inl (e, ps) => (fun p => (inl e, log Shutdown p)) <$> ps
  end.

(** The part of [async_save] after the submission. *)
Definition leave_async_save (x : SaveKwargs * Handle) : M Handle :=
  let '(k, f) := x in
  match the_stager (k_storage_writer k) with
  | Some st =>
      fun p =>
        (if synchronize_after_execute st (ext p)
         then call Call_synchronize (synchronize st) ;;; ret f
         else ret f) p
  | None => ret f
  end.

Definition async_save (dist_ready : bool) (w : World SaveKwargs)
  : Outcome (World Handle) :=
  w1 <-- each (enter_async_save dist_ready) w ;;
  let futures := submit (save dist_ready) w1 in
  each leave_async_save
       (zip_with (fun '(k, _) '(f, p) => ((k, f), p)) w1 futures).


(** ** Comparing two runs

    Two processes show the same effect when their external objects are in
    the same state and they made the same calls; warnings are not calls. *)

Definition is_call (ev : Event) : bool :=
  match ev with Warn _ => false | _ => true end.

Definition calls (t : list Event) : list Event := List.filter is_call t.

Definition same_effect (p q : Proc) : Prop :=
  ext p = ext q ∧ calls (trace p) = calls (trace q).

(** The relation kept while two processes run the same steps on state dicts
    stored at [l] and [l']. *)
Definition sim (l l' : loc) (p q : Proc) : Prop :=
  ext p = ext q ∧
  global_metatadata p = global_metatadata q ∧
  calls (trace p) = calls (trace q) ∧
  dicts p !! l = dicts q !! l'.

Definition step_agree {B B'} (J : B → B' → Proc → Proc → Prop)
    (r : (Exn UserExn + B) * Proc) (r' : (Exn UserExn + B') * Proc) : Prop :=
  match r, r' with
  | (inr b, p), (inr b', q) => J b b' p q
  | (inl e, p), (inl e', q) => e = e' ∧ same_effect p q
  | _, _ => False
  end.

Definition worlds_agree {A A'} (J : A → A' → Proc → Proc → Prop)
    (w : World A) (w' : World A') : Prop :=
  Forall2 (fun x y => J x.1 y.1 x.2 y.2) w w'.

Definition outcome_agree {X Y} (R : X → Y → Prop) (o : Outcome X) (o' : Outcome Y)
  : Prop :=
  match o, o' with
  | inr x, inr y => R x y
  | inl (e, ps), inl (e', qs) => e = e' ∧ Forall2 same_effect ps qs
  | _, _ => False
  end.

(** Reference rendering of "[save] with the same arguments, the writer
    being reset first". *)
Definition as_kwargs (checkpoint_id : option CheckpointId) (a : SaveArgs) : SaveKwargs :=
  {| k_state_dict := state_dict a; k_checkpoint_id := checkpoint_id;
     k_storage_writer := Some (storage_writer a); k_planner := planner a;
     k_process_group := process_group a |}.

Definition reset_then_save (dist_ready : bool) (checkpoint_id : option CheckpointId)
    (w : World SaveArgs) : Outcome (World Metadata) :=
  _save_state_dict_after
    (fun a => call Call_reset (reset (storage_writer a)) ;;;
              enter_save dist_ready (as_kwargs checkpoint_id a))
    0 (negb dist_ready) w.

(** A state dict without [Stateful] elements, present in the store. *)
Definition plain_state_dict (a : SaveArgs) (p : Proc) : Prop :=
  ∃ items, dicts p !! state_dict a = Some items ∧ NoDup items.*1 ∧
           Forall (fun kv => isinstance_Stateful kv.2 = false) items.

(** ** The order of the calls

    The position of a call in the protocol of one checkpoint. *)
Definition stage_of (ev : Event) : nat :=
  match ev with
  | Call_DefaultSavePlanner => 0
  | Call_set_up_planner _ _ => 1
  | Call_set_up_storage_writer _ => 2
  | Call_create_local_plan => 3
  | Call_prepare_local_plan _ => 4
  | Call_create_global_plan _ => 6
  | Call_prepare_global_plan _ => 7
  | Call_finish_plan _ => 9
  | Call_write_data _ => 10
  | Call_wait => 11
  | Call_value => 12
  | Call_finish _ _ => 14
  | Collective tag c =>
      if String.eqb tag "plan" then
        match c with Gather => 5 | Scatter => 8 | Broadcast => 16 end
      else if String.eqb tag "write" then
        match c with Gather => 13 | Broadcast => 15 | Scatter => 16 end
      else 16
  | _ => 16
  end.

(** The events are in protocol order, none repeated, from position [lo] on. *)
Fixpoint ascending (lo : nat) (evs : list Event) : Prop :=
  match evs with
  | [] => True
  | ev :: evs' => lo ≤ stage_of ev ∧ ascending (S (stage_of ev)) evs'
  end.

Definition between (lo hi : nat) (evs : list Event) : Prop :=
  ascending lo evs ∧ Forall (fun ev => stage_of ev < hi) evs.

(** [p'] is [p] after some calls in protocol order, at positions from [lo]
    up to (not including) [hi]. *)
Definition extends (lo hi : nat) (p p' : Proc) : Prop :=
  ∃ evs, trace p' = trace p ++ evs ∧ between lo hi evs.

Definition runs_between (lo hi : nat) {A} (m : M A) : Prop :=
  ∀ p, extends lo hi p (m p).2.

(** The processes a group operation leaves behind, whether it returns or
    fails. *)
Definition procs_after {X} (o : Outcome (World X)) : list Proc :=
  match o with
  | inl (_, ps) => ps
  | inr w => w.*2
  end.

(** ** Relations used in the proofs *)

Definition runs_to {A B} (f : A → M B) (x : A * Proc) (y : B * Proc) : Prop :=
  f x.1 x.2 = (inr y.1, y.2).

(** An exception that is not an [AssertionError]. *)
Definition not_assertion (e : Exn UserExn) : Prop :=
  match e with AssertionError _ => False | _ => True end.

(** The captured variables of two runs that differ in the reference of the
    state dict only. *)
Definition captured_agree (c c' : Captured) (p q : Proc) : Prop :=
  c_storage_writer c = c_storage_writer c' ∧ c_planner c = c_planner c' ∧
  c_distW c = c_distW c' ∧ sim (c_state_dict c) (c_state_dict c') p q.

(** A relation on the carried values, extended to the values paired with an
    equal result. *)
Definition J_with {A A' R} (J : A → A' → Proc → Proc → Prop)
  : A * R → A' * R → Proc → Proc → Prop :=
  fun x y p q => x.2 = y.2 ∧ J x.1 y.1 p q.

Definition args_agree (a a' : SaveArgs) (p q : Proc) : Prop :=
  storage_writer a = storage_writer a' ∧ planner a = planner a' ∧
  sim (state_dict a) (state_dict a') p q.

(** What holds between the two runs after the writer has been reset. *)
Definition after_reset (checkpoint_id : option CheckpointId)
    (a : SaveArgs) (k : SaveKwargs) (p q : Proc) : Prop :=
  k = as_kwargs checkpoint_id a ∧
  ext p = ext q ∧ global_metatadata p = global_metatadata q ∧
  calls (trace p) = calls (trace q) ∧ dicts p = dicts q ∧
  plain_state_dict a p.

(** ** Events of one run *)

(** [p'] is [p] after a run in which an event that satisfies [P] was
    logged. *)
Definition called_in_run (P : Event → Prop) (p p' : Proc) : Prop :=
  ∃ evs, trace p' = trace p ++ evs ∧ Exists P evs.

Definition is_write_data (ev : Event) : Prop :=
  match ev with Call_write_data _ => True | _ => False end.

Definition is_finish (ev : Event) : Prop :=
  match ev with Call_finish _ _ => True | _ => False end.


(** [p'] is [p] with the events [evs] logged after those of [p]. *)
Definition logged (evs : list Event) (p p' : Proc) : Prop :=
  trace p' = trace p ++ evs.

(** Every dictionary of [p] is in [p'] with the same content. *)
Definition dicts_kept (p p' : Proc) : Prop :=
  ∀ l d, dicts p !! l = Some d → dicts p' !! l = Some d.

(** [m] takes every process to one related to it by [R], whether it returns
    or raises. *)
Definition keeps (R : Proc → Proc → Prop) {A} (m : M A) : Prop :=
  ∀ p, R p (m p).2.

(** The dictionary store of [p'] is that of [p]. *)
Definition same_dicts (p p' : Proc) : Prop := dicts p' = dicts p.

(** The dictionaries other than [new] are in [p'] as they are in [p]. *)
Definition same_dicts_but (new : loc) (p p' : Proc) : Prop :=
  ∀ l, l ≠ new → dicts p' !! l = dicts p !! l.

(** ** The hooks of the four steps, with the values that pass between them

    [x] is the state of the external objects before the first hook of the
    step and [x'] their state after the last. *)

(** [local_step]: l.313-319. *)
Definition local_hooks (c : Captured) (state_dict : Dict) (local_plan0 local_plan : SavePlan)
    (x x' : Ext) : Prop :=
  ∃ x1 x2 x3,
    set_up_planner (c_planner c) state_dict (is_coordinator (c_distW c)) x = (inr tt, x1) ∧
    set_up_storage_writer (c_storage_writer c) (is_coordinator (c_distW c)) x1
    = (inr tt, x2) ∧
    create_local_plan (c_planner c) x2 = (inr local_plan0, x3) ∧
    prepare_local_plan (c_storage_writer c) local_plan0 x3 = (inr local_plan, x').

(** [global_step]: l.321-327. *)
Definition global_hooks (c : Captured) (all_local_plans global_plan0 : list SavePlan)
    (metadata : option Metadata) (global_plan : list SavePlan) (x x' : Ext) : Prop :=
  ∃ x1,
    create_global_plan (c_planner c) all_local_plans x = (inr (global_plan0, metadata), x1) ∧
    prepare_global_plan (c_storage_writer c) global_plan0 x1 = (inr global_plan, x').

(** [write_data]: l.331-337. *)
Definition write_hooks (c : Captured) (central_plan final_local_plan : SavePlan)
    (results : list WriteResult) (x x' : Ext) : Prop :=
  ∃ x1 all_writes x2 x3,
    finish_plan (c_planner c) central_plan x = (inr final_local_plan, x1) ∧
    write_data (c_storage_writer c) final_local_plan (c_planner c) x1 = (inr all_writes, x2) ∧
    wait all_writes x2 = (inr tt, x3) ∧
    value all_writes x3 = (inr results, x').

(** [finish_checkpoint]: l.339-342. *)
Definition finish_hook (c : Captured) (metadata0 : Metadata)
    (all_results : list (list WriteResult)) (metadata : Metadata) (x x' : Ext) : Prop :=
  finish (c_storage_writer c) metadata0 all_results x = (inr metadata, x').

(** The sequence the global step of a collective receives on behalf of
    rank [i] (spec 4.1): with communication the values the local steps of
    all ranks returned, in rank order; without it the one value of the
    rank's own local step. *)
Definition gathered_values {A T} (no_dist : bool) (local : A → M T) (w : World A)
    (i : nat) (ts : list T) : Prop :=
  if no_dist then
    ∃ a p t p', w !! i = Some (a, p) ∧ local a p = (inr t, p') ∧ ts = [t]
  else
    length ts = length w ∧
    ∀ j a p, w !! j = Some (a, p) → ∃ t p', local a p = (inr t, p') ∧ ts !! j = Some t.

End Saver.

Module Example.

#[local] Instance types : Types := {|
  Value := nat; SavePlan := nat; Metadata := nat; WriteResult := nat;
  ProcessGroup := bool; CheckpointId := unit; Ext := nat; UserExn := unit;
|}.

(** A stateful object whose snapshot is the number 7. *)
Definition counter : Stateful := Build_Stateful (fun x => (inr (Plain 7), x)).

(** A planner whose local plan is the rank (kept in the external state)
    plus one, and whose metadata counts the local plans. *)
Definition rank_planner : SavePlanner := {|
  set_up_planner := fun _ _ x => (inr tt, x);
  create_local_plan := fun x => (inr (x + 1), x);
  create_global_plan := fun all_local_plans x =>
    (inr (all_local_plans, Some (length all_local_plans)), x);
  finish_plan := fun plan x => (inr plan, x);
|}.

(** A planner whose metadata is the number of elements of the state dict
    that are not Stateful. *)
Definition counting_planner : SavePlanner := {|
  set_up_planner := fun state_dict _ _ =>
    (inr tt, length (List.filter (fun kv => negb (isinstance_Stateful kv.2)) state_dict));
  create_local_plan := fun x => (inr 0, x);
  create_global_plan := fun all_local_plans x => (inr (all_local_plans, Some x), x);
  finish_plan := fun plan x => (inr plan, x);
|}.

Definition written (plan : nat) : WFuture := {|
  wait := fun x => (inr tt, x);
  value := fun x => (inr [plan], x);
|}.

Definition writer_with (st : option AsyncStager) : StorageWriter := {|
  reset := fun x => (inr tt, x);
  set_up_storage_writer := fun _ x => (inr tt, x);
  prepare_local_plan := fun plan x => (inr plan, x);
  prepare_global_plan := fun plans x => (inr plans, x);
  write_data := fun plan _ x => (inr (written plan), x);
  finish := fun metadata _ x => (inr metadata, x);
  stager := st;
|}.

Definition writer : StorageWriter := writer_with None.

Definition copying_stager : AsyncStager := {|
  stage := fun state_dict x => (inr state_dict, x);
  synchronize_after_execute := fun _ => true;
  synchronize := fun x => (inr tt, x);
|}.

Definition staging_writer : StorageWriter := writer_with (Some copying_stager).

#[local] Instance package : Package := {|
  DefaultSavePlanner := fun x => (inr rank_planner, x);
  _offload_state_dict_to_cpu := fun state_dict x => (inr state_dict, x);
  writer_for := fun _ => Some writer;
  _get_default_group := true;
  has_cpu_device := fun pg => pg;
|}.

(** The process of a rank: one state dict at reference 1. *)
Definition process (state : Dict) (rank : nat) : Proc := {|
  dicts := {[ 1%positive := state ]};
  ext := rank;
  global_metatadata := None;
  trace := [];
|}.

Definition plain_state : Dict := [("x"%string, Plain 5)].
Definition stateful_state : Dict := [("a"%string, Obj counter); ("b"%string, Plain 5)].
Definition resolved_state : Dict := [("a"%string, Plain 7); ("b"%string, Plain 5)].

Definition args (pl : option SavePlanner) : SaveArgs := {|
  state_dict := 1%positive; storage_writer := writer;
  process_group := None; planner := pl;
|}.

Definition kwargs (w : option StorageWriter) (pg : option bool) : SaveKwargs := {|
  k_state_dict := 1%positive; k_checkpoint_id := None; k_storage_writer := w;
  k_planner := Some rank_planner; k_process_group := pg;
|}.

(** Three ranks, as in the scenario of the spec. *)
Definition group3 : list (SaveArgs * Proc) :=
  [(args (Some rank_planner), process plain_state 0);
   (args (Some rank_planner), process plain_state 1);
   (args None, process plain_state 2)].

Definition result_of {X} (o : Outcome (list X)) : list X :=
  match o with inr x => x | inl _ => [] end.

End Example.

(** Objects whose methods raise. *)
Module Faulty.
Import Example.
#[local] Existing Instance types.
#[local] Existing Instance package.

(** A stateful object whose [state_dict()] raises. *)
Definition broken : Stateful := Build_Stateful (fun x => (inl tt, x + 1)).

Definition broken_state : Dict :=
  [("a"%string, Obj counter); ("b"%string, Obj broken); ("c"%string, Obj counter)].




End Faulty.

Section Facts.
Context `{TY : Types} {PK : Package}.

(** * Facts about dictionaries and resolution *)

Lemma dict_setitem_fresh (d : Dict) key v :
  key ∉ d.*1 → dict_setitem d key v = d ++ [(key, v)].
Proof.
  induction d as [|[k x] d IH]; simpl; intros Hk; [done|].
  apply not_elem_of_cons in Hk as [Hne Hk].
  destruct (decide (k = key)); [congruence|]. by rewrite IH.
Qed.

Lemma snapshot_items_resolved items x res x' :
  snapshot_items items x = (inr res, x') → Forall2 resolved_elem items res.
Proof.
  revert x res x'. induction items as [|[key [v|o]] rest IH]; simpl; intros x res x' H.
  - injection H as <- _. constructor.
  - destruct (snapshot_items rest x) as [[e|r] x1] eqn:Hr; [done|].
    injection H as <- _. constructor; [by split | by eapply IH].
  - destruct (state_dict_of o x) as [[e|s] x1] eqn:Hs; [done|].
    destruct (snapshot_items rest x1) as [[e|r] x2] eqn:Hr; [done|].
    injection H as <- _. constructor; [|by eapply IH].
    split; [done|]. simpl. eauto.
Qed.

Lemma snapshot_items_keys items x res x' :
  snapshot_items items x = (inr res, x') → res.*1 = items.*1.
Proof.
  intros H%snapshot_items_resolved.
  induction H as [|[k e] [k' e'] l l' [Hk _] _ IH]; [done|].
  cbn in *. by rewrite IH, Hk.
Qed.

Lemma for_each_cons {A} (x : A) xs (body : A → M unit) :
  for_each (x :: xs) body = bind (body x) (fun _ => for_each xs body).
Proof. reflexivity. Qed.

Lemma for_each_resolve (new : loc) (items : Dict) : ∀ (acc : Dict) p res x',
  dicts p !! new = Some acc →
  (∀ k, k ∈ items.*1 → k ∉ acc.*1) →
  NoDup items.*1 →
  snapshot_items items (ext p) = (inr res, x') →
  for_each items (fun '(key, elem) =>
    v <- match elem with
         | Obj o => call Call_state_dict (state_dict_of o)
         | Plain _ => ret elem
         end ;;
    setitem new key v) p
  = (inr tt, {| dicts := <[new := acc ++ res]> (dicts p); ext := x';
                global_metatadata := global_metatadata p;
                trace := trace p ++ stateful_calls items |}).
Proof.
  unfold bind, ret, call, setitem.
  induction items as [|[key elem] rest IH]; intros acc p res x' Hnew Hdisj Hnd Hsnap.
  - simpl in *. injection Hsnap as <- <-. f_equal.
    destruct p; simpl in *. rewrite !app_nil_r. by rewrite insert_id.
  - simpl in Hnd. apply NoDup_cons in Hnd as [Hkey Hnd].
    assert (Hfresh : key ∉ acc.*1) by (apply Hdisj; simpl; left).
    assert (Hdisj' : ∀ v k, k ∈ rest.*1 → k ∉ (acc ++ [(key, v)]).*1).
    { intros v k Hk. rewrite fmap_app, elem_of_app. intros [Hin|Hin].
      - eapply Hdisj; [|done]. simpl. by right.
      - simpl in Hin. apply list_elem_of_singleton in Hin. by subst. }
    destruct elem as [v|o]; simpl in Hsnap.
    + destruct (snapshot_items rest (ext p)) as [[e|r] x1] eqn:Hr; [done|].
      injection Hsnap as <- <-.
      rewrite for_each_cons. unfold bind at 1. rewrite Hnew.
      rewrite dict_setitem_fresh by done.
      erewrite IH; [| simpl; apply lookup_insert_eq | by apply Hdisj' | done | simpl; exact Hr].
      simpl. rewrite insert_insert_eq. by rewrite <- app_assoc.
    + destruct (state_dict_of o (ext p)) as [[e|s] x1] eqn:Hs; [done|].
      destruct (snapshot_items rest x1) as [[e|r] x2] eqn:Hr; [done|].
      injection Hsnap as <- <-.
      rewrite for_each_cons. unfold bind at 1. rewrite Hs. simpl. rewrite Hnew.
      rewrite dict_setitem_fresh by done.
      erewrite IH; [| simpl; apply lookup_insert_eq | by apply Hdisj' | done | simpl; exact Hr].
      simpl. rewrite insert_insert_eq. by rewrite <- !app_assoc.
Qed.


(** * Running monadic code *)

Lemma bind_inr {A B} (m : M A) (k : A → M B) p b p' :
  bind m k p = (inr b, p') ↔ ∃ a p1, m p = (inr a, p1) ∧ k a p1 = (inr b, p').
Proof.
  unfold bind. destruct (m p) as [[e|a] p1]; split.
  - done.
  - intros (? & ? & ? & ?); congruence.
  - eauto.
  - intros (? & ? & [= -> ->] & ?). done.
Qed.

Lemma bind_inl {A B} (m : M A) (k : A → M B) p e p' :
  bind m k p = (inl e, p') ↔
  m p = (inl e, p') ∨ ∃ a p1, m p = (inr a, p1) ∧ k a p1 = (inl e, p').
Proof.
  unfold bind. destruct (m p) as [[e1|a] p1]; split.
  - intros [= -> ->]. by left.
  - intros [Hm|(? & ? & ? & ?)]; congruence.
  - intros Hk. right. eauto.
  - intros [?|(? & ? & [= -> ->] & ?)]; done.
Qed.

Lemma call_inr {A} ev (m : Method A) p a p' :
  call ev m p = (inr a, p') ↔
  ∃ x, m (ext p) = (inr a, x) ∧
       p' = {| dicts := dicts p; ext := x;
               global_metatadata := global_metatadata p; trace := trace p ++ [ev] |}.
Proof.
  unfold call. destruct (m (ext p)) as [[e|a1] x]; split.
  - done.
  - intros (? & ? & ?); congruence.
  - intros [= -> <-]. eauto.
  - intros (? & [= -> ->] & ->). done.
Qed.

Lemma emit_inr ev p u p' : emit ev p = (inr u, p') ↔ p' = log ev p.
Proof. unfold emit. destruct u. split; [by intros [= <-] | by intros ->]. Qed.

Lemma ret_inr {A} (a b : A) p p' : ret a p = (inr b, p') ↔ a = b ∧ p = p'.
Proof. unfold ret. split; [by intros [= <- <-] | by intros [-> ->]]. Qed.

(** * Facts about groups *)


Lemma each_inr {A B} (f : A → M B) w w' :
  each f w = inr w' ↔ Forall2 (runs_to f) w w'.
Proof.
  revert w'. induction w as [|[a p] w IH]; intros w'; simpl.
  - split; [intros [= <-]; constructor | by intros ->%Forall2_nil_inv_l].
  - unfold runs_to in *. split.
    + destruct (f a p) as [[e|b] p1] eqn:Hf; destruct (each f w) as [[e' ps]|r]; try done.
      intros [= <-]. constructor; [done | by apply IH].
    + intros (y & r & Hy & Hr & ->)%Forall2_cons_inv_l. simpl in Hy.
      rewrite Hy. apply IH in Hr. rewrite Hr. by destruct y.
Qed.

Lemma each_lookup {A B} (f : A → M B) w w' i a p :
  each f w = inr w' → w !! i = Some (a, p) →
  ∃ b p', f a p = (inr b, p') ∧ w' !! i = Some (b, p').
Proof.
  intros Hw%each_inr Hi.
  destruct (Forall2_lookup_l _ _ _ _ _ Hw Hi) as ([b p'] & Hi' & Hrun). eauto.
Qed.

Lemma each_length {A B} (f : A → M B) w w' :
  each f w = inr w' → length w' = length w.
Proof. intros Hw%each_inr. symmetry. by eapply Forall2_length. Qed.

Lemma each_fail_at {A B} (f : A → M B) w i a p e p' :
  w !! i = Some (a, p) → f a p = (inl e, p') →
  ∃ e' ps, each f w = inl (e', ps) ∧ ps !! i = Some p' ∧ (i = 0 → e' = e).
Proof.
  revert i. induction w as [|[a0 p0] w IH]; intros i Hi Hf; [done|].
  destruct i as [|i]; simpl in *.
  - injection Hi as -> ->. rewrite Hf.
    destruct (each f w) as [[e2 ps2]|r]; eauto.
  - destruct (IH _ Hi Hf) as (e' & ps & -> & Hps & _).
    destruct (f a0 p0) as [[e1|b] p1]; eexists _, _; (split; [done|]); split; done.
Qed.

Lemma at_rank_inr {A B} c (f : A → M B) w b w2 :
  at_rank c f w = inr (b, w2) ↔
  ∃ a p p', w !! c = Some (a, p) ∧ f a p = (inr b, p') ∧ w2 = <[c := (a, p')]> w.
Proof.
  unfold at_rank. destruct (w !! c) as [[a p]|]; [|split; [done | by intros (? & ? & ? & ? & _)]].
  destruct (f a p) as [[e|b1] p1] eqn:Hf; split.
  - done.
  - intros (? & ? & ? & [= <- <-] & ? & _). congruence.
  - intros [= <- <-]. by exists a, p, p1.
  - intros (? & ? & ? & [= <- <-] & Hf' & ->). congruence.
Qed.

Lemma gathered_inr {A T} tag (local : A → M T) a p x p' :
  gathered tag local a p = (inr x, p') ↔
  ∃ t p1, local a p = (inr t, p1) ∧ x = (a, t) ∧ p' = log (Collective tag Gather) p1.
Proof.
  unfold gathered. rewrite bind_inr. split.
  - intros (t & p1 & Hl & (u & p2 & ->%emit_inr & [<- <-]%ret_inr)%bind_inr). eauto.
  - intros (t & p1 & Hl & -> & ->). exists t, p1. split; [done|].
    apply bind_inr. exists tt, (log (Collective tag Gather) p1). by rewrite emit_inr, ret_inr.
Qed.

Lemma received_inr {A R} tag c (x y : A * R) p p' :
  received tag c x p = (inr y, p') ↔ y = x ∧ p' = log (Collective tag c) p.
Proof.
  unfold received. rewrite bind_inr. split.
  - by intros (u & p1 & ->%emit_inr & [<- <-]%ret_inr).
  - intros [-> ->]. exists tt, (log (Collective tag c) p). by rewrite emit_inr, ret_inr.
Qed.

(** What every rank sees of a gather: its own local step has run, and the
    values of all ranks are collected in rank order. *)
Lemma gather_lookup {A T} tag (local : A → M T) w w1 i a p :
  each (gathered tag local) w = inr w1 → w !! i = Some (a, p) →
  ∃ t p1, local a p = (inr t, p1) ∧ w1.*1.*2 !! i = Some t ∧
          w1 !! i = Some ((a, t), log (Collective tag Gather) p1).
Proof.
  intros Hw Hi. destruct (each_lookup _ _ _ _ _ _ Hw Hi) as (x & p' & Hrun & Hi1).
  apply gathered_inr in Hrun as (t & p1 & Hl & -> & ->).
  exists t, p1. split; [done|]. split; [|done].
  by rewrite !list_lookup_fmap, Hi1.
Qed.

(** The group path of [reduce_scatter], rank by rank. *)
Lemma reduce_scatter_group {A T R} c tag (local : A → M T)
    (global : A → list T → M (list R)) w w3 :
  reduce_scatter true c tag local global w = inr w3 →
  ∃ ts rs,
    c < length w ∧ length ts = length w ∧ length w3 = length w ∧
    ∀ i a p, w !! i = Some (a, p) →
      ∃ t p1 p2 r,
        local a p = (inr t, p1) ∧ ts !! i = Some t ∧
        (if decide (i = c)
         then global a ts (log (Collective tag Gather) p1) = (inr rs, p2)
         else p2 = log (Collective tag Gather) p1) ∧
        rs !! i = Some r ∧
        w3 !! i = Some ((a, r), log (Collective tag Scatter) p2).
Proof.
  unfold reduce_scatter.
  destruct (each (gathered tag local) w) as [[e ps]|w1] eqn:Hw1; [done|].
  destruct (at_rank c _ w1) as [[e ps]|[rs w2]] eqn:Hc; [done|].
  apply at_rank_inr in Hc as ([ac tc] & pc & pc' & Hwc & Hg & ->).
  destruct (decide _) as [Hlen|]; [|done]. intros Hw3.
  rewrite length_insert in Hlen.
  pose proof (each_length _ _ _ Hw1) as Hl1.
  pose proof (each_length _ _ _ Hw3) as Hl3.
  rewrite length_zip_with_l in Hl3 by (rewrite length_insert; lia).
  rewrite length_insert in Hl3.
  exists (w1.*1.*2), rs. split; [|split; [|split]].
  - rewrite <- Hl1. by eapply lookup_lt_Some.
  - by rewrite !length_fmap.
  - lia.
  - intros i a p Hi.
    destruct (gather_lookup _ _ _ _ _ _ _ Hw1 Hi) as (t & p1 & Hl & Ht & Hi1).
    assert (is_Some (rs !! i)) as [r Hr].
    { apply lookup_lt_is_Some. apply lookup_lt_Some in Hi. lia. }
    destruct (decide (i = c)) as [->|Hne].
    + rewrite Hwc in Hi1. injection Hi1 as -> -> ->.
      exists t, p1, pc', r. repeat split; [done..|].
      eapply each_lookup in Hw3 as (y & p3 & [-> ->]%received_inr & ->).
      * done.
      * rewrite lookup_zip_with, list_lookup_insert_eq, Hr; [done|].
        by eapply lookup_lt_Some.
    + exists t, p1, (log (Collective tag Gather) p1), r. repeat split; [done..|].
      eapply each_lookup in Hw3 as (y & p3 & [-> ->]%received_inr & ->).
      * done.
      * by rewrite lookup_zip_with, list_lookup_insert_ne, Hi1, Hr.
Qed.

(** The group path of [all_reduce], rank by rank. *)
Lemma all_reduce_group {A T G} c tag (local : A → M T)
    (global : A → list T → M G) w w3 :
  all_reduce true c tag local global w = inr w3 →
  ∃ ts g,
    c < length w ∧ length ts = length w ∧ length w3 = length w ∧
    ∀ i a p, w !! i = Some (a, p) →
      ∃ t p1 p2,
        local a p = (inr t, p1) ∧ ts !! i = Some t ∧
        (if decide (i = c)
         then global a ts (log (Collective tag Gather) p1) = (inr g, p2)
         else p2 = log (Collective tag Gather) p1) ∧
        w3 !! i = Some (g, log (Collective tag Broadcast) p2).
Proof.
  unfold all_reduce.
  destruct (each (gathered tag local) w) as [[e ps]|w1] eqn:Hw1; [done|].
  destruct (at_rank c _ w1) as [[e ps]|[g w2]] eqn:Hc; [done|].
  apply at_rank_inr in Hc as ([ac tc] & pc & pc' & Hwc & Hg & ->).
  intros Hw3.
  pose proof (each_length _ _ _ Hw1) as Hl1.
  pose proof (each_length _ _ _ Hw3) as Hl3.
  rewrite length_insert in Hl3.
  exists (w1.*1.*2), g. split; [|split; [|split]].
  - rewrite <- Hl1. by eapply lookup_lt_Some.
  - by rewrite !length_fmap.
  - lia.
  - intros i a p Hi.
    destruct (gather_lookup _ _ _ _ _ _ _ Hw1 Hi) as (t & p1 & Hl & Ht & Hi1).
    destruct (decide (i = c)) as [->|Hne].
    + rewrite Hwc in Hi1. injection Hi1 as -> -> ->.
      exists t, p1, pc'. repeat split; [done..|].
      assert (<[c:=(a, t, pc')]> w1 !! c = Some (a, t, pc')) as Hi2.
      { apply list_lookup_insert_eq. by eapply lookup_lt_Some. }
      destruct (each_lookup _ _ _ _ _ _ Hw3 Hi2) as (y & p3 & Hrun & ->).
      by apply bind_inr in Hrun as (u & p4 & ->%emit_inr & [<- <-]%ret_inr).
    + exists t, p1, (log (Collective tag Gather) p1). repeat split; [done..|].
      assert (<[c:=(ac, tc, pc')]> w1 !! i = Some (a, t, log (Collective tag Gather) p1)) as Hi2.
      { by rewrite list_lookup_insert_ne. }
      destruct (each_lookup _ _ _ _ _ _ Hw3 Hi2) as (y & p3 & Hrun & ->).
      by apply bind_inr in Hrun as (u & p4 & ->%emit_inr & [<- <-]%ret_inr).
Qed.

(** The path without communication, process by process. *)
Lemma reduce_scatter_solo {A T R} c tag (local : A → M T)
    (global : A → list T → M (list R)) w w3 :
  reduce_scatter false c tag local global w = inr w3 →
  length w3 = length w ∧
  ∀ i a p, w !! i = Some (a, p) →
    ∃ t p1 rs p2 r,
      local a p = (inr t, p1) ∧ global a [t] p1 = (inr rs, p2) ∧
      rs !! 0 = Some r ∧ w3 !! i = Some ((a, r), p2).
Proof.
  unfold reduce_scatter. intros Hw3. split; [by eapply each_length|].
  intros i a p Hi.
  eapply each_lookup in Hw3 as (y & p3 & Hrun & ->); [|done].
  apply bind_inr in Hrun as (t & p1 & Hl & Hrun).
  apply bind_inr in Hrun as (rs & p2 & Hg & Hrun).
  destruct rs as [|r rs]; [done|]. apply ret_inr in Hrun as [<- <-].
  by exists t, p1, (r :: rs), p2, r.
Qed.

Lemma all_reduce_solo {A T G} c tag (local : A → M T)
    (global : A → list T → M G) w w3 :
  all_reduce false c tag local global w = inr w3 →
  length w3 = length w ∧
  ∀ i a p, w !! i = Some (a, p) →
    ∃ t p1 g p2,
      local a p = (inr t, p1) ∧ global a [t] p1 = (inr g, p2) ∧
      w3 !! i = Some (g, p2).
Proof.
  unfold all_reduce. intros Hw3. split; [by eapply each_length|].
  intros i a p Hi.
  eapply each_lookup in Hw3 as (y & p3 & Hrun & ->); [|done].
  apply bind_inr in Hrun as (t & p1 & Hl & Hg).
  by exists t, p1, y, p3.
Qed.

(** * The steps of [_save_state_dict] *)

Lemma deref_inr l p d p' :
  deref l p = (inr d, p') ↔ dicts p !! l = Some d ∧ p' = p.
Proof.
  unfold deref. destruct (dicts p !! l); split; try done.
  - by intros [= -> ->].
  - by intros [[= ->] ->].
  - by intros [? _].
Qed.

Lemma set_global_metatadata_inr v p u p' :
  set_global_metatadata v p = (inr u, p') ↔
  p' = {| dicts := dicts p; ext := ext p; global_metatadata := v; trace := trace p |}.
Proof. unfold set_global_metatadata. destruct u. split; [by intros [= <-] | by intros ->]. Qed.

Lemma get_global_metatadata_inr p g p' :
  get_global_metatadata p = (inr g, p') ↔ g = global_metatadata p ∧ p' = p.
Proof. unfold get_global_metatadata. split; [by intros [= <- <-] | by intros [-> ->]]. Qed.

Ltac run_inv :=
  repeat match goal with
  | H : bind _ _ _ = (inr _, _) |- _ =>
      let H1 := fresh "Hrun" in apply bind_inr in H as (? & ? & H1 & H)
  | H : call _ _ _ = (inr _, _) |- _ =>
      let H1 := fresh "Hcall" in apply call_inr in H as (? & H1 & ->)
  | H : emit _ _ = (inr _, _) |- _ => apply emit_inr in H as ->
  | H : ret _ _ = (inr _, _) |- _ => apply ret_inr in H as [? ?]; subst
  | H : deref _ _ = (inr _, _) |- _ => apply deref_inr in H as [? ->]
  | H : set_global_metatadata _ _ = (inr _, _) |- _ =>
      apply set_global_metatadata_inr in H as ->
  | H : get_global_metatadata _ = (inr _, _) |- _ =>
      apply get_global_metatadata_inr in H as [-> ->]
  end.

Lemma local_step_inr c p local_plan p' :
  local_step c p = (inr local_plan, p') →
  ∃ sd lp0,
    dicts p !! c_state_dict c = Some sd ∧
    dicts p' = dicts p ∧
    global_metatadata p' = global_metatadata p ∧
    trace p' = trace p ++
      [Call_set_up_planner sd (is_coordinator (c_distW c));
       Call_set_up_storage_writer (is_coordinator (c_distW c));
       Call_create_local_plan; Call_prepare_local_plan lp0].
Proof.
  unfold local_step. intros Hrun. run_inv. simpl.
  eexists _, _. repeat split; [done|]. by rewrite <- !app_assoc.
Qed.

Lemma global_step_inr c all_local_plans p global_plan p' :
  global_step c all_local_plans p = (inr global_plan, p') →
  ∃ gp0 metadata x,
    create_global_plan (c_planner c) all_local_plans (ext p) = (inr (gp0, metadata), x) ∧
    dicts p' = dicts p ∧
    global_metatadata p' = metadata ∧
    trace p' = trace p ++
      [Call_create_global_plan all_local_plans; Call_prepare_global_plan gp0].
Proof.
  unfold global_step. intros Hrun. run_inv.
  match goal with x : (list SavePlan * option Metadata)%type |- _ => destruct x as [gp0 md] end.
  run_inv. simpl. eexists _, _, _. repeat split; [done|]. by rewrite <- !app_assoc.
Qed.

Lemma write_data_step_inr c central_plan p results p' :
  write_data_step c central_plan p = (inr results, p') →
  ∃ final_local_plan,
    dicts p' = dicts p ∧
    global_metatadata p' = global_metatadata p ∧
    trace p' = trace p ++
      [Call_finish_plan central_plan; Call_write_data final_local_plan;
       Call_wait; Call_value].
Proof.
  unfold write_data_step. intros Hrun. run_inv. simpl.
  eexists. repeat split. by rewrite <- !app_assoc.
Qed.

Lemma finish_checkpoint_inr c all_results p metadata p' :
  finish_checkpoint c all_results p = (inr metadata, p') →
  ∃ md0 x,
    global_metatadata p = Some md0 ∧
    finish (c_storage_writer c) md0 all_results (ext p) = (inr metadata, x) ∧
    dicts p' = dicts p ∧
    trace p' = trace p ++ [Call_finish md0 all_results].
Proof.
  unfold finish_checkpoint. intros Hrun. run_inv.
  destruct (global_metatadata p) as [md0|] eqn:Hg; [|done].
  run_inv. simpl. eauto 10.
Qed.

Lemma enter_save_state_dict_inr a distW p c p' :
  enter_save_state_dict (a, distW) p = (inr c, p') →
  c_state_dict c = state_dict a ∧ c_storage_writer c = storage_writer a ∧
  c_distW c = distW ∧
  match planner a with
  | Some pl => c_planner c = pl ∧ ext p' = ext p ∧ trace p' = trace p
  | None => (∃ x, DefaultSavePlanner (ext p) = (inr (c_planner c), x)) ∧
            trace p' = trace p ++ [Call_DefaultSavePlanner]
  end ∧
  dicts p' = dicts p.
Proof.
  unfold enter_save_state_dict. intros Hrun. run_inv.
  destruct (planner a) as [pl|]; run_inv; simpl; eauto 10.
Qed.

(** * The plan phase *)

(** C2 (index fidelity and single-participant degeneracy).  With a
    communication backend and any number of participants, the plan that
    [reduce_scatter] hands to participant [i] (the [central_plan] of
    [_save_state_dict]) is element [i] of what [global_step] returned on the
    coordinator for the rank-ordered sequence of all outputs of [local_step].
    With one participant and no backend, [global_step] runs directly on the
    one-element sequence, on the state that [local_step] left, and its first
    element is handed back; the process state is the one [global_step] left,
    so no communication step has taken place. *)
Theorem reduce_scatter_index_fidelity (c : nat) :
  (∀ w w1,
     plan_phase false c w = inr w1 →
     ∃ all_local_plans global_plan,
       length all_local_plans = length w ∧
       (∀ i cap p, w !! i = Some (cap, p) →
          ∃ lp p1, local_step cap p = (inr lp, p1) ∧ all_local_plans !! i = Some lp) ∧
       (∃ capc pc pc', w.*1 !! c = Some capc ∧
          global_step capc all_local_plans pc = (inr global_plan, pc')) ∧
       (∀ i cap p, w !! i = Some (cap, p) →
          ∃ central_plan p', w1 !! i = Some ((cap, central_plan), p') ∧
                             global_plan !! i = Some central_plan)) ∧
  (∀ cap p,
     plan_phase true c [(cap, p)] =
     match local_step cap p with
     | (inr lp, p1) =>
         match global_step cap [lp] p1 with
         | (inr (central_plan :: _), p2) => inr [((cap, central_plan), p2)]
         | (inr [], p2) => inl (IndexError, [p2])
         | (inl e, p2) => inl (e, [p2])
         end
     | (inl e, p1) => inl (e, [p1])
     end).
Proof.
  split.
  - intros w w1 Hw1. unfold plan_phase in Hw1. simpl in Hw1.
    apply reduce_scatter_group in Hw1 as (ts & rs & Hc & Hts & Hlen & Hpt).
    exists ts, rs. split; [done|]. split; [|split].
    + intros i cap p Hi. destruct (Hpt _ _ _ Hi) as (t & p1 & p2 & r & Hl & Ht & _).
      eauto.
    + apply lookup_lt_is_Some in Hc as [[capc pc] Hwc].
      destruct (Hpt _ _ _ Hwc) as (t & p1 & p2 & r & Hl & Ht & Hg & _).
      rewrite decide_True in Hg by done.
      exists capc, (log (Collective "plan" Gather) p1), p2.
      split; [by rewrite list_lookup_fmap, Hwc | done].
    + intros i cap p Hi.
      destruct (Hpt _ _ _ Hi) as (t & p1 & p2 & r & _ & _ & _ & Hr & Hi1). eauto.
  - intros cap p. unfold plan_phase, reduce_scatter, each, bind, raise, ret. simpl.
    destruct (local_step cap p) as [[e|lp] p1]; [done|].
    destruct (global_step cap [lp] p1) as [[e|[|r rs]] p2]; done.
Qed.

(** * One rank through the two phases *)

Lemma with_distW_lookup {A} u c (w : World A) i a p :
  w !! i = Some (a, p) →
  with_distW u c w !! i = Some ((a, _DistWrapper_init u c i), p).
Proof. intros Hi. unfold with_distW. by rewrite list_lookup_imap, Hi. Qed.

Lemma with_distW_length {A} u c (w : World A) :
  length (with_distW u c w) = length w.
Proof. apply length_imap. Qed.

Lemma _DistWrapper_init_use_dist u c i : use_dist (_DistWrapper_init u c i) = u.
Proof. by destruct u. Qed.

Lemma _DistWrapper_init_coordinator u c i :
  is_coordinator (_DistWrapper_init u c i) = if u then bool_decide (i = c) else true.
Proof. by destruct u. Qed.

(** * Ranks on their own *)

Lemma each_singleton {A B} (f : A → M B) a p : each f [(a, p)] = outcome_of (f a p).
Proof. simpl. by destruct (f a p) as [[e|b] p1]. Qed.

Lemma outcome_of_bind {A B} (m : M A) (k : A → M B) p :
  outcome_of (bind m k p) =
  match m p with
  | (inr a, p1) => outcome_of (k a p1)
  | (inl e, p1) => inl (e, [p1])
  end.
Proof. unfold bind. by destruct (m p) as [[e|a] p1]. Qed.

Lemma bind_assoc {A B C} (m : M A) (k : A → M B) (k' : B → M C) p :
  bind (bind m k) k' p = bind m (fun a => bind (k a) k') p.
Proof. unfold bind. by destruct (m p) as [[e|a] p1]. Qed.

Lemma each_ext {A B} (f g : A → M B) w :
  (∀ a p, f a p = g a p) → each f w = each g w.
Proof.
  intros Hfg. induction w as [|[a p] w IH]; [done|]. simpl. by rewrite Hfg, IH.
Qed.

Lemma each_ret {A} (w : World A) : each ret w = inr w.
Proof. induction w as [|[a p] w IH]; [done|]. simpl. by rewrite IH. Qed.

Lemma each_bind_inr {A B C} (f : A → M B) (g : B → M C) w w2 :
  each (fun a => b <- f a ;; g b) w = inr w2 ↔
  ∃ w1, each f w = inr w1 ∧ each g w1 = inr w2.
Proof.
  revert w2. induction w as [|[a p] w IH]; intros w2; simpl.
  - split; [intros [= <-]; by exists [] | by intros (? & [= <-] & [= <-])].
  - unfold bind at 1. destruct (f a p) as [[e|b] p1] eqn:Hf.
    + split.
      * destruct (each (λ a0, bind (f a0) g) w) as [[??]|?]; done.
      * intros (w1 & Hw1 & _). by destruct (each f w) as [[??]|?].
    + destruct (g b p1) as [[e|c0] p2] eqn:Hg.
      * split.
        -- destruct (each (λ a0, bind (f a0) g) w) as [[??]|?]; done.
        -- intros (w1 & Hw1 & Hw2). destruct (each f w) as [[??]|r1]; [done|].
           injection Hw1 as <-. simpl in Hw2. rewrite Hg in Hw2.
           by destruct (each g r1) as [[??]|?].
      * destruct (each (λ a0, bind (f a0) g) w) as [[e ps]|r] eqn:Hr.
        -- split; [done|]. intros (w1 & Hw1 & Hw2).
           destruct (each f w) as [[??]|r1] eqn:Hr1; [done|].
           injection Hw1 as <-. simpl in Hw2. rewrite Hg in Hw2.
           destruct (each g r1) as [[??]|r2] eqn:Hr2; [done|].
           assert (inl (e, ps) = inr r2) as Habs; [|done].
           apply IH. eauto.
        -- destruct (proj1 (IH r) eq_refl) as (r1 & Hr1 & Hr2).
           split.
           ++ intros [= <-]. exists ((b, p1) :: r1). rewrite Hr1. split; [done|].
              simpl. by rewrite Hg, Hr2.
           ++ intros (w1 & Hw1 & Hw2). rewrite Hr1 in Hw1. injection Hw1 as <-.
              simpl in Hw2. rewrite Hg, Hr2 in Hw2. by injection Hw2 as <-.
Qed.

Lemma with_distW_false {A} c (w : World A) :
  with_distW false c w =
  (fun '(a, p) => ((a, _DistWrapper_init false c 0), p)) <$> w.
Proof.
  unfold with_distW. apply list_eq. intros i.
  rewrite list_lookup_imap, list_lookup_fmap. by destruct (w !! i) as [[a p]|].
Qed.

Lemma each_fmap_value {A A' B} (h : A → A') (f : A' → M B) (w : World A) :
  each f ((fun '(a, p) => (h a, p)) <$> w) = each (fun a => f (h a)) w.
Proof.
  induction w as [|[a p] w IH]; [done|]. rewrite fmap_cons. cbn [each]. by rewrite IH.
Qed.

Lemma each_imap_bind_inr {K A Dw B} (enter : K → M A) (E : A * Dw → M B)
    (w : World K) : ∀ (D : nat → Dw) F G w0,
  (∀ r k p, F r (k, p) = ((k, D r), p)) →
  (∀ r a p, G r (a, p) = ((a, D r), p)) →
  each (fun '(k, d) => a <- enter k ;; E (a, d)) (imap F w) = inr w0 ↔
  ∃ wa, each enter w = inr wa ∧ each E (imap G wa) = inr w0.
Proof.
  induction w as [|[k p] w IH]; intros D F G w0 HF HG; rewrite ?imap_cons; cbn [each].
  - split; [intros [= <-]; by exists [] | by intros (? & [= <-] & [= <-])].
  - rewrite HF. unfold bind at 1.
    assert (∀ r k p, (F ∘ S) r (k, p) = ((k, (D ∘ S) r), p)) as HF' by (intros; apply HF).
    assert (∀ r a p, (G ∘ S) r (a, p) = ((a, (D ∘ S) r), p)) as HG' by (intros; apply HG).
    specialize (IH (D ∘ S) (F ∘ S) (G ∘ S)).
    destruct (enter k p) as [[e|a] p1] eqn:Hk.
    + split.
      * match goal with |- context [each ?f ?l] => destruct (each f l) as [[??]|?] end;
          done.
      * intros (wa & Hwa & _). by destruct (each enter w) as [[??]|?].
    + destruct (E (a, D 0) p1) as [[e|cap] p2] eqn:Hc.
      * split.
        -- match goal with |- context [each ?f ?l] => destruct (each f l) as [[??]|?] end;
             done.
        -- intros (wa & Hwa & Hw0). destruct (each enter w) as [[??]|r1]; [done|].
           injection Hwa as <-. rewrite imap_cons in Hw0. cbn [each] in Hw0.
           rewrite HG, Hc in Hw0.
           match type of Hw0 with context [each ?f ?l] =>
             destruct (each f l) as [[??]|?] end; done.
      * match goal with |- context [each ?f ?l] =>
          destruct (each f l) as [[e ps]|r] eqn:Hr end.
        -- split; [done|]. intros (wa & Hwa & Hw0).
           destruct (each enter w) as [[??]|r1] eqn:Hr1; [done|].
           injection Hwa as <-. rewrite imap_cons in Hw0. cbn [each] in Hw0.
           rewrite HG, Hc in Hw0.
           match type of Hw0 with context [each ?f ?l] =>
             destruct (each f l) as [[??]|r2] eqn:Hr2 end; [done|].
           assert (inl (e, ps) = inr r2) as Habs; [|done].
           apply (IH r2 HF' HG'). eauto.
        -- destruct (proj1 (IH r HF' HG') eq_refl) as (r1 & Hr1 & Hr2).
           split.
           ++ intros [= <-]. exists ((a, p1) :: r1). rewrite Hr1. split; [done|].
              rewrite imap_cons. cbn [each]. by rewrite HG, Hc, Hr2.
           ++ intros (wa & Hwa & Hw0). rewrite Hr1 in Hwa. injection Hwa as <-.
              rewrite imap_cons in Hw0. cbn [each] in Hw0.
              rewrite HG, Hc, Hr2 in Hw0. by injection Hw0 as <-.
Qed.

Lemma each_with_distW_inr {K} (enter : K → M SaveArgs) u c (w : World K) w0 :
  each (fun '(k, distW) => a <- enter k ;; enter_save_state_dict (a, distW))
       (with_distW u c w) = inr w0 ↔
  ∃ wa, each enter w = inr wa ∧
        each enter_save_state_dict (with_distW u c wa) = inr w0.
Proof. by apply (each_imap_bind_inr _ _ _ (_DistWrapper_init u c)). Qed.

Lemma until_collective_inr {A B X} (own : A → M B) blocked
    (together : World B → Outcome X) w r :
  until_collective own blocked together w = inr r ↔
  ∃ w1, each own w = inr w1 ∧ together w1 = inr r.
Proof.
  unfold until_collective. destruct (each own w) as [[e ps]|w1].
  - split; [done | by intros (? & ? & ?)].
  - split; [eauto | by intros (? & [= <-] & ?)].
Qed.

Lemma separately_each {A X} (run : World A → Outcome (World X)) (f : A → M X) w :
  (∀ a p, run [(a, p)] = outcome_of (f a p)) →
  separately run w = each f w.
Proof.
  intros Hrun. induction w as [|[a p] w IH]; [done|]. simpl. rewrite Hrun, IH.
  by destruct (f a p) as [[e|b] p1], (each f w) as [[e' ps]|r].
Qed.

Lemma _save_state_dict_group_alone {K} (enter : K → M SaveArgs) c k p :
  _save_state_dict_group enter c true [(k, p)] = outcome_of (alone enter c k p).
Proof.
  unfold _save_state_dict_group, until_collective, alone. cbn [negb].
  change (with_distW false c [(k, p)]) with [((k, _DistWrapper_init false c 0), p)].
  set (D := _DistWrapper_init false c 0).
  rewrite each_singleton. cbn [fmap list_fmap].
  rewrite !outcome_of_bind. unfold bind at 1.
  destruct (enter k p) as [[e|a] p1]; [done|].
  rewrite outcome_of_bind.
  destruct (enter_save_state_dict (a, D) p1) as [[e|cap] p2]; simpl; [done|].
  unfold plan_phase, reduce_scatter. cbn [negb]. rewrite each_singleton.
  rewrite (outcome_of_bind (bind (local_step cap) _)).
  match goal with
  | |- context [outcome_of (?m p2)] => destruct (m p2) as [[e|[cap' cp]] p3]
  end; simpl; [done|].
  unfold write_phase, all_reduce. cbn [negb]. by rewrite each_singleton.
Qed.

Lemma _save_state_dict_after_alone {K} (enter : K → M SaveArgs) c w :
  _save_state_dict_after enter c true w = each (alone enter c) w.
Proof.
  unfold _save_state_dict_after. apply separately_each. intros k p.
  apply _save_state_dict_group_alone.
Qed.

Lemma _save_state_dict_after_inr {K} (enter : K → M SaveArgs) c no_dist w w' :
  _save_state_dict_after enter c no_dist w = inr w' ↔
  ∃ wa w0 w1,
    each enter w = inr wa ∧
    each enter_save_state_dict (with_distW (negb no_dist) c wa) = inr w0 ∧
    plan_phase no_dist c w0 = inr w1 ∧
    write_phase no_dist c w1 = inr w'.
Proof.
  destruct no_dist; cbn [negb].
  - rewrite _save_state_dict_after_alone. unfold alone.
    rewrite each_bind_inr.
    setoid_rewrite each_bind_inr. setoid_rewrite each_bind_inr.
    setoid_rewrite with_distW_false.
    setoid_rewrite (each_fmap_value (fun a => (a, _DistWrapper_init false c 0))).
    unfold plan_phase, write_phase, reduce_scatter, all_reduce.
    split.
    + intros (wa & Hwa & w0 & Hw0 & w1 & Hw1 & Hw'). exists wa, w0, w1.
      split; [done|]. split; [done|]. split; [done|].
      rewrite <- Hw'. apply each_ext. by intros [cap cp] q.
    + intros (wa & w0 & w1 & Hwa & Hw0 & Hw1 & Hw'). exists wa. split; [done|].
      exists w0. split; [done|]. exists w1. split; [done|].
      rewrite <- Hw'. apply each_ext. by intros [cap cp] q.
  - unfold _save_state_dict_after, _save_state_dict_group.
    rewrite until_collective_inr. setoid_rewrite each_with_distW_inr.
    split.
    + intros (w0 & (wa & Hwa & Hw0) & Hrest).
      destruct (plan_phase false c w0) as [[??]|w1] eqn:Hp; [done|]. eauto 10.
    + intros (wa & w0 & w1 & Hwa & Hw0 & Hw1 & Hw'). exists w0.
      split; [eauto|]. by rewrite Hw1.
Qed.

Lemma _save_state_dict_inr c no_dist w w' :
  _save_state_dict c no_dist w = inr w' →
  ∃ w0 w1,
    each enter_save_state_dict (with_distW (negb no_dist) c w) = inr w0 ∧
    plan_phase no_dist c w0 = inr w1 ∧
    write_phase no_dist c w1 = inr w'.
Proof.
  unfold _save_state_dict. rewrite _save_state_dict_after_inr.
  intros (wa & w0 & w1 & Hwa & Hw0 & Hw1 & Hw').
  rewrite each_ret in Hwa. injection Hwa as <-. eauto.
Qed.

Lemma plan_phase_rank no_dist c w0 w1 i cap p :
  plan_phase no_dist c w0 = inr w1 →
  w0 !! i = Some (cap, p) →
  c_distW cap = _DistWrapper_init (negb no_dist) c i →
  ∃ central_plan p1 sd lp0 lps gp0,
    w1 !! i = Some ((cap, central_plan), p1) ∧
    trace p1 = trace p ++ plan_calls (c_distW cap) sd lp0 lps gp0 ∧
    (if is_coordinator (c_distW cap)
     then ∃ x gp x', create_global_plan (c_planner cap) lps x
                     = (inr (gp, global_metatadata p1), x')
     else global_metatadata p1 = global_metatadata p).
Proof.
  intros Hw1 Hi Hd. unfold plan_calls. rewrite Hd.
  rewrite _DistWrapper_init_use_dist, _DistWrapper_init_coordinator.
  unfold plan_phase in Hw1. destruct no_dist; cbn [negb] in *.
  - apply reduce_scatter_solo in Hw1 as [_ Hpt].
    destruct (Hpt _ _ _ Hi) as (t & p1 & rs & p2 & r & Hl & Hg & _ & Hi1).
    apply local_step_inr in Hl as (sd & lp0 & _ & _ & Hm1 & Ht1).
    apply global_step_inr in Hg as (gp0 & md & x & Hcg & _ & Hm2 & Ht2).
    exists r, p2, sd, lp0, [t], gp0. split; [done|]. split.
    + rewrite Ht2, Ht1, Hd, _DistWrapper_init_coordinator. simpl.
      by rewrite <- !app_assoc.
    + rewrite Hm2. eauto.
  - apply reduce_scatter_group in Hw1 as (ts & rs & Hc & Hts & Hlen & Hpt).
    destruct (Hpt _ _ _ Hi) as (t & p1 & p2 & r & Hl & Ht & Hg & Hr & Hi1).
    apply local_step_inr in Hl as (sd & lp0 & _ & _ & Hm1 & Ht1).
    destruct (decide (i = c)) as [->|Hne].
    + apply global_step_inr in Hg as (gp0 & md & x & Hcg & _ & Hm2 & Ht2).
      rewrite bool_decide_eq_true_2 by done.
      exists r, (log (Collective "plan" Scatter) p2), sd, lp0, ts, gp0.
      split; [done|]. split.
      * simpl. rewrite Ht2. simpl. rewrite Ht1, Hd, _DistWrapper_init_coordinator.
        rewrite bool_decide_eq_true_2 by done. simpl. by rewrite <- !app_assoc.
      * simpl. rewrite Hm2. eauto.
    + subst p2. rewrite bool_decide_eq_false_2 by done.
      exists r, (log (Collective "plan" Scatter) (log (Collective "plan" Gather) p1)),
        sd, lp0, ts, [].
      split; [done|]. split; [|done].
      simpl. rewrite Ht1, Hd, _DistWrapper_init_coordinator.
      rewrite bool_decide_eq_false_2 by done. simpl. by rewrite <- !app_assoc.
Qed.

Lemma write_phase_rank no_dist c w1 w' i cap central_plan p1 :
  write_phase no_dist c w1 = inr w' →
  w1 !! i = Some ((cap, central_plan), p1) →
  c_distW cap = _DistWrapper_init (negb no_dist) c i →
  ∃ metadata p' flp md0 all_results,
    w' !! i = Some (metadata, p') ∧
    trace p' = trace p1 ++ write_calls (c_distW cap) central_plan flp md0 all_results ∧
    (is_coordinator (c_distW cap) = true → global_metatadata p1 = Some md0).
Proof.
  intros Hw' Hi Hd. unfold write_calls. rewrite Hd.
  rewrite _DistWrapper_init_use_dist, _DistWrapper_init_coordinator.
  unfold write_phase in Hw'. destruct no_dist; cbn [negb] in *.
  - apply all_reduce_solo in Hw' as [_ Hpt].
    destruct (Hpt _ _ _ Hi) as (t & p2 & g & p3 & Hl & Hg & Hi').
    apply write_data_step_inr in Hl as (flp & _ & Hm1 & Ht1).
    apply finish_checkpoint_inr in Hg as (md0 & x & Hm2 & _ & _ & Ht2).
    exists g, p3, flp, md0, [t]. split; [done|]. split.
    + rewrite Ht2, Ht1. by rewrite <- !app_assoc.
    + intros _. congruence.
  - apply all_reduce_group in Hw' as (ts & g & Hc & Hts & Hlen & Hpt).
    destruct (Hpt _ _ _ Hi) as (t & p2 & p3 & Hl & Ht & Hg & Hi').
    apply write_data_step_inr in Hl as (flp & _ & Hm1 & Ht1).
    destruct (decide (i = c)) as [->|Hne].
    + apply finish_checkpoint_inr in Hg as (md0 & x & Hm2 & _ & _ & Ht2).
      rewrite bool_decide_eq_true_2 by done.
      exists g, (log (Collective "write" Broadcast) p3), flp, md0, ts.
      split; [done|]. split.
      * simpl. rewrite Ht2. simpl. rewrite Ht1. by rewrite <- !app_assoc.
      * intros _. simpl in Hm2. congruence.
    + subst p3. rewrite bool_decide_eq_false_2 by done.
      destruct (global_metatadata p1) as [md0|] eqn:Hm.
      * exists g, (log (Collective "write" Broadcast) (log (Collective "write" Gather) p2)),
          flp, md0, ts.
        split; [done|]. split; [|done]. simpl. rewrite Ht1. by rewrite <- !app_assoc.
      * exists g, (log (Collective "write" Broadcast) (log (Collective "write" Gather) p2)),
          flp, g, ts.
        split; [done|]. split; [|done]. simpl. rewrite Ht1. by rewrite <- !app_assoc.
Qed.

(** * Calls in protocol order, in every run *)

Lemma ascending_weaken lo lo' evs : lo' ≤ lo → ascending lo evs → ascending lo' evs.
Proof. destruct evs as [|ev evs]; simpl; [done|]. intros ? [? ?]. split; [lia | done]. Qed.

Lemma between_app lo mid hi evs1 evs2 :
  lo ≤ mid → mid ≤ hi →
  between lo mid evs1 → between mid hi evs2 → between lo hi (evs1 ++ evs2).
Proof.
  intros Hlo Hhi [Ha1 Hf1] [Ha2 Hf2]. split.
  - clear Hf2. revert lo Hlo Ha1. induction Hf1 as [|ev evs1 Hev Hf1 IH]; simpl; intros lo Hlo Ha1.
    + by eapply ascending_weaken.
    + destruct Ha1 as [? Ha1]. split; [done|]. apply IH; [lia | done].
  - apply Forall_app. split; [|done]. eapply Forall_impl; [exact Hf1|]. simpl. lia.
Qed.

Lemma extends_refl lo hi p : extends lo hi p p.
Proof. exists []. rewrite app_nil_r. by repeat split. Qed.

Lemma extends_trans lo mid hi p p1 p2 :
  lo ≤ mid → mid ≤ hi →
  extends lo mid p p1 → extends mid hi p1 p2 → extends lo hi p p2.
Proof.
  intros Hlo Hhi (evs1 & Ht1 & H1) (evs2 & Ht2 & H2).
  exists (evs1 ++ evs2). rewrite Ht2, Ht1, app_assoc. split; [done|].
  by eapply between_app.
Qed.

Lemma extends_weaken lo lo' hi hi' p p' :
  lo' ≤ lo → hi ≤ hi' → extends lo hi p p' → extends lo' hi' p p'.
Proof.
  intros Hlo Hhi (evs & Ht & Ha & Hf). exists evs. split; [done|]. split.
  - by eapply ascending_weaken.
  - eapply Forall_impl; [exact Hf|]. simpl. lia.
Qed.

Lemma extends_log ev p : extends (stage_of ev) (S (stage_of ev)) p (log ev p).
Proof.
  exists [ev]. split; [done|]. split; simpl; [done|]. constructor; [lia|constructor].
Qed.

Lemma runs_between_ret lo hi {A} (a : A) : runs_between lo hi (ret a).
Proof. intros p. apply extends_refl. Qed.

Lemma runs_between_raise lo hi {A} e : runs_between lo hi (raise (A:=A) e).
Proof. intros p. apply extends_refl. Qed.

Lemma runs_between_deref lo hi l : runs_between lo hi (deref l).
Proof. intros p. unfold deref. destruct (dicts p !! l); apply extends_refl. Qed.

Lemma runs_between_set_global_metatadata lo hi v :
  runs_between lo hi (set_global_metatadata v).
Proof. intros p. exists []. simpl. rewrite app_nil_r. by repeat split. Qed.

Lemma runs_between_get_global_metatadata lo hi : runs_between lo hi get_global_metatadata.
Proof. intros p. apply extends_refl. Qed.

Lemma runs_between_emit ev : runs_between (stage_of ev) (S (stage_of ev)) (emit ev).
Proof. intros p. apply extends_log. Qed.

Lemma runs_between_call {A} ev (m : Method A) :
  runs_between (stage_of ev) (S (stage_of ev)) (call ev m).
Proof.
  intros p. unfold call. destruct (m (ext p)) as [r x]. simpl.
  exists [ev]. split; [done|]. split; simpl; [done|]. constructor; [lia|constructor].
Qed.

Lemma runs_between_weaken lo lo' hi hi' {A} (m : M A) :
  lo' ≤ lo → hi ≤ hi' → runs_between lo hi m → runs_between lo' hi' m.
Proof. intros ?? Hm p. by eapply extends_weaken. Qed.

Lemma runs_between_bind lo mid hi {A B} (m : M A) (k : A → M B) :
  lo ≤ mid → mid ≤ hi →
  runs_between lo mid m → (∀ a, runs_between mid hi (k a)) →
  runs_between lo hi (bind m k).
Proof.
  intros Hlo Hhi Hm Hk p. specialize (Hm p). unfold bind.
  destruct (m p) as [[e|a] p1]; simpl in *.
  - by eapply extends_weaken; [| |exact Hm].
  - eapply extends_trans; [exact Hlo|exact Hhi|exact Hm|]. apply Hk.
Qed.

(** One call at position [s], then the rest. *)
Ltac between_step s :=
  eapply (runs_between_bind _ (S s) _);
    [ | | eapply runs_between_weaken;
            [ | | first [apply runs_between_call | apply runs_between_emit]]
        | intros ];
    simpl; try lia.

Lemma local_step_between c : runs_between 1 5 (local_step c).
Proof.
  unfold local_step.
  eapply (runs_between_bind _ 1 _); [lia|lia|apply runs_between_deref|intros sd].
  between_step 1. between_step 2. between_step 3. between_step 4.
  apply runs_between_ret.
Qed.

Lemma global_step_between c ts : runs_between 6 8 (global_step c ts).
Proof.
  unfold global_step. between_step 6. destruct a as [gp md].
  eapply (runs_between_bind _ 7 _);
    [lia|lia|apply runs_between_set_global_metatadata|intros _].
  between_step 7. apply runs_between_ret.
Qed.

Lemma write_data_step_between c cp : runs_between 9 13 (write_data_step c cp).
Proof.
  unfold write_data_step. between_step 9. between_step 10. between_step 11.
  eapply runs_between_weaken; [| |apply runs_between_call]; simpl; lia.
Qed.

Lemma finish_checkpoint_between c results : runs_between 14 15 (finish_checkpoint c results).
Proof.
  unfold finish_checkpoint.
  eapply (runs_between_bind _ 14 _);
    [lia|lia|apply runs_between_get_global_metatadata|intros g].
  destruct g as [md|]; [|apply runs_between_raise].
  between_step 14.
  eapply (runs_between_bind _ 15 _);
    [lia|lia|apply runs_between_set_global_metatadata|intros _].
  apply runs_between_ret.
Qed.

Lemma enter_save_state_dict_between x : runs_between 0 1 (enter_save_state_dict x).
Proof.
  unfold enter_save_state_dict. destruct x as [a d].
  eapply (runs_between_bind _ 1 _); [lia|lia| |intros pl].
  - destruct (planner a); [apply runs_between_ret|].
    eapply runs_between_weaken; [| |apply runs_between_call]; simpl; lia.
  - eapply (runs_between_bind _ 1 _);
      [lia|lia|apply runs_between_set_global_metatadata|intros _].
    apply runs_between_ret.
Qed.

(** The processes after [each], whether it returns or fails: every process
    has run [f]. *)
Lemma each_procs_after {A B} (f : A → M B) w :
  procs_after (each f w) = (fun x => (f x.1 x.2).2) <$> w.
Proof.
  induction w as [|[a p] w IH]; [done|]. cbn [each fmap list_fmap fst snd].
  destruct (f a p) as [[e|b] p1], (each f w) as [[e1 ps]|r]; cbn in *; by f_equal.
Qed.

Lemma each_extends lo hi {A B} (f : A → M B) w :
  (∀ a, runs_between lo hi (f a)) →
  Forall2 (extends lo hi) w.*2 (procs_after (each f w)).
Proof.
  intros Hf. rewrite each_procs_after. apply Forall2_fmap.
  apply Forall_Forall2_diag. apply Forall_forall. intros [a p] _. apply Hf.
Qed.

Lemma at_rank_extends lo hi {A B} c (f : A → M B) w :
  (∀ a, runs_between lo hi (f a)) →
  Forall2 (extends lo hi) w.*2
    match at_rank c f w with inl (_, ps) => ps | inr (_, w2) => w2.*2 end.
Proof.
  intros Hf. unfold at_rank.
  assert (Forall2 (extends lo hi) w.*2 w.*2) as Hrefl.
  { apply Forall_Forall2_diag, Forall_forall. intros ? _. apply extends_refl. }
  destruct (w !! c) as [[a p]|] eqn:Hc; [|done].
  pose proof (Hf a p) as Hp.
  assert (<[c:=p]> w.*2 = w.*2) as Hid.
  { apply list_insert_id. by rewrite list_lookup_fmap, Hc. }
  destruct (f a p) as [[e|b] p1]; rewrite list_fmap_insert; simpl in *;
    rewrite <- Hid at 1; by apply Forall2_insert.
Qed.

Lemma extends_list_trans lo mid hi ps ps1 ps2 :
  lo ≤ mid → mid ≤ hi →
  Forall2 (extends lo mid) ps ps1 → Forall2 (extends mid hi) ps1 ps2 →
  Forall2 (extends lo hi) ps ps2.
Proof.
  intros Hlo Hhi H1. revert ps2. induction H1 as [|p p1 ps ps1 Hp _ IH]; intros ps2 H2.
  - apply Forall2_nil_inv_l in H2 as ->. constructor.
  - apply Forall2_cons_inv_l in H2 as (p2 & ps2' & Hp2 & H2 & ->).
    constructor; [by eapply extends_trans | by apply IH].
Qed.

Lemma extends_list_weaken lo lo' hi hi' ps ps' :
  lo' ≤ lo → hi ≤ hi' →
  Forall2 (extends lo hi) ps ps' → Forall2 (extends lo' hi') ps ps'.
Proof. intros ?? H. eapply Forall2_impl; [exact H|]. intros. by eapply extends_weaken. Qed.

Lemma zip_procs {A T R} (w : World (A * T)) (rs : list R) :
  length w ≤ length rs →
  (zip_with (fun '((a, _), p) r => ((a, r), p)) w rs).*2 = w.*2.
Proof.
  revert rs. induction w as [|[[a t] p] w IH]; intros [|r rs] Hlen; simpl in *;
    try done; try lia.
  f_equal. apply IH. lia.
Qed.

Section CollectiveOrder.
Context {A T : Type} (lo sg sd ss : nat) (tag : string) (local : A → M T).
Hypothesis Hlo : lo ≤ sg.
Hypothesis Hsd : sg < sd.
Hypothesis Hss : sd ≤ ss.
Hypothesis Hlocal : ∀ a, runs_between lo sg (local a).
Hypothesis Hgather : stage_of (Collective tag Gather) = sg.

Lemma gathered_between a : runs_between lo (S sg) (gathered tag local a).
Proof.
  unfold gathered.
  eapply (runs_between_bind _ sg _); [lia|lia|apply Hlocal|intros t].
  eapply (runs_between_bind _ (S sg) _); [lia|lia| |intros; apply runs_between_ret].
  rewrite <- Hgather. apply runs_between_emit.
Qed.

Lemma reduce_scatter_extends {R} u c (global : A → list T → M (list R)) w :
  (∀ a ts, runs_between sd ss (global a ts)) →
  stage_of (Collective tag Scatter) = ss →
  Forall2 (extends lo (S ss)) w.*2
    (procs_after (reduce_scatter u c tag local global w)).
Proof.
  intros Hglobal Hscatter. unfold reduce_scatter. destruct u.
  - pose proof (each_extends lo (S sg) (gathered tag local) w gathered_between) as H1.
    destruct (each (gathered tag local) w) as [[e ps]|w1]; simpl in H1.
    { eapply extends_list_weaken; [| |exact H1]; lia. }
    pose proof (at_rank_extends sd ss c (fun '(a, _) => global a (w1.*1.*2)) w1) as H2.
    destruct (at_rank c _ w1) as [[e ps]|[rs w2]]; simpl.
    { eapply (extends_list_trans lo sd (S ss)); [lia|lia| |].
      - eapply extends_list_weaken; [| |exact H1]; lia.
      - eapply extends_list_weaken; [| |apply H2]; [lia|lia|].
        intros [a t]. apply Hglobal. }
    assert (Forall2 (extends lo ss) w.*2 w2.*2) as H12.
    { eapply (extends_list_trans lo sd ss); [lia|lia| |].
      - eapply extends_list_weaken; [| |exact H1]; lia.
      - apply H2. intros [a t]. apply Hglobal. }
    destruct (decide _) as [Hlen|]; simpl.
    + eapply (extends_list_trans lo ss (S ss)); [lia|lia|exact H12|].
      rewrite <- (zip_procs w2 rs) at 1 by done.
      apply each_extends. intros x. unfold received.
      eapply (runs_between_bind _ (S ss) _); [lia|lia| |intros; apply runs_between_ret].
      rewrite <- Hscatter. apply runs_between_emit.
    + eapply extends_list_weaken; [| |exact H12]; lia.
  - apply each_extends. intros a.
    eapply (runs_between_bind _ sd _); [lia|lia| |intros t].
    { eapply runs_between_weaken; [| |apply Hlocal]; lia. }
    eapply (runs_between_bind _ ss _); [lia|lia|apply Hglobal|intros rs].
    destruct rs; [apply runs_between_raise | apply runs_between_ret].
Qed.

Lemma all_reduce_extends {G} u c (global : A → list T → M G) w :
  (∀ a ts, runs_between sd ss (global a ts)) →
  stage_of (Collective tag Broadcast) = ss →
  Forall2 (extends lo (S ss)) w.*2
    (procs_after (all_reduce u c tag local global w)).
Proof.
  intros Hglobal Hbroadcast. unfold all_reduce. destruct u.
  - pose proof (each_extends lo (S sg) (gathered tag local) w gathered_between) as H1.
    destruct (each (gathered tag local) w) as [[e ps]|w1]; simpl in H1.
    { eapply extends_list_weaken; [| |exact H1]; lia. }
    pose proof (at_rank_extends sd ss c (fun '(a, _) => global a (w1.*1.*2)) w1) as H2.
    destruct (at_rank c _ w1) as [[e ps]|[g w2]]; simpl.
    { eapply (extends_list_trans lo sd (S ss)); [lia|lia| |].
      - eapply extends_list_weaken; [| |exact H1]; lia.
      - eapply extends_list_weaken; [| |apply H2]; [lia|lia|].
        intros [a t]. apply Hglobal. }
    assert (Forall2 (extends lo ss) w.*2 w2.*2) as H12.
    { eapply (extends_list_trans lo sd ss); [lia|lia| |].
      - eapply extends_list_weaken; [| |exact H1]; lia.
      - apply H2. intros [a t]. apply Hglobal. }
    eapply (extends_list_trans lo ss (S ss)); [lia|lia|exact H12|].
    apply each_extends. intros [a t].
    eapply (runs_between_bind _ (S ss) _); [lia|lia| |intros; apply runs_between_ret].
    rewrite <- Hbroadcast. apply runs_between_emit.
  - apply each_extends. intros a.
    eapply (runs_between_bind _ sd _); [lia|lia| |intros t].
    { eapply runs_between_weaken; [| |apply Hlocal]; lia. }
    eapply runs_between_weaken; [| |apply Hglobal]; lia.
Qed.

End CollectiveOrder.

Lemma with_distW_procs {A} u c (w : World A) : (with_distW u c w).*2 = w.*2.
Proof.
  unfold with_distW. apply list_eq. intros i.
  rewrite !list_lookup_fmap, list_lookup_imap. by destruct (w !! i) as [[a p]|].
Qed.

Lemma waiting_between lo sg {A T} (tag : string) (local : A → M T) a :
  lo ≤ sg → (∀ a, runs_between lo sg (local a)) →
  stage_of (Collective tag Gather) = sg →
  runs_between lo (S sg) (waiting tag local a).
Proof.
  intros Hlo Hlocal Hsg. unfold waiting.
  eapply (runs_between_bind _ (S sg) _); [lia|lia| |intros; apply runs_between_ret].
  by apply (gathered_between lo sg (S sg) (S sg) tag local); try lia.
Qed.

Lemma until_collective_blocked_extends lo mid hi {A B X} (own : A → M B)
    (blocked : B → M unit) (together : World B → Outcome (World X)) w e ps :
  lo ≤ mid → mid ≤ hi →
  (∀ a, runs_between lo mid (own a)) →
  (∀ b, runs_between mid hi (blocked b)) →
  each own w = inl (e, ps) →
  Forall2 (extends lo hi) w.*2 (procs_after (until_collective own blocked together w)).
Proof.
  intros Hlo Hhi Hown Hblocked Heach. unfold until_collective. rewrite Heach. simpl.
  apply Forall2_fmap, Forall_Forall2_diag, Forall_forall. intros [a p] _. simpl.
  specialize (Hown a p). destruct (own a p) as [[e'|b] p1]; simpl in *.
  - eapply extends_weaken; [| |exact Hown]; lia.
  - eapply extends_trans; [exact Hlo|exact Hhi|exact Hown|apply Hblocked].
Qed.

Lemma until_collective_extends lo mid hi {A B X} (own : A → M B) (blocked : B → M unit)
    (together : World B → Outcome (World X)) w :
  lo ≤ mid → mid ≤ hi →
  (∀ a, runs_between lo mid (own a)) →
  (∀ b, runs_between mid hi (blocked b)) →
  (∀ w1, Forall2 (extends mid hi) w1.*2 (procs_after (together w1))) →
  Forall2 (extends lo hi) w.*2 (procs_after (until_collective own blocked together w)).
Proof.
  intros Hlo Hhi Hown Hblocked Htogether.
  destruct (each own w) as [[e ps]|w1] eqn:Heach.
  - by eapply until_collective_blocked_extends.
  - pose proof (each_extends lo mid own w Hown) as H1.
    unfold until_collective. rewrite Heach in H1 |- *. simpl in H1.
    eapply extends_list_trans; [exact Hlo|exact Hhi|exact H1|apply Htogether].
Qed.

Lemma phases_extends no_dist c w0 :
  Forall2 (extends 1 16) w0.*2
    (procs_after (w1 <-- plan_phase no_dist c w0 ;; write_phase no_dist c w1)).
Proof.
  pose proof (reduce_scatter_extends 1 5 6 8 "plan" local_step
                ltac:(lia) ltac:(lia) ltac:(lia) local_step_between eq_refl
                (negb no_dist) c global_step w0
                (fun a ts => global_step_between a ts) eq_refl) as H1.
  unfold plan_phase.
  destruct (reduce_scatter _ _ _ _ _ w0) as [[e ps]|w1]; simpl in *.
  { eapply extends_list_weaken; [| |exact H1]; lia. }
  unfold write_phase.
  eapply (extends_list_trans 1 9 16); [lia|lia|exact H1|].
  apply (all_reduce_extends 9 13 14 15 "write"); try lia; try done.
  - intros [cap cp]. apply write_data_step_between.
  - intros [cap cp] ts. apply finish_checkpoint_between.
Qed.

Lemma _save_state_dict_group_extends c no_dist w :
  Forall2 (extends 0 16) w.*2 (procs_after (_save_state_dict_group ret c no_dist w)).
Proof.
  unfold _save_state_dict_group.
  rewrite <- (with_distW_procs (negb no_dist) c w) at 1.
  apply (until_collective_extends 0 1 16); [lia|lia| | |].
  - intros [a d]. apply (enter_save_state_dict_between (a, d)).
  - intros cap. destruct (use_dist _); [|apply runs_between_ret].
    eapply runs_between_weaken;
      [| |apply (waiting_between 1 5 "plan" local_step);
          [lia|apply local_step_between|done]]; lia.
  - intros w0. apply phases_extends.
Qed.

Lemma separately_procs {A X} (run : World A → Outcome (World X)) (R : Proc → Proc → Prop) w :
  (∀ x, Forall2 R [x].*2 (procs_after (run [x]))) →
  Forall2 R w.*2 (procs_after (separately run w)).
Proof.
  intros Hrun. induction w as [|x w IH]; [constructor|].
  specialize (Hrun x). cbn [separately]. rewrite fmap_cons.
  change (x.2 :: w.*2) with ([x.2] ++ w.*2).
  destruct (run [x]) as [[e ps]|r], (separately run w) as [[e' ps']|r'];
    cbn [procs_after] in *; rewrite ?fmap_app; by apply Forall2_app.
Qed.

Lemma _save_state_dict_extends c no_dist w :
  Forall2 (extends 0 16) w.*2 (procs_after (_save_state_dict c no_dist w)).
Proof.
  unfold _save_state_dict, _save_state_dict_after. destruct no_dist.
  - apply separately_procs. intros x. apply _save_state_dict_group_extends.
  - apply _save_state_dict_group_extends.
Qed.

Lemma Forall2_with_distW {A} (P : A * Proc → Proc → Prop) u c
    (f : (A * _DistWrapper) * Proc → Proc) (w : World A) :
  (∀ i a p, w !! i = Some (a, p) → P (a, p) (f ((a, _DistWrapper_init u c i), p))) →
  Forall2 P w (f <$> with_distW u c w).
Proof.
  intros Hf. apply Forall2_same_length_lookup_2.
  { by rewrite length_fmap, with_distW_length. }
  intros i [a p] q Hi Hq. rewrite list_lookup_fmap in Hq.
  rewrite (with_distW_lookup u c _ _ _ _ Hi) in Hq. injection Hq as <-. by apply Hf.
Qed.

(** What the run of a group leaves on a rank: the state after its [enter],
    followed by calls of the protocol of [_save_state_dict]. *)
Lemma _save_state_dict_group_procs {K} (enter : K → M SaveArgs) c no_dist w :
  Forall2 (fun x p' => extends 0 16 (enter x.1 x.2).2 p') w
    (procs_after (_save_state_dict_group enter c no_dist w)).
Proof.
  unfold _save_state_dict_group, until_collective.
  destruct (each _ (with_distW (negb no_dist) c w)) as [[e ps]|w0] eqn:Heach.
  - cbn [procs_after]. apply Forall2_with_distW. intros i k p Hi. cbn [fst snd].
    unfold bind. destruct (enter k p) as [[e1|a] p1]; [apply extends_refl|].
    pose proof (enter_save_state_dict_between
                  (a, _DistWrapper_init (negb no_dist) c i) p1) as H0.
    destruct (enter_save_state_dict _ p1) as [[e1|cap] p2]; simpl in *.
    { eapply extends_weaken; [| |exact H0]; lia. }
    eapply (extends_trans 0 1 16); [lia|lia|exact H0|].
    destruct (use_dist _); [|apply extends_refl].
    eapply runs_between_weaken;
      [| |apply (waiting_between 1 5 "plan" local_step);
          [lia|apply local_step_between|done]]; lia.
  - apply each_with_distW_inr in Heach as (wa & Hwa & Hw0).
    pose proof (each_procs_after enter w) as Hps. rewrite Hwa in Hps. simpl in Hps.
    pose proof (each_extends 0 1 enter_save_state_dict (with_distW (negb no_dist) c wa)
                  enter_save_state_dict_between) as H0.
    rewrite with_distW_procs, Hw0 in H0. simpl in H0.
    pose proof (phases_extends no_dist c w0) as H1.
    assert (Forall2 (extends 0 16) wa.*2
              (procs_after (w1 <-- plan_phase no_dist c w0 ;; write_phase no_dist c w1)))
      as H01.
    { eapply (extends_list_trans 0 1 16); [lia|lia|exact H0|exact H1]. }
    rewrite Hps in H01. by rewrite Forall2_fmap_l in H01.
Qed.

Lemma _save_state_dict_after_procs {K} (enter : K → M SaveArgs) c no_dist w :
  Forall2 (fun x p' => extends 0 16 (enter x.1 x.2).2 p') w
    (procs_after (_save_state_dict_after enter c no_dist w)).
Proof.
  unfold _save_state_dict_after. destruct no_dist; [|apply _save_state_dict_group_procs].
  induction w as [|x w IH]; [constructor|]. cbn [separately].
  pose proof (_save_state_dict_group_procs enter c true [x]) as Hx.
  change (x :: w) with ([x] ++ w).
  destruct (_save_state_dict_group enter c true [x]) as [[e ps]|r],
           (separately _ w) as [[e' ps']|r'];
    cbn [procs_after] in *; rewrite ?fmap_app; by apply Forall2_app.
Qed.


(** With a backend, a run of [_save_state_dict] either gets every rank
    through the first part and is then the two phases, or leaves every rank
    no further than the gather of the plan phase. *)
Lemma _save_state_dict_dist_cases c w :
  (∃ w0, each enter_save_state_dict (with_distW true c w) = inr w0 ∧
         _save_state_dict c false w
         = (w1 <-- plan_phase false c w0 ;; write_phase false c w1)) ∨
  Forall2 (extends 0 6) w.*2 (procs_after (_save_state_dict c false w)).
Proof.
  unfold _save_state_dict, _save_state_dict_after, _save_state_dict_group. cbn [negb].
  set (own := fun '(k, distW) => a <- ret k ;; enter_save_state_dict (a, distW)).
  assert (each own (with_distW true c w)
          = each enter_save_state_dict (with_distW true c w)) as Hown.
  { apply each_ext. by intros [k d] p. }
  destruct (each own (with_distW true c w)) as [[e ps]|w0] eqn:Heach.
  - right. rewrite <- (with_distW_procs true c w) at 1.
    eapply (until_collective_blocked_extends 0 1 6); [lia|lia| | |exact Heach].
    + intros [a d]. apply (enter_save_state_dict_between (a, d)).
    + intros cap. destruct (use_dist _); [|apply runs_between_ret].
      apply (waiting_between 1 5 "plan" local_step); [lia|apply local_step_between|done].
  - left. exists w0. split; [done|]. unfold until_collective. by rewrite Heach.
Qed.

Lemma local_step_hooks c p lp p' :
  local_step c p = (inr lp, p') →
  ∃ sd lp0,
    dicts p !! c_state_dict c = Some sd ∧
    local_hooks c sd lp0 lp (ext p) (ext p') ∧
    dicts p' = dicts p ∧
    global_metatadata p' = global_metatadata p ∧
    trace p' = trace p ++
      [Call_set_up_planner sd (is_coordinator (c_distW c));
       Call_set_up_storage_writer (is_coordinator (c_distW c));
       Call_create_local_plan; Call_prepare_local_plan lp0].
Proof.
  unfold local_step, local_hooks. intros Hrun. run_inv. simpl in *.
  repeat match goal with u : unit |- _ => destruct u end.
  eexists _, _. split; [done|]. split; [eauto 10|].
  split; [done|]. split; [done|]. by rewrite <- !app_assoc.
Qed.

Lemma global_step_hooks c lps p gp p' :
  global_step c lps p = (inr gp, p') →
  ∃ gp0,
    global_hooks c lps gp0 (global_metatadata p') gp (ext p) (ext p') ∧
    dicts p' = dicts p ∧
    trace p' = trace p ++ [Call_create_global_plan lps; Call_prepare_global_plan gp0].
Proof.
  unfold global_step, global_hooks. intros Hrun. run_inv.
  match goal with x : (list SavePlan * option Metadata)%type |- _ => destruct x as [gp0 md] end.
  run_inv. simpl in *. exists gp0. split; [eauto|]. split; [done|].
  by rewrite <- !app_assoc.
Qed.

Lemma write_data_step_hooks c cp p results p' :
  write_data_step c cp p = (inr results, p') →
  ∃ flp,
    write_hooks c cp flp results (ext p) (ext p') ∧
    dicts p' = dicts p ∧
    global_metatadata p' = global_metatadata p ∧
    trace p' = trace p ++
      [Call_finish_plan cp; Call_write_data flp; Call_wait; Call_value].
Proof.
  unfold write_data_step, write_hooks. intros Hrun. run_inv. simpl in *.
  repeat match goal with u : unit |- _ => destruct u end.
  eexists. split; [eauto 10|]. split; [done|]. split; [done|].
  by rewrite <- !app_assoc.
Qed.

Lemma finish_checkpoint_hooks c all_results p metadata p' :
  finish_checkpoint c all_results p = (inr metadata, p') →
  ∃ md0,
    global_metatadata p = Some md0 ∧
    finish_hook c md0 all_results metadata (ext p) (ext p') ∧
    trace p' = trace p ++ [Call_finish md0 all_results].
Proof.
  unfold finish_checkpoint, finish_hook. intros Hrun. run_inv.
  destruct (global_metatadata p) as [md0|] eqn:Hg; [|done].
  run_inv. simpl. eauto.
Qed.

Lemma plan_phase_hooks no_dist c w0 w1 i cap p :
  plan_phase no_dist c w0 = inr w1 →
  w0 !! i = Some (cap, p) →
  c_distW cap = _DistWrapper_init (negb no_dist) c i →
  ∃ central_plan p1 sd lp0 lp pl lps gp0,
    w1 !! i = Some ((cap, central_plan), p1) ∧
    dicts p !! c_state_dict cap = Some sd ∧
    local_hooks cap sd lp0 lp (ext p) (ext pl) ∧
    gathered_values no_dist local_step w0 i lps ∧
    (if is_coordinator (c_distW cap)
     then ∃ gp, global_hooks cap lps gp0 (global_metatadata p1) gp (ext pl) (ext p1)
     else ext p1 = ext pl ∧ global_metatadata p1 = global_metatadata p) ∧
    trace p1 = trace p ++ plan_calls (c_distW cap) sd lp0 lps gp0.
Proof.
  intros Hw1 Hi Hd. unfold plan_calls, gathered_values. rewrite Hd.
  rewrite _DistWrapper_init_use_dist, _DistWrapper_init_coordinator.
  unfold plan_phase in Hw1. destruct no_dist; cbn [negb] in *.
  - apply reduce_scatter_solo in Hw1 as [_ Hpt].
    destruct (Hpt _ _ _ Hi) as (t & p1 & rs & p2 & r & Hl & Hg & _ & Hi1).
    pose proof Hl as Hl'.
    apply local_step_hooks in Hl as (sd & lp0 & Hsd & Hlh & _ & _ & Ht1).
    apply global_step_hooks in Hg as (gp0 & Hgh & _ & Ht2).
    exists r, p2, sd, lp0, t, p1, [t], gp0.
    split; [done|]. split; [done|]. split; [done|]. split; [eauto 10|]. split; [eauto|].
    rewrite Ht2, Ht1, Hd, _DistWrapper_init_coordinator. simpl.
    by rewrite <- !app_assoc.
  - apply reduce_scatter_group in Hw1 as (ts & rs & Hc & Hts & Hlen & Hpt).
    destruct (Hpt _ _ _ Hi) as (t & p1 & p2 & r & Hl & Ht & Hg & Hr & Hi1).
    apply local_step_hooks in Hl as (sd & lp0 & Hsd & Hlh & _ & Hm1 & Ht1).
    assert (length ts = length w0 ∧
            ∀ j a q, w0 !! j = Some (a, q) →
              ∃ t' q', local_step a q = (inr t', q') ∧ ts !! j = Some t') as Hgv.
    { split; [done|]. intros j a q Hj.
      destruct (Hpt _ _ _ Hj) as (t' & q1 & _ & _ & Hl' & Ht' & _). eauto. }
    destruct (decide (i = c)) as [->|Hne].
    + apply global_step_hooks in Hg as (gp0 & Hgh & _ & Ht2).
      rewrite bool_decide_eq_true_2 by done.
      exists r, (log (Collective "plan" Scatter) p2), sd, lp0, t, p1, ts, gp0.
      split; [done|]. split; [done|]. split; [done|]. split; [done|].
      split; [simpl in *; eauto|].
      simpl. rewrite Ht2. simpl. rewrite Ht1, Hd, _DistWrapper_init_coordinator.
      rewrite bool_decide_eq_true_2 by done. simpl. by rewrite <- !app_assoc.
    + subst p2. rewrite bool_decide_eq_false_2 by done.
      exists r, (log (Collective "plan" Scatter) (log (Collective "plan" Gather) p1)),
        sd, lp0, t, p1, ts, [].
      split; [done|]. split; [done|]. split; [done|]. split; [done|].
      split; [done|].
      simpl. rewrite Ht1, Hd, _DistWrapper_init_coordinator.
      rewrite bool_decide_eq_false_2 by done. simpl. by rewrite <- !app_assoc.
Qed.

Lemma write_phase_hooks no_dist c w1 w' i cap central_plan p1 :
  write_phase no_dist c w1 = inr w' →
  w1 !! i = Some ((cap, central_plan), p1) →
  c_distW cap = _DistWrapper_init (negb no_dist) c i →
  ∃ metadata p' flp results pw md0 all_results,
    w' !! i = Some (metadata, p') ∧
    write_data_step cap central_plan p1 = (inr results, pw) ∧
    write_hooks cap central_plan flp results (ext p1) (ext pw) ∧
    gathered_values no_dist (fun '(cap, cp) => write_data_step cap cp) w1 i all_results ∧
    (if is_coordinator (c_distW cap)
     then global_metatadata p1 = Some md0 ∧
          finish_hook cap md0 all_results metadata (ext pw) (ext p') ∧
          ∃ pf, finish_checkpoint cap all_results
                  (if no_dist then pw else log (Collective "write" Gather) pw)
                = (inr metadata, pf) ∧
                p' = (if no_dist then pf else log (Collective "write" Broadcast) pf)
     else ext p' = ext pw) ∧
    trace p' = trace p1 ++ write_calls (c_distW cap) central_plan flp md0 all_results.
Proof.
  intros Hw' Hi Hd. unfold write_calls, gathered_values. rewrite Hd.
  rewrite _DistWrapper_init_use_dist, _DistWrapper_init_coordinator.
  unfold write_phase in Hw'. destruct no_dist; cbn [negb] in *.
  - apply all_reduce_solo in Hw' as [_ Hpt].
    destruct (Hpt _ _ _ Hi) as (t & p2 & g & p3 & Hl & Hg & Hi').
    pose proof Hl as Hl'. pose proof Hg as Hg'.
    apply write_data_step_hooks in Hl as (flp & Hwh & _ & Hm1 & Ht1).
    apply finish_checkpoint_hooks in Hg as (md0 & Hm2 & Hfh & Ht2).
    exists g, p3, flp, t, p2, md0, [t].
    split; [done|]. split; [done|]. split; [done|]. split; [eauto 10|].
    split; [split; [congruence|split; [done|eauto]]|].
    rewrite Ht2, Ht1. by rewrite <- !app_assoc.
  - apply all_reduce_group in Hw' as (ts & g & Hc & Hts & Hlen & Hpt).
    destruct (Hpt _ _ _ Hi) as (t & p2 & p3 & Hl & Ht & Hg & Hi').
    pose proof Hl as Hl'.
    apply write_data_step_hooks in Hl as (flp & Hwh & _ & Hm1 & Ht1).
    assert (length ts = length w1 ∧
            ∀ j a q, w1 !! j = Some (a, q) →
              ∃ t' q', (let '(cap, cp) := a in write_data_step cap cp) q = (inr t', q') ∧
                       ts !! j = Some t') as Hgv.
    { split; [done|]. intros j a q Hj.
      destruct (Hpt _ _ _ Hj) as (t' & q1 & _ & Hl'' & Ht' & _). eauto. }
    destruct (decide (i = c)) as [->|Hne].
    + pose proof Hg as Hg'.
      apply finish_checkpoint_hooks in Hg as (md0 & Hm2 & Hfh & Ht2).
      rewrite bool_decide_eq_true_2 by done.
      exists g, (log (Collective "write" Broadcast) p3), flp, t, p2, md0, ts.
      split; [done|]. split; [done|]. split; [done|]. split; [done|].
      split.
      * split; [simpl in Hm2; congruence|]. split; [done|]. eauto.
      * simpl. rewrite Ht2. simpl. rewrite Ht1. by rewrite <- !app_assoc.
    + subst p3. rewrite bool_decide_eq_false_2 by done.
      destruct (global_metatadata p1) as [md0|] eqn:Hm.
      * exists g, (log (Collective "write" Broadcast) (log (Collective "write" Gather) p2)),
          flp, t, p2, md0, ts.
        split; [done|]. split; [done|]. split; [done|]. split; [done|].
        split; [done|]. simpl. rewrite Ht1. by rewrite <- !app_assoc.
      * exists g, (log (Collective "write" Broadcast) (log (Collective "write" Gather) p2)),
          flp, t, p2, g, ts.
        split; [done|]. split; [done|]. split; [done|]. split; [done|].
        split; [done|]. simpl. rewrite Ht1. by rewrite <- !app_assoc.
Qed.

(** C3 (order of the planner and writer calls).  In every run of
    [_save_state_dict], whether it returns or fails, every rank makes its
    calls in the order of the protocol and none of them twice:
    [set_up_planner], [set_up_storage_writer], [create_local_plan],
    [prepare_local_plan], [create_global_plan], [prepare_global_plan],
    [finish_plan], [write_data], [wait], [value], [finish].  In a run that
    returns, the log of every rank grows by exactly: the construction of the
    default planner when none was given; the four calls of the local step;
    on the coordinator only [create_global_plan] and [prepare_global_plan];
    then [finish_plan], [write_data], [wait], [value]; and on the coordinator
    only [finish] (the collective steps in between are logged when a
    communication backend is used).  The hooks are those of the rank's own
    writer and planner, each runs on the external state the one before it
    left, and their arguments are the values of the run: [set_up_planner]
    gets the state dict as stored, [prepare_local_plan] the plan
    [create_local_plan] returned, [create_global_plan] the local plans of
    the ranks in rank order, [prepare_global_plan] the plans
    [create_global_plan] returned, [finish_plan] the plan the plan phase
    assigned to the rank, [write_data] the plan [finish_plan] returned, and
    [finish] the metadata [create_global_plan] returned (held in
    [global_metatadata]) and the write results of the ranks in rank order. *)
Theorem hook_order (c : nat) (no_dist : bool) w :
  Forall2 (extends 0 16) w.*2 (procs_after (_save_state_dict c no_dist w)) ∧
  ∀ w',
    _save_state_dict c no_dist w = inr w' →
    ∃ w0 w1,
      each enter_save_state_dict (with_distW (negb no_dist) c w) = inr w0 ∧
      plan_phase no_dist c w0 = inr w1 ∧
      write_phase no_dist c w1 = inr w' ∧
      ∀ i a p, w !! i = Some (a, p) →
        let distW := _DistWrapper_init (negb no_dist) c i in
        ∃ cap p0 central_plan p1 metadata p' sd lp0 lp pl lps gp0 flp results pw md0
          all_results,
          w0 !! i = Some (cap, p0) ∧
          w1 !! i = Some ((cap, central_plan), p1) ∧
          w' !! i = Some (metadata, p') ∧
          c_storage_writer cap = storage_writer a ∧
          (∀ given, planner a = Some given → c_planner cap = given) ∧
          c_distW cap = distW ∧
          dicts p !! state_dict a = Some sd ∧
          local_hooks cap sd lp0 lp (ext p0) (ext pl) ∧
          gathered_values no_dist local_step w0 i lps ∧
          (is_coordinator distW = true →
           ∃ gp, global_hooks cap lps gp0 (Some md0) gp (ext pl) (ext p1)) ∧
          (is_coordinator distW = false → ext p1 = ext pl) ∧
          write_hooks cap central_plan flp results (ext p1) (ext pw) ∧
          gathered_values no_dist (fun '(cap, cp) => write_data_step cap cp) w1 i
            all_results ∧
          (is_coordinator distW = true →
           global_metatadata p1 = Some md0 ∧
           finish_hook cap md0 all_results metadata (ext pw) (ext p')) ∧
          (is_coordinator distW = false → ext p' = ext pw) ∧
          trace p' = trace p ++ default_planner_calls a ++
                     plan_calls distW sd lp0 lps gp0 ++
                     write_calls distW central_plan flp md0 all_results.
Proof.
  split; [apply _save_state_dict_extends|].
  intros w' Hrun. apply _save_state_dict_inr in Hrun as (w0 & w1 & Hw0 & Hw1 & Hw').
  exists w0, w1. repeat split; [done..|].
  intros i a p Hi distW.
  pose proof (with_distW_lookup (negb no_dist) c _ _ _ _ Hi) as Hi0.
  destruct (each_lookup _ _ _ _ _ _ Hw0 Hi0) as (cap & p0 & Hent & Hi0').
  apply enter_save_state_dict_inr in Hent as (Hcsd & Hcsw & Hd & Hpl & Hd0).
  destruct (plan_phase_hooks _ _ _ _ _ _ _ Hw1 Hi0' Hd)
    as (cp & p1 & sd & lp0 & lp & pl & lps & gp0 & Hi1 & Hsd & Hlh & Hlps & Hglob & Ht1).
  destruct (write_phase_hooks _ _ _ _ _ _ _ _ Hw' Hi1 Hd)
    as (md & p' & flp & results & pw & md0 & res & Hi' & _ & Hwh & Hres & Hfin & Ht').
  exists cap, p0, cp, p1, md, p', sd, lp0, lp, pl, lps, gp0, flp, results, pw, md0, res.
  rewrite Hd in *. fold distW in Hglob, Hfin |- *.
  split; [done|]. split; [done|]. split; [done|]. split; [done|].
  split. { intros given Hgiven. rewrite Hgiven in Hpl. by destruct Hpl. }
  split; [done|].
  split. { by rewrite <- Hd0, <- Hcsd. }
  split; [done|]. split; [done|].
  destruct (is_coordinator distW) eqn:Hco.
  - destruct Hglob as [gp Hgh]. destruct Hfin as (Hmd & Hfh & _).
    split. { intros _. exists gp. by rewrite <- Hmd. }
    split; [done|]. split; [done|]. split; [done|]. split; [done|]. split; [done|].
    rewrite Ht', Ht1. unfold default_planner_calls.
    destruct (planner a) as [given|].
    + destruct Hpl as (_ & _ & ->). by rewrite <- !app_assoc.
    + destruct Hpl as (_ & ->). by rewrite <- !app_assoc.
  - destruct Hglob as [Hx1 _].
    split; [done|]. split; [done|]. split; [done|]. split; [done|]. split; [done|].
    split; [done|].
    rewrite Ht', Ht1. unfold default_planner_calls.
    destruct (planner a) as [given|].
    + destruct Hpl as (_ & _ & ->). by rewrite <- !app_assoc.
    + destruct Hpl as (_ & ->). by rewrite <- !app_assoc.
Qed.

(** * The write phase *)

(** C1 (rank consistency).  With a communication backend and any number of
    participants (and likewise for the single participant that runs without
    one), a run of [_save_state_dict] that returns gives every rank the same
    metadata, and that metadata is the value [finish_checkpoint] computed on
    the coordinator in this run: [finish_checkpoint] ran once, on the
    coordinator, in the state in which the coordinator's own write (and the
    gather of the results) left it, on the write results of all ranks in
    rank order, and what it returned is what the coordinator and every other
    rank return. *)
Theorem all_ranks_same_metadata (c : nat) (no_dist : bool) w w' :
  _save_state_dict c no_dist w = inr w' →
  no_dist = false ∨ length w = 1 →
  ∃ w0 w1 capc central_plan p1 results pw all_results metadata pf,
    each enter_save_state_dict (with_distW (negb no_dist) c w) = inr w0 ∧
    plan_phase no_dist c w0 = inr w1 ∧
    w1 !! (if no_dist then 0 else c) = Some ((capc, central_plan), p1) ∧
    is_coordinator (c_distW capc) = true ∧
    write_data_step capc central_plan p1 = (inr results, pw) ∧
    length all_results = length w ∧
    (∀ i cap cp q, w1 !! i = Some ((cap, cp), q) →
       ∃ r q', write_data_step cap cp q = (inr r, q') ∧ all_results !! i = Some r) ∧
    finish_checkpoint capc all_results
      (if no_dist then pw else log (Collective "write" Gather) pw)
    = (inr metadata, pf) ∧
    w' !! (if no_dist then 0 else c)
    = Some (metadata, if no_dist then pf else log (Collective "write" Broadcast) pf) ∧
    1 ≤ length w ∧
    w'.*1 = replicate (length w) metadata.
Proof.
  intros Hrun Hmode. apply _save_state_dict_inr in Hrun as (w0 & w1 & Hw0 & Hw1 & Hw').
  assert (length w0 = length w) as Hl0.
  { erewrite each_length by done. apply with_distW_length. }
  assert (∀ i cap p, w0 !! i = Some (cap, p) →
            c_distW cap = _DistWrapper_init (negb no_dist) c i) as Hd0.
  { intros i cap p Hi.
    apply each_inr in Hw0.
    destruct (Forall2_lookup_r _ _ _ _ _ Hw0 Hi) as ([[a d] p0] & Hi0 & Hrun).
    unfold runs_to in Hrun. simpl in Hrun.
    apply enter_save_state_dict_inr in Hrun as (_ & _ & -> & _).
    unfold with_distW in Hi0. rewrite list_lookup_imap in Hi0.
    destruct (w !! i) as [[a' p']|]; simpl in Hi0; [|done]. by injection Hi0 as _ <- _. }
  exists w0, w1. pose proof Hw1 as Hplan. pose proof Hw' as Hwrite.
  unfold plan_phase in Hw1. unfold write_phase in Hw'.
  destruct no_dist; cbn [negb] in *.
  - destruct Hmode as [|Hlen]; [done|].
    apply reduce_scatter_solo in Hw1 as [Hl1 Hpt1].
    apply all_reduce_solo in Hw' as [Hl' Hpt'].
    destruct w0 as [|[cap p0] [|]]; simpl in Hl0; try lia.
    destruct (Hpt1 0 _ _ eq_refl) as (t & p1 & rs & p2 & r & _ & _ & _ & Hi1).
    destruct (Hpt' 0 _ _ Hi1) as (t' & p3 & g & p4 & Hwd & Hg & Hi').
    exists cap, r, p2, t', p3, [t'], g, p4.
    split; [done|]. split; [done|]. split; [done|].
    split. { by rewrite (Hd0 0 cap p0 eq_refl). }
    split; [done|]. split; [simpl; lia|].
    split.
    { intros i cap' cp q Hi. destruct i as [|i].
      - rewrite Hi1 in Hi. injection Hi as <- <- <-. eauto.
      - apply lookup_lt_Some in Hi. simpl in *. lia. }
    split; [done|]. split; [done|]. split; [lia|].
    rewrite Hlen. destruct w' as [|[g' p'] [|]]; simpl in *; try lia.
    by injection Hi' as -> _.
  - apply reduce_scatter_group in Hw1 as (ts & rs & Hc & Hts & Hl1 & Hpt1).
    apply all_reduce_group in Hw' as (ts' & g & Hc' & Hts' & Hl' & Hpt').
    apply lookup_lt_is_Some in Hc as [[capc pc] Hwc].
    destruct (Hpt1 _ _ _ Hwc) as (t & p1 & p2 & r & _ & _ & _ & _ & Hi1).
    destruct (Hpt' _ _ _ Hi1) as (t' & p3 & p4 & Hwd & _ & Hg & Hi').
    rewrite decide_True in Hg by done.
    exists capc, r, (log (Collective "plan" Scatter) p2), t', p3, ts', g, p4.
    split; [done|]. split; [done|]. split; [done|].
    split.
    { rewrite (Hd0 _ _ _ Hwc), _DistWrapper_init_coordinator.
      by apply bool_decide_eq_true_2. }
    split; [done|]. split; [lia|].
    split.
    { intros i cap cp q Hi.
      destruct (Hpt' _ _ _ Hi) as (r' & q1 & _ & Hwd' & Hr' & _). eauto. }
    split; [done|]. split; [done|]. split; [lia|].
    apply list_eq. intros i. rewrite list_lookup_fmap.
    destruct (decide (i < length w)) as [Hi|Hi].
    + rewrite lookup_replicate_2 by done.
      assert (is_Some (w1 !! i)) as [[[cap cp] p1'] Hi1'].
      { apply lookup_lt_is_Some. lia. }
      destruct (Hpt' _ _ _ Hi1') as (? & ? & ? & _ & _ & _ & ->). done.
    + rewrite (lookup_ge_None_2 w') by lia.
      symmetry. apply lookup_replicate_None. lia.
Qed.

(** * Failing runs *)

Lemma call_inl {A} ev (m : Method A) p e p' :
  call ev m p = (inl e, p') → ∃ u, e = Raised u.
Proof.
  unfold call. destruct (m (ext p)) as [[u|a] x]; [|done]. intros [= <- _]. eauto.
Qed.

Lemma deref_inl l p e p' : deref l p = (inl e, p') → e = InvalidReference.
Proof. unfold deref. destruct (dicts p !! l); [done|]. by intros [= <- _]. Qed.

Lemma each_inl {A B} (f : A → M B) w e ps :
  each f w = inl (e, ps) →
  ∃ i a p p', w !! i = Some (a, p) ∧ f a p = (inl e, p').
Proof.
  revert ps. induction w as [|[a p] w IH]; intros ps; simpl; [done|].
  destruct (f a p) as [[e1|b] p1] eqn:Hf.
  - intros Heq. exists 0, a, p, p1. split; [done|].
    destruct (each f w) as [[e2 ps2]|r]; injection Heq as <- _; done.
  - destruct (each f w) as [[e2 ps2]|r]; [|done]. intros [= <- _].
    destruct (IH _ eq_refl) as (i & a' & p' & p'' & Hi & Hrun).
    by exists (S i), a', p', p''.
Qed.

Lemma at_rank_inl {A B} c (f : A → M B) w e ps :
  at_rank c f w = inl (e, ps) →
  (∃ m, e = RuntimeError m) ∨
  ∃ a p p', w !! c = Some (a, p) ∧ f a p = (inl e, p').
Proof.
  unfold at_rank. destruct (w !! c) as [[a p]|]; [|intros [= <- _]; eauto].
  destruct (f a p) as [[e1|b] p1] eqn:Hf; [|done]. intros [= <- _]. right. eauto.
Qed.


Ltac fail_inv :=
  repeat match goal with
  | H : bind _ _ _ = (inl _, _) |- _ =>
      apply bind_inl in H as [H | (? & ? & ? & H)]
  | H : call _ _ _ = (inl _, _) |- _ => apply call_inl in H as [? ->]
  | H : deref _ _ = (inl _, _) |- _ => apply deref_inl in H as ->
  | H : emit _ _ = (inl _, _) |- _ => discriminate H
  | H : ret _ _ = (inl _, _) |- _ => discriminate H
  | H : set_global_metatadata _ _ = (inl _, _) |- _ => discriminate H
  | H : get_global_metatadata _ = (inl _, _) |- _ => discriminate H
  | H : (let '(_, _) := ?x in _) _ = (inl _, _) |- _ => destruct x
  end.

(** ** Failures before the first collective *)

Lemma until_collective_inl {A B X} (own : A → M B) blocked
    (together : World B → Outcome X) w e ps :
  until_collective own blocked together w = inl (e, ps) →
  (∃ i a p p', w !! i = Some (a, p) ∧ own a p = (inl e, p')) ∨
  (∃ w1, each own w = inr w1 ∧ together w1 = inl (e, ps)).
Proof.
  unfold until_collective. destruct (each own w) as [[e1 ps1]|w1] eqn:Hown.
  - intros [= <- _]. left. by eapply each_inl.
  - right. eauto.
Qed.

(** The rank that raises in its own part stays as the exception left it;
    a rank that got through its own part is left waiting in the collective. *)
Lemma until_collective_own_failure {A B X} (own : A → M B) blocked
    (together : World B → Outcome X) w i a p e p' :
  w !! i = Some (a, p) → own a p = (inl e, p') →
  ∃ e' ps,
    until_collective own blocked together w = inl (e', ps) ∧
    length ps = length w ∧
    ps !! i = Some p' ∧
    (i = 0 → e' = e) ∧
    (∀ j a' q b q', w !! j = Some (a', q) → own a' q = (inr b, q') →
                    ps !! j = Some (blocked b q').2).
Proof.
  intros Hi Hown. unfold until_collective.
  destruct (each_fail_at own w i a p e p' Hi Hown) as (e' & ps0 & -> & _ & He).
  eexists _, _. split; [done|]. split; [by rewrite length_fmap|].
  split; [by rewrite list_lookup_fmap, Hi; simpl; rewrite Hown|]. split; [done|].
  intros j a' q b q' Hj Hq. by rewrite list_lookup_fmap, Hj; simpl; rewrite Hq.
Qed.

Lemma separately_inl {A X} (run : World A → Outcome (World X)) w e ps :
  separately run w = inl (e, ps) →
  ∃ i x ps', w !! i = Some x ∧ run [x] = inl (e, ps').
Proof.
  revert ps. induction w as [|x w IH]; intros ps; simpl; [done|].
  destruct (run [x]) as [[e1 ps1]|r] eqn:Hrun.
  - intros Heq. exists 0, x, ps1. split; [done|].
    destruct (separately run w) as [[e2 ps2]|r]; injection Heq as <- _; done.
  - destruct (separately run w) as [[e2 ps2]|r']; [|done]. intros [= <- _].
    destruct (IH _ eq_refl) as (i & y & ps' & Hi & Hy). by exists (S i), y, ps'.
Qed.

(** A failing run of the code around [_save_state_dict]: the exception was
    raised either by a rank in its own part or in one of the two phases of a
    group that got through it.  Without a backend the group is the one
    process. *)
Lemma _save_state_dict_group_inl {K} (enter : K → M SaveArgs) c no_dist w e ps :
  _save_state_dict_group enter c no_dist w = inl (e, ps) →
  (∃ i k p p', w !! i = Some (k, p) ∧
     bind (enter k) (fun a => enter_save_state_dict
                                (a, _DistWrapper_init (negb no_dist) c i)) p
     = (inl e, p')) ∨
  (∃ wa w0, each enter w = inr wa ∧
     each enter_save_state_dict (with_distW (negb no_dist) c wa) = inr w0 ∧
     (w1 <-- plan_phase no_dist c w0 ;; write_phase no_dist c w1) = inl (e, ps)).
Proof.
  unfold _save_state_dict_group.
  intros [(i & [k d] & p & p' & Hi & Hown)|(w0 & Hw0 & Hrest)]%until_collective_inl.
  - left. unfold with_distW in Hi. rewrite list_lookup_imap in Hi.
    destruct (w !! i) as [[k' q]|] eqn:Hwi; simpl in Hi; [|done].
    injection Hi as <- <- <-. eauto 10.
  - right. apply each_with_distW_inr in Hw0 as (wa & Hwa & Hw0). eauto 10.
Qed.

Lemma _save_state_dict_after_inl {K} (enter : K → M SaveArgs) c no_dist w e ps :
  _save_state_dict_after enter c no_dist w = inl (e, ps) →
  ∃ g ps',
    (if no_dist then ∃ i x, w !! i = Some x ∧ g = [x] else g = w) ∧
    _save_state_dict_group enter c no_dist g = inl (e, ps').
Proof.
  unfold _save_state_dict_after. destruct no_dist.
  - intros (i & x & ps' & Hi & Hx)%separately_inl. eauto 10.
  - eauto.
Qed.

Lemma _save_state_dict_after_own_failure {K} (enter : K → M SaveArgs) c no_dist
    w i k p e p' :
  w !! i = Some (k, p) → enter k p = (inl e, p') →
  ∃ e' ps,
    _save_state_dict_after enter c no_dist w = inl (e', ps) ∧
    ps !! i = Some p' ∧
    (i = 0 → e' = e).
Proof.
  intros Hi Hown. destruct no_dist.
  - rewrite _save_state_dict_after_alone.
    apply (each_fail_at _ w i k p e p' Hi). unfold alone, bind. by rewrite Hown.
  - unfold _save_state_dict_after, _save_state_dict_group.
    match goal with
    | |- context [until_collective ?own ?blocked ?together ?w0] =>
        destruct (until_collective_own_failure own blocked together w0 i
                    (k, _DistWrapper_init true c i) p e p')
          as (e' & ps & Hrun & _ & Hps & He & _)
    end; [by apply with_distW_lookup|by unfold bind; rewrite Hown|].
    eauto.
Qed.

Lemma local_step_inl c p e p' : local_step c p = (inl e, p') → not_assertion e.
Proof. unfold local_step. intros Hrun. fail_inv; done. Qed.

Lemma global_step_inl c lps p e p' : global_step c lps p = (inl e, p') → not_assertion e.
Proof. unfold global_step. intros Hrun. fail_inv; done. Qed.

Lemma write_data_step_inl c cp p e p' :
  write_data_step c cp p = (inl e, p') → not_assertion e.
Proof. unfold write_data_step. intros Hrun. fail_inv; done. Qed.

Lemma enter_save_state_dict_inl x p e p' :
  enter_save_state_dict x p = (inl e, p') → not_assertion e.
Proof.
  unfold enter_save_state_dict. destruct x as [a d]. intros Hrun.
  destruct (planner a); fail_inv; done.
Qed.

Lemma finish_checkpoint_inl c results p e p' :
  finish_checkpoint c results p = (inl e, p') →
  not_assertion e ∨ global_metatadata p = None.
Proof.
  unfold finish_checkpoint. intros Hrun.
  apply bind_inl in Hrun as [Hrun|(g & p1 & Hg & Hrun)]; [done|].
  apply get_global_metatadata_inr in Hg as [-> ->].
  destruct (global_metatadata p); [|by right]. left. fail_inv; done.
Qed.

(** How a collective fails: in a local step, in the global step of the
    coordinator (which runs on the state its own local step left), or with
    an error of the wrapper itself. *)
Lemma reduce_scatter_inl {A T R} u c tag (local : A → M T)
    (global : A → list T → M (list R)) w e ps :
  reduce_scatter u c tag local global w = inl (e, ps) →
  not_assertion e ∨
  (∃ i a p p', w !! i = Some (a, p) ∧ local a p = (inl e, p')) ∨
  (∃ i a p t p1 ts p2, w !! i = Some (a, p) ∧ local a p = (inr t, p1) ∧
     (u = true → i = c) ∧
     global a ts (if u then log (Collective tag Gather) p1 else p1) = (inl e, p2)).
Proof.
  unfold reduce_scatter. destruct u.
  - destruct (each (gathered tag local) w) as [[e1 ps1]|w1] eqn:Hw1.
    { intros [= <- _]. apply each_inl in Hw1 as (i & a & p & p' & Hi & Hrun).
      unfold gathered in Hrun. fail_inv. right. left. eauto 10. }
    destruct (at_rank c _ w1) as [[e1 ps1]|[rs w2]] eqn:Hc.
    { intros [= <- _]. apply at_rank_inl in Hc as [[m ->]|([a t] & p & p' & Hwc & Hg)].
      - by left.
      - right. right. apply each_inr in Hw1.
        destruct (Forall2_lookup_r _ _ _ _ _ Hw1 Hwc) as ([a0 p0] & Hi0 & Hrun).
        apply gathered_inr in Hrun as (t0 & p1 & Hl & [= -> ->] & Hp). simpl in Hp. subst p.
        exists c, a0, p0, t0, p1. eauto 10. }
    destruct (decide _); [|intros [= <- _]; by left].
    intros (i & [a r] & p & p' & _ & Hrun)%each_inl.
    unfold received in Hrun. fail_inv.
  - intros (i & a & p & p' & Hi & Hrun)%each_inl. fail_inv.
    + right. left. eauto 10.
    + right. right. exists i, a, p. eexists _, _, _, _. repeat split; [done..| |done]. done.
    + match goal with
      | Hm : match ?l with [] => _ | _ :: _ => _ end _ = _ |- _ =>
          destruct l; [|discriminate Hm]; injection Hm as <- _
      end.
      by left.
Qed.

Lemma all_reduce_inl {A T G} u c tag (local : A → M T)
    (global : A → list T → M G) w e ps :
  all_reduce u c tag local global w = inl (e, ps) →
  not_assertion e ∨
  (∃ i a p p', w !! i = Some (a, p) ∧ local a p = (inl e, p')) ∨
  (∃ i a p t p1 ts p2, w !! i = Some (a, p) ∧ local a p = (inr t, p1) ∧
     (u = true → i = c) ∧
     global a ts (if u then log (Collective tag Gather) p1 else p1) = (inl e, p2)).
Proof.
  unfold all_reduce. destruct u.
  - destruct (each (gathered tag local) w) as [[e1 ps1]|w1] eqn:Hw1.
    { intros [= <- _]. apply each_inl in Hw1 as (i & a & p & p' & Hi & Hrun).
      unfold gathered in Hrun. fail_inv. right. left. eauto 10. }
    destruct (at_rank c _ w1) as [[e1 ps1]|[rs w2]] eqn:Hc.
    { intros [= <- _]. apply at_rank_inl in Hc as [[m ->]|([a t] & p & p' & Hwc & Hg)].
      - by left.
      - right. right. apply each_inr in Hw1.
        destruct (Forall2_lookup_r _ _ _ _ _ Hw1 Hwc) as ([a0 p0] & Hi0 & Hrun).
        apply gathered_inr in Hrun as (t0 & p1 & Hl & [= -> ->] & Hp). simpl in Hp. subst p.
        exists c, a0, p0, t0, p1. eauto 10. }
    intros (i & [a r] & p & p' & _ & Hrun)%each_inl. fail_inv.
  - intros (i & a & p & p' & Hi & Hrun)%each_inl. fail_inv.
    + right. left. eauto 10.
    + right. right. exists i, a, p. eexists _, _, _, _. repeat split; [done..| |done]. done.
Qed.

(** C10 (the assertion of [finish_checkpoint]).  When every planner in use
    (the given ones and the default one) returns a metadata that is not
    [None] from [create_global_plan], no run of [_save_state_dict] fails with
    the assertion [global_metatadata is not None]: [finish_checkpoint] runs
    only on a process that has run [global_step] before, which stored the
    metadata in [global_metatadata], and nothing in between resets it. *)
Theorem metadata_assertion_holds (c : nat) (no_dist : bool) w :
  (∀ i a p pl, w !! i = Some (a, p) → planner a = Some pl → returns_metadata pl) →
  (∀ x pl x', DefaultSavePlanner x = (inr pl, x') → returns_metadata pl) →
  ∀ m ps, _save_state_dict c no_dist w ≠ inl (AssertionError m, ps).
Proof.
  intros Hgiven Hdefault m ps. unfold _save_state_dict.
  intros Hrun. apply _save_state_dict_after_inl in Hrun as (g & ps' & Hg & Hrun).
  assert (∀ i a p pl, g !! i = Some (a, p) → planner a = Some pl → returns_metadata pl)
    as Hgiven'.
  { destruct no_dist; [|by subst g].
    destruct Hg as (j & x & Hj & ->). intros [|i] a p pl Hi; [|done].
    injection Hi as ->. by eapply Hgiven. }
  clear Hg Hgiven w. rename g into w, Hgiven' into Hgiven. clear ps. rename ps' into ps.
  apply _save_state_dict_group_inl in Hrun
    as [(i & k & p & p' & Hi & Hown)|(wa & w0 & Hwa & Hw0 & Hrun)].
  { apply bind_inl in Hown as [Hown|(a & p1 & _ & Hown)]; [done|].
    by apply enter_save_state_dict_inl in Hown. }
  rewrite each_ret in Hwa. injection Hwa as <-. revert Hrun.
  assert (∀ i cap p, w0 !! i = Some (cap, p) →
            c_distW cap = _DistWrapper_init (negb no_dist) c i ∧
            returns_metadata (c_planner cap)) as Hcap.
  { intros i cap p Hi. apply each_inr in Hw0.
    destruct (Forall2_lookup_r _ _ _ _ _ Hw0 Hi) as ([[a d] p0] & Hi0 & Hrun).
    unfold runs_to in Hrun. simpl in Hrun.
    apply enter_save_state_dict_inr in Hrun as (_ & _ & -> & Hpl & _).
    unfold with_distW in Hi0. rewrite list_lookup_imap in Hi0.
    destruct (w !! i) as [[a' p']|] eqn:Hwi; simpl in Hi0; [|done].
    injection Hi0 as <- <- <-. split; [done|].
    destruct (planner a') as [pl|] eqn:Hp.
    - destruct Hpl as (-> & _). by eapply Hgiven.
    - destruct Hpl as ((x & Hx) & _). by eapply Hdefault. }
  destruct (plan_phase no_dist c w0) as [[e1 ps1]|w1] eqn:Hw1.
  { intros [= -> _]. unfold plan_phase in Hw1.
    apply reduce_scatter_inl in Hw1
      as [Hna|[(i & a & p & p' & _ & Hrun)|(i & a & p & t & p1 & ts & p2 & _ & _ & _ & Hrun)]].
    - done.
    - by apply local_step_inl in Hrun.
    - by apply global_step_inl in Hrun. }
  intros Hw'. unfold write_phase in Hw'.
  apply all_reduce_inl in Hw'
    as [Hna|[(i & [cap cp] & p & p' & _ & Hrun)
            |(i & [cap cp] & p1 & t & p2 & ts & p3 & Hi1 & Hl & Hic' & Hrun)]].
  - done.
  - by apply write_data_step_inl in Hrun.
  - apply finish_checkpoint_inl in Hrun as [Hna|Hnone]; [done|].
    apply write_data_step_inr in Hl as (flp & _ & Hm2 & _).
    assert (global_metatadata p2 = None) as Hn2.
    { by destruct (negb no_dist). }
    rewrite Hm2 in Hn2.
    (* the process ran [global_step] in the plan phase *)
    assert (∃ cap0 p0, w0 !! i = Some (cap0, p0)) as (cap0 & p0 & Hi0).
    { assert (length w1 = length w0) as Hlen.
      { unfold plan_phase in Hw1. destruct no_dist; cbn [negb] in Hw1.
        - by apply reduce_scatter_solo in Hw1 as [? _].
        - by apply reduce_scatter_group in Hw1 as (? & ? & _ & _ & ? & _). }
      apply lookup_lt_Some in Hi1. rewrite Hlen in Hi1.
      apply lookup_lt_is_Some in Hi1 as [[??] ?]. eauto. }
    destruct (Hcap _ _ _ Hi0) as [Hd Hret].
    destruct (plan_phase_rank _ _ _ _ _ _ _ Hw1 Hi0 Hd)
      as (cp' & p1' & sd & lp0 & lps & gp0 & Hi1' & _ & Hcell).
    rewrite Hi1 in Hi1'. injection Hi1' as <- <- <-.
    destruct (is_coordinator (c_distW cap)) eqn:Hic.
    + destruct Hcell as (x & gp & x' & Hcg). apply Hret in Hcg as [md Hmd]. congruence.
    + (* a process that is not the coordinator does not run [finish_checkpoint] *)
      rewrite Hd, _DistWrapper_init_coordinator in Hic.
      destruct no_dist; cbn [negb] in *; [done|].
      apply bool_decide_eq_false in Hic. by apply Hic, Hic'.
Qed.

(** * Resolution of stateful objects *)

Lemma snapshot_items_read_only (items : Dict) x res x' :
  (∀ key o, (key, Obj o) ∈ items → ∀ y, (state_dict_of o y).2 = y) →
  snapshot_items items x = (inr res, x') → x' = x.
Proof.
  revert x res x'. induction items as [|[key [v|o]] rest IH]; simpl; intros x res x' Hro H.
  - by injection H as _ <-.
  - destruct (snapshot_items rest x) as [[e|r] x1] eqn:Hr; [done|].
    injection H as _ <-. eapply IH; [|done]. intros k o Hin. apply (Hro k). by right.
  - pose proof (Hro key o (list_elem_of_here _ _) x) as Hx.
    destruct (state_dict_of o x) as [[e|s] x1] eqn:Hs; [done|]. simpl in Hx. subst x1.
    destruct (snapshot_items rest x) as [[e|r] x2] eqn:Hr; [done|].
    injection H as _ <-. eapply IH; [|done]. intros k o' Hin. apply (Hro k). by right.
Qed.

Lemma _stateful_to_state_dict_inr (state_dict : loc) (items : Dict) p res x' :
  dicts p !! state_dict = Some items →
  NoDup items.*1 →
  snapshot_items items (ext p) = (inr res, x') →
  _stateful_to_state_dict state_dict p
  = (inr (fresh (dom (dicts p))),
     {| dicts := <[fresh (dom (dicts p)) := res]> (dicts p); ext := x';
        global_metatadata := global_metatadata p;
        trace := trace p ++ stateful_calls items |}) ∧
  dicts p !! fresh (dom (dicts p)) = None.
Proof.
  intros Hsd Hnd Hsnap.
  set (new := fresh (dom (dicts p))).
  assert (dicts p !! new = None) as Hnew.
  { apply not_elem_of_dom. apply is_fresh. }
  assert (new ≠ state_dict) as Hne by congruence.
  split; [|done].
  unfold _stateful_to_state_dict.
  unfold bind at 1. unfold new_dict. fold new.
  unfold bind at 1. unfold deref. simpl. rewrite lookup_insert_ne, Hsd by done.
  unfold bind at 1.
  erewrite (for_each_resolve new items []);
    [| simpl; apply lookup_insert_eq | by intros k _ ?%elem_of_nil | done | exact Hsnap].
  simpl. unfold ret. by rewrite insert_insert_eq.
Qed.

(** C8 (stateful resolution).  For a state dict [items] stored at
    [state_dict], whose snapshot calls all return, [_stateful_to_state_dict]
    returns a reference [new] that was not in use before; the store after
    the call is the store before it with the one new dictionary added, so
    the input mapping (and every other dictionary) is as it was; the new
    dictionary has the keys of the input in the same order, every Stateful
    value replaced by what its [state_dict()] returned and every other value
    kept; and the external objects are changed by the snapshot calls only:
    when those leave the objects as they are, the objects are unchanged. *)
Theorem stateful_resolution (state_dict : loc) (items : Dict) p res x' :
  dicts p !! state_dict = Some items →
  NoDup items.*1 →
  snapshot_items items (ext p) = (inr res, x') →
  ∃ new,
    _stateful_to_state_dict state_dict p
    = (inr new, {| dicts := <[new := res]> (dicts p); ext := x';
                   global_metatadata := global_metatadata p;
                   trace := trace p ++ stateful_calls items |}) ∧
    dicts p !! new = None ∧
    <[new := res]> (dicts p) !! state_dict = Some items ∧
    (∀ l, l ≠ new → <[new := res]> (dicts p) !! l = dicts p !! l) ∧
    res.*1 = items.*1 ∧
    Forall2 resolved_elem items res ∧
    ((∀ key o, (key, Obj o) ∈ items → ∀ y, (state_dict_of o y).2 = y) → x' = ext p).
Proof.
  intros Hsd Hnd Hsnap.
  destruct (_stateful_to_state_dict_inr _ _ _ _ _ Hsd Hnd Hsnap) as [Hrun Hnew].
  exists (fresh (dom (dicts p))).
  split; [done|]. split; [done|]. split; [|split; [|split; [|split]]].
  - rewrite lookup_insert_ne; [done | congruence].
  - intros l Hl. by rewrite lookup_insert_ne.
  - by eapply snapshot_items_keys.
  - by eapply snapshot_items_resolved.
  - intros Hro. by eapply snapshot_items_read_only.
Qed.

(** * What a computation logs *)

Section Emits.
Context (P : Event → Prop).

Lemma emits_ret {A} (a : A) : emits P (ret a).
Proof. intros p r p' [= <- <-]. exists []. by rewrite app_nil_r. Qed.

Lemma emits_raise {A} e : emits P (raise (A:=A) e).
Proof. intros p r p' [= <- <-]. exists []. by rewrite app_nil_r. Qed.

Lemma emits_bind {A B} (m : M A) (k : A → M B) :
  emits P m → (∀ a, emits P (k a)) → emits P (bind m k).
Proof.
  intros Hm Hk p r p'. unfold bind.
  destruct (m p) as [[e|a] p1] eqn:Hmp.
  - intros [= <- <-]. eauto.
  - intros Hkp. destruct (Hm _ _ _ Hmp) as (evs1 & Ht1 & H1).
    destruct (Hk _ _ _ _ Hkp) as (evs2 & Ht2 & H2).
    exists (evs1 ++ evs2). rewrite Ht2, Ht1, app_assoc. split; [done|]. by apply Forall_app.
Qed.

Lemma emits_emit ev : P ev → emits P (emit ev).
Proof. intros Hev p r p' [= <- <-]. exists [ev]. split; [done|]. by constructor. Qed.

Lemma emits_call {A} ev (m : Method A) : P ev → emits P (call ev m).
Proof.
  intros Hev p r p'. unfold call. destruct (m (ext p)) as [r1 x].
  intros [= <- <-]. exists [ev]. split; [done|]. by constructor.
Qed.

Lemma emits_deref l : emits P (deref l).
Proof.
  intros p r p'. unfold deref. destruct (dicts p !! l); intros [= <- <-];
    exists []; by rewrite app_nil_r.
Qed.

Lemma emits_new_dict d : emits P (new_dict d).
Proof. intros p r p' [= <- <-]. exists []. simpl. by rewrite app_nil_r. Qed.

Lemma emits_setitem l key v : emits P (setitem l key v).
Proof.
  intros p r p'. unfold setitem. destruct (dicts p !! l); intros [= <- <-];
    exists []; simpl; by rewrite app_nil_r.
Qed.

Lemma emits_set_global_metatadata v : emits P (set_global_metatadata v).
Proof. intros p r p' [= <- <-]. exists []. simpl. by rewrite app_nil_r. Qed.

Lemma emits_get_global_metatadata : emits P get_global_metatadata.
Proof. intros p r p' [= <- <-]. exists []. by rewrite app_nil_r. Qed.

Lemma emits_for_each {A} (xs : list A) body :
  (∀ x, emits P (body x)) → emits P (for_each xs body).
Proof.
  intros Hb. induction xs as [|x xs IH]; simpl.
  - apply emits_ret.
  - apply emits_bind; [apply Hb | done].
Qed.

End Emits.

Ltac emits_tac :=
  repeat first
    [ apply emits_ret | apply emits_raise | apply emits_deref | apply emits_new_dict
    | apply emits_setitem | apply emits_set_global_metatadata
    | apply emits_get_global_metatadata
    | apply emits_emit; try done | apply emits_call; try done
    | apply emits_for_each; intros
    | apply emits_bind; [|intros]
    | match goal with
      | |- emits _ (match ?x with _ => _ end) => destruct x
      | |- emits _ (let '(_, _) := ?x in _) => destruct x
      end ].

Lemma emits__stateful_to_state_dict P l :
  P Call_state_dict → emits P (_stateful_to_state_dict l).
Proof. intros HP. unfold _stateful_to_state_dict. emits_tac. Qed.

Lemma emits__storage_setup P sw cid : emits P (_storage_setup sw cid).
Proof. unfold _storage_setup. emits_tac. Qed.

Lemma single_process_save_log k p r p' :
  single_process_save k p = (r, p') →
  ∃ evs, trace p' = trace p ++ Warn warn_no_dist :: evs ∧
         Forall (fun ev => ¬ is_collective ev) evs.
Proof.
  unfold single_process_save, enter_save. cbn [negb].
  rewrite !bind_assoc. change (bind (emit ?ev) ?k p) with (k tt (log ev p)).
  cbv beta. intros Hrun.
  match type of Hrun with
  | ?m _ = _ => assert (emits (fun ev => ¬ is_collective ev) m) as Hem
  end.
  { unfold enter_save_state_dict, local_step, global_step, write_data_step,
      finish_checkpoint.
    emits_tac; try (by apply emits__stateful_to_state_dict; auto);
      try (by apply emits__storage_setup); auto. }
  destruct (Hem _ _ _ Hrun) as (evs & Ht & Hevs).
  exists evs. split; [|done]. rewrite Ht. simpl. by rewrite <- app_assoc.
Qed.

(** * The entry points *)

Lemma alone_single_process_save k p :
  alone (enter_save false) 0 k p = single_process_save k p.
Proof.
  unfold alone, single_process_save, bind.
  destruct (enter_save false k p) as [[e|a] p0]; [done|].
  destruct (enter_save_state_dict _ p0) as [[e|c] p1]; [done|].
  destruct (local_step c p1) as [[e|lp] p2]; [done|].
  by destruct (global_step c [lp] p2) as [[e|[|cp gp]] p3].
Qed.

(** C5 (preconditions of [save]).  Without a storage writer and without a
    checkpoint id, the first part of [save] raises the precondition failure
    on that process, having logged at most the warning about the missing
    process group.  The first parts of the ranks then fail as a group and so
    does [save]; in both that process is left as the exception left it: it
    never entered [_save_state_dict], so it called no planner and took part
    in no collective step.  Without a process group, [save] on one process
    is the single-participant run: it logs the warning first, then only
    calls that are not collective steps, and it returns or raises exactly
    what those steps return or raise. *)
Theorem save_preconditions (dist_ready : bool) :
  (∀ k p,
     k_storage_writer k = None → k_checkpoint_id k = None →
     enter_save dist_ready k p =
     (inl (RuntimeError "`checkpoint_id` must be specificed if storage_writer is None."),
      if dist_ready then p else log (Warn warn_no_dist) p)) ∧
  (∀ w i k p,
     w !! i = Some (k, p) →
     k_storage_writer k = None → k_checkpoint_id k = None →
     ∃ e0 ps0 e ps,
       each (enter_save dist_ready) w = inl (e0, ps0) ∧
       ps0 !! i = Some (if dist_ready then p else log (Warn warn_no_dist) p) ∧
       save dist_ready w = inl (e, ps) ∧
       ps !! i = Some (if dist_ready then p else log (Warn warn_no_dist) p) ∧
       (i = 0 →
        e0 = RuntimeError "`checkpoint_id` must be specificed if storage_writer is None." ∧
        e = RuntimeError "`checkpoint_id` must be specificed if storage_writer is None.")) ∧
  (∀ k p,
     save false [(k, p)] = outcome_of (single_process_save k p) ∧
     ∃ evs, trace (single_process_save k p).2 = trace p ++ Warn warn_no_dist :: evs ∧
            Forall (fun ev => ¬ is_collective ev) evs).
Proof.
  assert (∀ k p,
     k_storage_writer k = None → k_checkpoint_id k = None →
     enter_save dist_ready k p =
     (inl (RuntimeError "`checkpoint_id` must be specificed if storage_writer is None."),
      if dist_ready then p else log (Warn warn_no_dist) p)) as Hlocal.
  { intros k p Hw Hc. unfold enter_save, _storage_setup. rewrite Hw, Hc.
    by destruct dist_ready. }
  split; [done|]. split.
  - intros w i k p Hi Hw Hc.
    destruct (each_fail_at _ _ _ _ _ _ _ Hi (Hlocal k p Hw Hc))
      as (e0 & ps0 & Heach & Hps0 & He0).
    destruct (_save_state_dict_after_own_failure (enter_save dist_ready) 0
                (negb dist_ready) _ _ _ _ _ _ Hi (Hlocal k p Hw Hc))
      as (e & ps & Hsave & Hps & He).
    exists e0, ps0, e, ps. unfold save. auto 10.
  - intros k p. split.
    + unfold save. cbn [negb].
      by rewrite _save_state_dict_after_alone, each_singleton, alone_single_process_save.
    + destruct (single_process_save k p) as [r p'] eqn:Hrun.
      by eapply single_process_save_log.
Qed.

(** C6 (precondition of [async_save]).  With an initialised process group
    whose device types do not contain the CPU, the first part of
    [async_save] raises the assertion that names the CPU backend and leaves
    the process exactly as it was: nothing has been staged and nothing
    logged.  The group operation then fails in that first part, so nothing
    is submitted to the executor and no collective step runs. *)
Theorem async_save_requires_cpu_backend :
  (∀ k p,
     has_cpu_device (default _get_default_group (k_process_group k)) = false →
     enter_async_save true k p = (inl (AssertionError assert_cpu_backend), p)) ∧
  (∀ w i k p,
     w !! i = Some (k, p) →
     has_cpu_device (default _get_default_group (k_process_group k)) = false →
     ∃ e ps,
       each (enter_async_save true) w = inl (e, ps) ∧
       async_save true w = inl (e, ps) ∧
       ps !! i = Some p ∧
       (i = 0 → e = AssertionError assert_cpu_backend)).
Proof.
  assert (∀ k p,
     has_cpu_device (default _get_default_group (k_process_group k)) = false →
     enter_async_save true k p = (inl (AssertionError assert_cpu_backend), p)) as Hlocal.
  { intros k p Hcpu. unfold enter_async_save. by rewrite Hcpu. }
  split; [done|].
  intros w i k p Hi Hcpu.
  destruct (each_fail_at _ _ _ _ _ _ _ Hi (Hlocal k p Hcpu)) as (e & ps & Heach & Hps & He).
  exists e, ps. unfold async_save. by rewrite Heach.
Qed.

(** * Lengths *)

Lemma each_inl_length {A B} (f : A → M B) w e ps :
  each f w = inl (e, ps) → length ps = length w.
Proof.
  revert e ps. induction w as [|[a p] w IH]; intros e ps; simpl; [done|].
  destruct (f a p) as [[e1|b] p1]; destruct (each f w) as [[e2 ps2]|r] eqn:Hw;
    intros [= <- <-]; simpl; f_equal; try by eapply IH.
  rewrite length_fmap. by eapply each_length.
Qed.

Lemma at_rank_inl_length {A B} c (f : A → M B) w e ps :
  at_rank c f w = inl (e, ps) → length ps = length w.
Proof.
  unfold at_rank. destruct (w !! c) as [[a p]|].
  - destruct (f a p) as [[e1|b] p1]; [|done]. intros [= <- <-].
    by rewrite length_fmap, length_insert.
  - intros [= <- <-]. by rewrite length_fmap.
Qed.

Lemma reduce_scatter_inl_length {A T R} u c tag (local : A → M T)
    (global : A → list T → M (list R)) w e ps :
  reduce_scatter u c tag local global w = inl (e, ps) → length ps = length w.
Proof.
  unfold reduce_scatter. destruct u; [|apply each_inl_length].
  destruct (each (gathered tag local) w) as [[e1 ps1]|w1] eqn:Hw1.
  { intros [= <- <-]. by eapply each_inl_length. }
  apply each_length in Hw1.
  destruct (at_rank c _ w1) as [[e1 ps1]|[rs w2]] eqn:Hc.
  { intros [= <- <-]. apply at_rank_inl_length in Hc. lia. }
  apply at_rank_inr in Hc as (? & ? & ? & _ & _ & ->).
  destruct (decide _) as [Hlen|].
  - intros Hps%each_inl_length. rewrite Hps, length_zip_with_l by done.
    by rewrite length_insert.
  - intros [= <- <-]. by rewrite length_fmap, length_insert.
Qed.

Lemma reduce_scatter_length {A T R} u c tag (local : A → M T)
    (global : A → list T → M (list R)) w w' :
  reduce_scatter u c tag local global w = inr w' → length w' = length w.
Proof.
  destruct u.
  - by intros (? & ? & _ & _ & ? & _)%reduce_scatter_group.
  - by intros [? _]%reduce_scatter_solo.
Qed.

Lemma all_reduce_inl_length {A T G} u c tag (local : A → M T)
    (global : A → list T → M G) w e ps :
  all_reduce u c tag local global w = inl (e, ps) → length ps = length w.
Proof.
  unfold all_reduce. destruct u; [|apply each_inl_length].
  destruct (each (gathered tag local) w) as [[e1 ps1]|w1] eqn:Hw1.
  { intros [= <- <-]. by eapply each_inl_length. }
  apply each_length in Hw1.
  destruct (at_rank c _ w1) as [[e1 ps1]|[rs w2]] eqn:Hc.
  { intros [= <- <-]. apply at_rank_inl_length in Hc. lia. }
  apply at_rank_inr in Hc as (? & ? & ? & _ & _ & ->).
  intros Hps%each_inl_length. by rewrite Hps, length_insert.
Qed.

Lemma all_reduce_length {A T G} u c tag (local : A → M T)
    (global : A → list T → M G) w w' :
  all_reduce u c tag local global w = inr w' → length w' = length w.
Proof.
  destruct u.
  - by intros (? & ? & _ & _ & ? & _)%all_reduce_group.
  - by intros [? _]%all_reduce_solo.
Qed.

Lemma phases_length no_dist c w0 :
  length (procs_after (w1 <-- plan_phase no_dist c w0 ;; write_phase no_dist c w1))
  = length w0.
Proof.
  destruct (plan_phase no_dist c w0) as [[e1 ps1]|w1] eqn:Hw1; simpl.
  { by apply reduce_scatter_inl_length in Hw1. }
  apply reduce_scatter_length in Hw1.
  destruct (write_phase no_dist c w1) as [[e2 ps2]|w2] eqn:Hw2; simpl.
  - apply all_reduce_inl_length in Hw2. lia.
  - apply all_reduce_length in Hw2. rewrite length_fmap. lia.
Qed.

Lemma until_collective_length {A B X} (own : A → M B) blocked
    (together : World B → Outcome (World X)) w :
  (∀ w1, length (procs_after (together w1)) = length w1) →
  length (procs_after (until_collective own blocked together w)) = length w.
Proof.
  intros Htogether. unfold until_collective.
  destruct (each own w) as [[e ps]|w1] eqn:Hown; simpl.
  - by rewrite length_fmap.
  - rewrite Htogether. by eapply each_length.
Qed.

Lemma _save_state_dict_after_length {K} (enter : K → M SaveArgs) c no_dist w :
  length (procs_after (_save_state_dict_after enter c no_dist w)) = length w.
Proof.
  assert (∀ u g, length (procs_after (_save_state_dict_group enter c u g)) = length g)
    as Hgroup.
  { intros u g. unfold _save_state_dict_group.
    rewrite until_collective_length; [apply with_distW_length|].
    intros w1. apply phases_length. }
  unfold _save_state_dict_after. destruct no_dist; [|apply Hgroup].
  rewrite <- (length_fmap snd w). symmetry. eapply Forall2_length.
  apply (separately_procs _ (fun _ _ => True)). intros x.
  specialize (Hgroup true [x]).
  destruct (procs_after _) as [|q [|??]]; try done. by repeat constructor.
Qed.

Lemma outcome_length {X} (o : Outcome (World X)) n :
  length (procs_after o) = n →
  match o with
  | inr w' => length w' = n
  | inl (e, ps) => length ps = n
  end.
Proof. destruct o as [[e ps]|w']; simpl; [done|]. by rewrite length_fmap. Qed.

Lemma _save_state_dict_length c no_dist w :
  match _save_state_dict c no_dist w with
  | inr w' => length w' = length w
  | inl (e, ps) => length ps = length w
  end.
Proof. apply outcome_length, _save_state_dict_after_length. Qed.


(** * Asynchronous save *)




(** * Two runs of the same steps *)

Lemma calls_app t ev : calls (t ++ [ev]) = calls t ++ calls [ev].
Proof. unfold calls. apply List.filter_app. Qed.

Lemma sim_same_effect l l' p q : sim l l' p q → same_effect p q.
Proof. by intros (? & _ & ? & _). Qed.

Lemma sim_log l l' ev p q : sim l l' p q → sim l l' (log ev p) (log ev q).
Proof.
  intros (He & Hg & Hc & Hd). repeat split; try done.
  simpl. by rewrite !calls_app, Hc.
Qed.

Lemma step_agree_bind {A A' B B'} (J1 : A → A' → Proc → Proc → Prop)
    (J2 : B → B' → Proc → Proc → Prop) (m : M A) (m' : M A') k k' p q :
  step_agree J1 (m p) (m' q) →
  (∀ a a' p1 q1, J1 a a' p1 q1 → step_agree J2 (k a p1) (k' a' q1)) →
  step_agree J2 (bind m k p) (bind m' k' q).
Proof.
  unfold bind. destruct (m p) as [[e|a] p1], (m' q) as [[e'|a'] q1]; simpl; try done.
  intros HJ Hk. by apply Hk.
Qed.

Lemma step_agree_impl {B B'} (J J' : B → B' → Proc → Proc → Prop) r r' :
  step_agree J r r' → (∀ b b' p q, J b b' p q → J' b b' p q) → step_agree J' r r'.
Proof. destruct r as [[e|b] p], r' as [[e'|b'] q]; simpl; auto. Qed.

Lemma step_agree_call {A} l l' ev (m : Method A) p q :
  sim l l' p q →
  step_agree (fun a a' p1 q1 => a = a' ∧ sim l l' p1 q1) (call ev m p) (call ev m q).
Proof.
  intros (He & Hg & Hc & Hd). unfold call. rewrite <- He.
  destruct (m (ext p)) as [[e|a] x]; simpl.
  - split; [done|]. split; [done|]. simpl. by rewrite !calls_app, Hc.
  - split; [done|]. repeat split; try done. simpl. by rewrite !calls_app, Hc.
Qed.

Lemma step_agree_deref l l' p q :
  sim l l' p q →
  step_agree (fun d d' p1 q1 => d = d' ∧ sim l l' p1 q1) (deref l p) (deref l' q).
Proof.
  intros Hs. pose proof Hs as (He & Hg & Hc & Hd). unfold deref. rewrite <- Hd.
  destruct (dicts p !! l); simpl; [done|]. split; [done|]. by eapply sim_same_effect.
Qed.

Lemma step_agree_set_global_metatadata l l' v p q :
  sim l l' p q →
  step_agree (fun _ _ p1 q1 => sim l l' p1 q1)
    (set_global_metatadata v p) (set_global_metatadata v q).
Proof. intros (He & Hg & Hc & Hd). by repeat split. Qed.


Lemma local_step_agree c c' p q :
  captured_agree c c' p q →
  step_agree (fun t t' p1 q1 => t = t' ∧ captured_agree c c' p1 q1)
    (local_step c p) (local_step c' q).
Proof.
  intros (Hw & Hpl & Hd & Hs). unfold local_step. rewrite <- Hw, <- Hpl, <- Hd.
  eapply step_agree_bind; [by apply step_agree_deref|].
  intros sd ? p1 q1 [<- Hs1].
  eapply step_agree_bind; [by apply step_agree_call|].
  intros [] ? p2 q2 [_ Hs2].
  eapply step_agree_bind; [by apply step_agree_call|].
  intros [] ? p3 q3 [_ Hs3].
  eapply step_agree_bind; [by apply step_agree_call|].
  intros lp ? p4 q4 [<- Hs4].
  eapply step_agree_bind; [by apply step_agree_call|].
  intros lp' ? p5 q5 [<- Hs5]. simpl. split; [done|]. by unfold captured_agree.
Qed.

Lemma global_step_agree c c' lps p q :
  captured_agree c c' p q →
  step_agree (fun t t' p1 q1 => t = t' ∧ captured_agree c c' p1 q1)
    (global_step c lps p) (global_step c' lps q).
Proof.
  intros (Hw & Hpl & Hd & Hs). unfold global_step. rewrite <- Hw, <- Hpl.
  eapply step_agree_bind; [by apply step_agree_call|].
  intros [gp md] ? p1 q1 [<- Hs1].
  eapply step_agree_bind; [by apply step_agree_set_global_metatadata|].
  intros [] [] p2 q2 Hs2.
  eapply step_agree_bind; [by apply step_agree_call|].
  intros gp' ? p3 q3 [<- Hs3]. simpl. split; [done|]. by unfold captured_agree.
Qed.

Lemma write_data_step_agree c c' cp p q :
  captured_agree c c' p q →
  step_agree (fun t t' p1 q1 => t = t' ∧ captured_agree c c' p1 q1)
    (write_data_step c cp p) (write_data_step c' cp q).
Proof.
  intros (Hw & Hpl & Hd & Hs). unfold write_data_step. rewrite <- Hw, <- Hpl.
  eapply step_agree_bind; [by apply step_agree_call|].
  intros flp ? p1 q1 [<- Hs1].
  eapply step_agree_bind; [by apply step_agree_call|].
  intros fut ? p2 q2 [<- Hs2].
  eapply step_agree_bind; [by apply step_agree_call|].
  intros [] ? p3 q3 [_ Hs3].
  eapply step_agree_impl; [by apply step_agree_call|].
  intros r ? p4 q4 [<- Hs4]. simpl. split; [done|]. by unfold captured_agree.
Qed.

Lemma finish_checkpoint_agree c c' results p q :
  captured_agree c c' p q →
  step_agree (fun t t' p1 q1 => t = t' ∧ captured_agree c c' p1 q1)
    (finish_checkpoint c results p) (finish_checkpoint c' results q).
Proof.
  intros (Hw & Hpl & Hd & Hs). unfold finish_checkpoint. rewrite <- Hw.
  pose proof Hs as (_ & Hg & _ & _).
  eapply (step_agree_bind (fun g g' p1 q1 => g = g' ∧ p1 = p ∧ q1 = q)).
  { unfold get_global_metatadata. simpl. by rewrite Hg. }
  intros g ? ? ? (<- & -> & ->).
  destruct g as [md|]; simpl.
  - eapply step_agree_bind; [by apply step_agree_call|].
    intros md' ? p1 q1 [<- Hs1].
    eapply step_agree_bind; [by apply step_agree_set_global_metatadata|].
    intros [] [] p2 q2 Hs2. simpl. split; [done|]. by unfold captured_agree.
  - split; [done|]. by eapply sim_same_effect.
Qed.

Section EachAgreement.
Context {A A' : Type} (J : A → A' → Proc → Proc → Prop).
Hypothesis J_effect : ∀ a a' p q, J a a' p q → same_effect p q.

Lemma worlds_agree_effect (w : World A) (w' : World A') :
  worlds_agree J w w' → Forall2 same_effect w.*2 w'.*2.
Proof.
  intros Hw. apply Forall2_fmap. eapply Forall2_impl; [exact Hw|].
  intros [a p] [a' q]. apply J_effect.
Qed.

Lemma each_agree {B B'} (J' : B → B' → Proc → Proc → Prop) (f : A → M B) (f' : A' → M B')
    w w' :
  (∀ b b' p q, J' b b' p q → same_effect p q) →
  (∀ a a' p q, J a a' p q → step_agree J' (f a p) (f' a' q)) →
  worlds_agree J w w' →
  outcome_agree (worlds_agree J') (each f w) (each f' w').
Proof.
  intros HJ' Hf Hw. induction Hw as [|[a p] [a' q] w w' Hx Hw IH]; simpl.
  { constructor. }
  simpl in Hx. specialize (Hf _ _ _ _ Hx). unfold step_agree in Hf.
  destruct (f a p) as [[e|b] p1], (f' a' q) as [[e'|b'] q1]; try done;
    destruct (each f w) as [[e1 ps]|r], (each f' w') as [[e1' qs]|r']; simpl in *; try done.
  - destruct Hf as [-> Hpq], IH as [_ Hps]. split; [done|]. by constructor.
  - destruct Hf as [-> Hpq]. split; [done|]. constructor; [done|].
    apply Forall2_fmap. eapply Forall2_impl; [exact IH|].
    intros [??] [??]. apply HJ'.
  - destruct IH as [-> Hps]. split; [done|]. constructor; [|done]. by eapply HJ'.
  - by constructor.
Qed.

Lemma at_rank_agree {B} c (f : A → M B) (f' : A' → M B) w w' :
  (∀ a a' p q, J a a' p q →
     step_agree (fun b b' p1 q1 => b = b' ∧ J a a' p1 q1) (f a p) (f' a' q)) →
  worlds_agree J w w' →
  outcome_agree (fun x y => x.1 = y.1 ∧ worlds_agree J x.2 y.2)
    (at_rank c f w) (at_rank c f' w').
Proof.
  intros Hf Hw. unfold at_rank.
  pose proof (worlds_agree_effect _ _ Hw) as Heff.
  destruct (w !! c) as [[a p]|] eqn:Hc.
  - destruct (Forall2_lookup_l _ _ _ _ _ Hw Hc) as ([a' q] & Hc' & Hx). rewrite Hc'.
    simpl in Hx. specialize (Hf _ _ _ _ Hx). unfold step_agree in Hf.
    destruct (f a p) as [[e|b] p1], (f' a' q) as [[e'|b'] q1]; simpl in *; try done.
    + destruct Hf as [-> Hpq]. split; [done|].
      rewrite !list_fmap_insert. by apply Forall2_insert.
    + destruct Hf as [-> Hpq]. split; [done|]. by apply Forall2_insert.
  - assert (w' !! c = None) as ->.
    { apply lookup_ge_None. apply lookup_ge_None in Hc.
      apply Forall2_length in Hw. lia. }
    done.
Qed.

End EachAgreement.

Section Agreement.
Context {A A' : Type} (J : A → A' → Proc → Proc → Prop).
Hypothesis J_effect : ∀ a a' p q, J a a' p q → same_effect p q.
Hypothesis J_log : ∀ ev a a' p q, J a a' p q → J a a' (log ev p) (log ev q).


Lemma J_with_effect {R} (x : A * R) y p q : (J_with J) x y p q → same_effect p q.
Proof. intros [_ HJ]. by eapply J_effect. Qed.

Lemma gathered_agree {T} tag (local : A → M T) (local' : A' → M T) a a' p q :
  step_agree (fun t t' p1 q1 => t = t' ∧ J a a' p1 q1) (local a p) (local' a' q) →
  step_agree (J_with J) (gathered tag local a p) (gathered tag local' a' q).
Proof.
  unfold gathered, bind, step_agree, J_with.
  destruct (local a p) as [[e|t] p1], (local' a' q) as [[e'|t'] q1]; simpl; try done.
  intros [-> HJ]. split; [done|]. by apply J_log.
Qed.

Lemma zip_agree {T R} (w : World (A * T)) (w' : World (A' * T)) (rs : list R) :
  worlds_agree (J_with J) w w' →
  worlds_agree (J_with J)
    (zip_with (fun '((a, _), p) r => ((a, r), p)) w rs)
    (zip_with (fun '((a, _), p) r => ((a, r), p)) w' rs).
Proof.
  intros Hw. revert rs. induction Hw as [|[[a t] p] [[a' t'] q] w w' Hx Hw IH];
    intros [|r rs]; simpl; try constructor; [|by apply IH].
  destruct Hx as [_ HJ]. by split.
Qed.

Lemma coordinator_agree {T B} c ts (global : A → list T → M B)
    (global' : A' → list T → M B) (w1 : World (A * T)) (w1' : World (A' * T)) :
  (∀ a a' p q, J a a' p q →
     step_agree (fun t t' p1 q1 => t = t' ∧ J a a' p1 q1)
       (global a ts p) (global' a' ts q)) →
  worlds_agree (J_with J) w1 w1' →
  outcome_agree (fun x y => x.1 = y.1 ∧ worlds_agree (J_with J) x.2 y.2)
    (at_rank c (fun '(a, _) => global a ts) w1)
    (at_rank c (fun '(a, _) => global' a ts) w1').
Proof.
  intros Hglobal Hw1. apply (at_rank_agree (J_with J)); [|  |exact Hw1].
  - intros. by eapply J_with_effect.
  - intros [a t] [a' t'] p q [Ht HJ]. simpl in *. subst t'.
    eapply step_agree_impl; [by apply Hglobal|].
    intros r ? p1 q1 [<- HJ1]. split; [done|]. by split.
Qed.

Section Collectives.
Context {T R G : Type}.
Context (local : A → M T) (local' : A' → M T).
Hypothesis local_agree : ∀ a a' p q, J a a' p q →
  step_agree (fun t t' p1 q1 => t = t' ∧ J a a' p1 q1) (local a p) (local' a' q).

Lemma gather_agree tag w w' :
  worlds_agree J w w' →
  outcome_agree (fun w1 w1' => w1.*1.*2 = w1'.*1.*2 ∧ worlds_agree (J_with J) w1 w1')
    (each (gathered tag local) w) (each (gathered tag local') w').
Proof.
  intros Hw.
  pose proof (each_agree J (J_with J) (gathered tag local) (gathered tag local') w w'
                (fun b b' p q => J_with_effect b b' p q)
                (fun a a' p q HJ => gathered_agree tag _ _ _ _ _ _ (local_agree _ _ _ _ HJ))
                Hw) as Hag.
  destruct (each (gathered tag local) w) as [[e ps]|w1],
           (each (gathered tag local') w') as [[e' qs]|w1']; simpl in *; try done.
  split; [|done]. clear -Hag.
  induction Hag as [|[[a t] p] [[a' t'] q] ?? [Ht _] _ IH]; [done|].
  cbn in *. by f_equal.
Qed.

Lemma reduce_scatter_agree u c tag
    (global : A → list T → M (list R)) (global' : A' → list T → M (list R)) w w' :
  (∀ ts a a' p q, J a a' p q →
     step_agree (fun t t' p1 q1 => t = t' ∧ J a a' p1 q1)
       (global a ts p) (global' a' ts q)) →
  worlds_agree J w w' →
  outcome_agree (worlds_agree (J_with J))
    (reduce_scatter u c tag local global w) (reduce_scatter u c tag local' global' w').
Proof.
  intros Hglobal Hw. unfold reduce_scatter. destruct u.
  - pose proof (gather_agree tag _ _ Hw) as H1.
    destruct (each (gathered tag local) w) as [[e ps]|w1],
             (each (gathered tag local') w') as [[e' qs]|w1']; simpl in H1; try done.
    destruct H1 as [Hdata Hw1]. rewrite <- Hdata. simpl.
    pose proof (coordinator_agree c (w1.*1.*2) global global' w1 w1'
                  (Hglobal _) Hw1) as H2.
    destruct (at_rank c _ w1) as [[e ps]|[rs w2]],
             (at_rank c _ w1') as [[e' qs]|[rs' w2']]; simpl in H2; try done.
    destruct H2 as [<- Hw2]. simpl.
    rewrite <- (Forall2_length _ _ _ Hw2).
    destruct (decide (length w2 ≤ length rs)).
    + eapply (each_agree (J_with J)); [| |by apply zip_agree].
      * intros. by eapply J_with_effect.
      * intros [a r] [a' r'] p q [Hr HJ]. simpl in *. subst r'.
        unfold received, bind, emit, ret. simpl. split; [done|]. by apply J_log.
    + simpl. split; [done|]. apply Forall2_fmap. eapply Forall2_impl; [exact Hw2|].
      intros [??] [??]. apply J_with_effect.
  - eapply (each_agree J); [| |exact Hw].
    + intros. by eapply J_with_effect.
    + intros a a' p q HJ.
      eapply step_agree_bind; [by apply local_agree|].
      intros t ? p1 q1 [<- HJ1].
      eapply step_agree_bind; [by apply Hglobal|].
      intros rs ? p2 q2 [<- HJ2].
      destruct rs as [|r rs]; simpl; [|done].
      split; [done|]. by eapply J_effect.
Qed.

Lemma all_reduce_agree u c tag
    (global : A → list T → M G) (global' : A' → list T → M G) w w' :
  (∀ ts a a' p q, J a a' p q →
     step_agree (fun t t' p1 q1 => t = t' ∧ J a a' p1 q1)
       (global a ts p) (global' a' ts q)) →
  worlds_agree J w w' →
  outcome_agree (worlds_agree (fun g g' p q => g = g' ∧ same_effect p q))
    (all_reduce u c tag local global w) (all_reduce u c tag local' global' w').
Proof.
  intros Hglobal Hw. unfold all_reduce. destruct u.
  - pose proof (gather_agree tag _ _ Hw) as H1.
    destruct (each (gathered tag local) w) as [[e ps]|w1],
             (each (gathered tag local') w') as [[e' qs]|w1']; simpl in H1; try done.
    destruct H1 as [Hdata Hw1]. rewrite <- Hdata. simpl.
    pose proof (coordinator_agree c (w1.*1.*2) global global' w1 w1'
                  (Hglobal _) Hw1) as H2.
    destruct (at_rank c _ w1) as [[e ps]|[g w2]],
             (at_rank c _ w1') as [[e' qs]|[g' w2']]; simpl in H2; try done.
    destruct H2 as [<- Hw2]. simpl.
    eapply (each_agree (J_with J)); [| |exact Hw2].
    + by intros ???? [_ ?].
    + intros [a t] [a' t'] p q [_ HJ]. simpl in *.
      unfold bind, emit, ret. simpl. split; [done|]. eapply J_effect. by apply J_log.
  - eapply (each_agree J); [| |exact Hw].
    + by intros ???? [_ ?].
    + intros a a' p q HJ.
      eapply step_agree_bind; [by apply local_agree|].
      intros t ? p1 q1 [<- HJ1].
      eapply step_agree_impl; [by apply Hglobal|].
      intros g ? p2 q2 [<- HJ2]. split; [done|]. by eapply J_effect.
Qed.

End Collectives.
End Agreement.

(** * The deprecated entry point *)


Lemma captured_agree_effect c c' p q : captured_agree c c' p q → same_effect p q.
Proof. intros (_ & _ & _ & Hs). by eapply sim_same_effect. Qed.

Lemma captured_agree_log ev c c' p q :
  captured_agree c c' p q → captured_agree c c' (log ev p) (log ev q).
Proof.
  intros (? & ? & ? & Hs). unfold captured_agree.
  split; [done|]. split; [done|]. split; [done|]. by apply sim_log.
Qed.

Lemma imap_agree {A A' B B'} (R : A → A' → Prop) (R' : B → B' → Prop)
    (f : nat → A → B) (g : nat → A' → B') l l' :
  (∀ i x y, R x y → R' (f i x) (g i y)) →
  Forall2 R l l' → Forall2 R' (imap f l) (imap g l').
Proof.
  intros Hfg Hl. revert f g Hfg.
  induction Hl as [|x y l l' Hxy Hl IH]; intros f g Hfg; simpl; constructor.
  - by apply Hfg.
  - apply IH. intros i. apply Hfg.
Qed.

Lemma enter_save_state_dict_agree a a' d p q :
  args_agree a a' p q →
  step_agree captured_agree (enter_save_state_dict (a, d) p) (enter_save_state_dict (a', d) q).
Proof.
  intros (Hw & Hpl & Hs). unfold enter_save_state_dict. rewrite <- Hw, <- Hpl.
  eapply (step_agree_bind
            (fun pl pl' p1 q1 => pl = pl' ∧ sim (state_dict a) (state_dict a') p1 q1)).
  { destruct (planner a); [done|]. by apply step_agree_call. }
  intros pl ? p1 q1 [<- Hs1].
  eapply step_agree_bind; [by apply step_agree_set_global_metatadata|].
  intros [] [] p2 q2 Hs2. simpl. by unfold captured_agree.
Qed.

Lemma phases_agree no_dist c w0 w0' :
  worlds_agree captured_agree w0 w0' →
  outcome_agree (worlds_agree (fun g g' p q => g = g' ∧ same_effect p q))
    (w1 <-- plan_phase no_dist c w0 ;; write_phase no_dist c w1)
    (w1 <-- plan_phase no_dist c w0' ;; write_phase no_dist c w1).
Proof.
  intros H0.
  pose proof (reduce_scatter_agree captured_agree captured_agree_effect
                (fun ev => captured_agree_log ev) local_step local_step local_step_agree
                (negb no_dist) c "plan" global_step global_step w0 w0'
                (fun ts a a' => global_step_agree a a' ts) H0) as H1.
  unfold plan_phase.
  destruct (reduce_scatter _ _ _ _ _ w0) as [[e ps]|w1],
           (reduce_scatter _ _ _ _ _ w0') as [[e' qs]|w1']; simpl in *; try done.
  unfold write_phase.
  eapply (all_reduce_agree (J_with captured_agree)); [| | | |exact H1].
  - intros. by eapply (J_with_effect captured_agree captured_agree_effect).
  - intros ev [cap cp] [cap' cp'] p q [? HJ]. split; [done|]. by apply captured_agree_log.
  - intros [cap cp] [cap' cp'] p q [Hcp HJ]. simpl in *. subst cp'.
    eapply step_agree_impl; [by apply write_data_step_agree|].
    intros t ? p1 q1 [<- HJ1]. split; [done|]. by split.
  - intros ts [cap cp] [cap' cp'] p q [Hcp HJ]. simpl in *. subst cp'.
    eapply step_agree_impl; [by apply (finish_checkpoint_agree cap cap' ts)|].
    intros t ? p1 q1 [<- HJ1]. split; [done|]. by split.
Qed.

Lemma step_agree_effect {B B'} (J : B → B' → Proc → Proc → Prop) r r' :
  (∀ b b' p q, J b b' p q → same_effect p q) →
  step_agree J r r' → same_effect r.2 r'.2.
Proof.
  intros HJ. destruct r as [[e|b] p], r' as [[e'|b'] q]; simpl; try done.
  - by intros [_ ?].
  - apply HJ.
Qed.

Lemma until_collective_agree {A A' B B' X X'} (J : A → A' → Proc → Proc → Prop)
    (J' : B → B' → Proc → Proc → Prop) (R : X → X' → Prop)
    (own : A → M B) (own' : A' → M B') blocked blocked' together together' w w' :
  (∀ b b' p q, J' b b' p q → same_effect p q) →
  (∀ a a' p q, J a a' p q → step_agree J' (own a p) (own' a' q)) →
  (∀ b b' p q, J' b b' p q → same_effect (blocked b p).2 (blocked' b' q).2) →
  (∀ w1 w1', worlds_agree J' w1 w1' → outcome_agree R (together w1) (together' w1')) →
  worlds_agree J w w' →
  outcome_agree R (until_collective own blocked together w)
                  (until_collective own' blocked' together' w').
Proof.
  intros HJ' Hown Hblocked Htogether Hw. unfold until_collective.
  pose proof (each_agree J J' own own' w w' HJ' Hown Hw) as H1.
  destruct (each own w) as [[e ps]|w1], (each own' w') as [[e' qs]|w1'];
    simpl in H1; try done; [|by apply Htogether].
  destruct H1 as [-> _]. split; [done|].
  apply Forall2_fmap. eapply Forall2_impl; [exact Hw|].
  intros [a p] [a' q] Hx. simpl in *. specialize (Hown _ _ _ _ Hx).
  destruct (own a p) as [[e|b] p1], (own' a' q) as [[e1|b'] q1]; simpl in *; try done.
  - by destruct Hown.
  - by apply Hblocked.
Qed.

Lemma separately_agree {A A' X} (J : A → A' → Proc → Proc → Prop)
    (run : World A → Outcome (World X)) (run' : World A' → Outcome (World X)) w w' :
  (∀ x y, J x.1 y.1 x.2 y.2 →
     outcome_agree (worlds_agree (fun g g' p q => g = g' ∧ same_effect p q))
       (run [x]) (run' [y])) →
  worlds_agree J w w' →
  outcome_agree (worlds_agree (fun g g' p q => g = g' ∧ same_effect p q))
    (separately run w) (separately run' w').
Proof.
  intros Hrun Hw.
  assert (∀ (r r' : World X),
            worlds_agree (fun g g' p q => g = g' ∧ same_effect p q) r r' →
            Forall2 same_effect r.*2 r'.*2) as Heff.
  { intros r r' Hr. apply Forall2_fmap. eapply Forall2_impl; [exact Hr|].
    by intros [??] [??] [_ ?]. }
  induction Hw as [|x y w w' Hx Hw IH]; cbn [separately]; [constructor|].
  specialize (Hrun _ _ Hx).
  destruct (run [x]) as [[e ps]|r], (run' [y]) as [[e' qs]|r']; simpl in Hrun; try done;
    destruct (separately run w) as [[e1 ps1]|r1], (separately run' w') as [[e1' qs1]|r1'];
    simpl in IH; try done; simpl.
  - destruct Hrun as [-> ?], IH as [_ ?]. split; [done|]. by apply Forall2_app.
  - destruct Hrun as [-> ?]. split; [done|]. apply Forall2_app; [done|by apply Heff].
  - destruct IH as [-> ?]. split; [done|]. apply Forall2_app; [by apply Heff|done].
  - by apply Forall2_app.
Qed.

Lemma blocked_agree c c' p q :
  captured_agree c c' p q →
  same_effect
    ((if use_dist (c_distW c) then waiting "plan" local_step c else ret tt) p).2
    ((if use_dist (c_distW c') then waiting "plan" local_step c' else ret tt) q).2.
Proof.
  intros Hc. pose proof Hc as (_ & _ & <- & _).
  destruct (use_dist (c_distW c)); [|by eapply captured_agree_effect].
  unfold waiting.
  eapply (step_agree_effect (fun _ _ p1 q1 => same_effect p1 q1)); [done|].
  eapply step_agree_bind.
  - apply (gathered_agree captured_agree (fun ev => captured_agree_log ev)).
    by apply local_step_agree.
  - intros x y p1 q1 HJ. simpl.
    by eapply (J_with_effect captured_agree captured_agree_effect).
Qed.

Lemma _save_state_dict_group_agree {K K'} (J : K → K' → Proc → Proc → Prop)
    (enter : K → M SaveArgs) (enter' : K' → M SaveArgs) c no_dist w w' :
  (∀ k k' p q, J k k' p q → step_agree args_agree (enter k p) (enter' k' q)) →
  worlds_agree J w w' →
  outcome_agree (worlds_agree (fun g g' p q => g = g' ∧ same_effect p q))
    (_save_state_dict_group enter c no_dist w)
    (_save_state_dict_group enter' c no_dist w').
Proof.
  intros Henter Hw. unfold _save_state_dict_group.
  eapply (until_collective_agree (fun x y p q => x.2 = y.2 ∧ J x.1 y.1 p q)
            captured_agree).
  - apply captured_agree_effect.
  - intros [k d] [k' d'] p q [Hd HJ]. simpl in *. subst d'.
    eapply step_agree_bind; [by apply Henter|].
    intros a a' p1 q1 Ha. by apply enter_save_state_dict_agree.
  - apply blocked_agree.
  - apply phases_agree.
  - unfold with_distW. eapply imap_agree; [|exact Hw].
    by intros i [a p] [a' q] Ha.
Qed.

Lemma _save_state_dict_after_agree {K K'} (J : K → K' → Proc → Proc → Prop)
    (enter : K → M SaveArgs) (enter' : K' → M SaveArgs) c no_dist w w' :
  (∀ k k' p q, J k k' p q → step_agree args_agree (enter k p) (enter' k' q)) →
  worlds_agree J w w' →
  outcome_agree (worlds_agree (fun g g' p q => g = g' ∧ same_effect p q))
    (_save_state_dict_after enter c no_dist w)
    (_save_state_dict_after enter' c no_dist w').
Proof.
  intros Henter Hw. unfold _save_state_dict_after. destruct no_dist.
  - eapply separately_agree; [|exact Hw]. intros x y Hx.
    eapply _save_state_dict_group_agree; [exact Henter|]. by constructor.
  - by eapply _save_state_dict_group_agree.
Qed.

Lemma _save_state_dict_agree c no_dist w w' :
  worlds_agree args_agree w w' →
  outcome_agree (worlds_agree (fun g g' p q => g = g' ∧ same_effect p q))
    (_save_state_dict c no_dist w) (_save_state_dict c no_dist w').
Proof.
  intros Hw. unfold _save_state_dict.
  by eapply (_save_state_dict_after_agree args_agree).
Qed.

Lemma snapshot_items_plain (items : Dict) x :
  Forall (fun kv => isinstance_Stateful kv.2 = false) items →
  snapshot_items items x = (inr items, x) ∧ stateful_calls items = [].
Proof.
  induction 1 as [|[key [v|o]] rest Hplain _ [IH1 IH2]]; simpl in *; [done| |done].
  rewrite IH1. split; [done|]. exact IH2.
Qed.


Lemma enter_save_plain dist_ready cid a k p q :
  after_reset cid a k p q →
  ∃ a' q', enter_save dist_ready k q = (inr a', q') ∧ args_agree a a' p q'.
Proof.
  intros (-> & He & Hg & Hc & Hd & items & Hsd & Hnd & Hplain).
  unfold enter_save. cbn [as_kwargs k_storage_writer k_checkpoint_id k_state_dict
                          k_process_group k_planner _storage_setup].
  set (q0 := if dist_ready then q else log (Warn warn_no_dist) q).
  assert ((if negb dist_ready then emit (Warn warn_no_dist) else ret tt) q = (inr tt, q0))
    as Hwarn by (by destruct dist_ready).
  assert (ext q0 = ext q ∧ global_metatadata q0 = global_metatadata q ∧
          calls (trace q0) = calls (trace q) ∧ dicts q0 = dicts q) as (He0 & Hg0 & Hc0 & Hd0).
  { unfold q0. destruct dist_ready; [done|]. repeat split. simpl.
    rewrite calls_app. simpl. by rewrite app_nil_r. }
  destruct (snapshot_items_plain items (ext q0) Hplain) as [Hsnap Hcalls].
  destruct (_stateful_to_state_dict_inr (state_dict a) items q0 items (ext q0))
    as [Hres Hnew]; [by rewrite Hd0, <- Hd | done | done |].
  eexists _, _. split.
  - unfold bind at 1. rewrite Hwarn. unfold bind at 1. unfold ret at 1.
    unfold bind at 1. rewrite Hres. reflexivity.
  - unfold args_agree, sim. simpl. rewrite Hcalls, app_nil_r, lookup_insert_eq.
    clearbody q0. repeat split; [by rewrite He0 | by rewrite Hg0 | by rewrite Hc0 | done].
Qed.

(** C9, amended (the deprecated entry point).  For state dicts without
    Stateful elements, with coordinator rank 0 and [no_dist] equal to "the
    process group is not initialised", [save_state_dict] agrees with
    resetting the writer and then calling [save] with that writer: both fail
    with the same exception or both return the same metadata on every rank,
    and they leave the external objects of every process in the same state
    after the same calls.  They differ in the warning they log. *)
Theorem deprecated_save_agrees (dist_ready : bool) (cid : option CheckpointId) w :
  Forall (fun x => plain_state_dict x.1 x.2) w →
  outcome_agree (worlds_agree (fun g g' p q => g = g' ∧ same_effect p q))
    (save_state_dict 0 (negb dist_ready) w)
    (reset_then_save dist_ready cid w).
Proof.
  intros Hplain. unfold save_state_dict, reset_then_save.
  eapply (_save_state_dict_after_agree
            (fun a a' p q => a = a' ∧ p = q ∧ plain_state_dict a p)).
  - intros a ? p ? (<- & <- & Hp).
    unfold enter_save_state_dict_deprecated.
    change (bind (emit (Warn warn_deprecated)) ?k p) with (k tt (log (Warn warn_deprecated) p)).
    unfold bind, call. simpl.
    destruct (reset (storage_writer a) (ext p)) as [[e|[]] x]; simpl.
    + split; [done|]. split; [done|]. simpl.
      rewrite !calls_app. simpl. by rewrite app_nil_r.
    + match goal with
      | |- context [args_agree a _ ?p1] =>
          match goal with
          | |- context [enter_save _ _ ?q1] =>
              destruct (enter_save_plain dist_ready cid a (as_kwargs cid a) p1 q1)
                as (a' & q' & -> & Ha); [|exact Ha]
          end
      end.
      repeat split; try done. simpl. rewrite !calls_app. simpl. by rewrite app_nil_r.
  - clear -Hplain. induction Hplain as [|[a p] w Hp _ IH]; constructor; [|done].
    by repeat split.
Qed.

(** * Further properties of the resolution *)

Lemma for_each_resolve_failure (new : loc) (items : Dict) : ∀ p e x',
  is_Some (dicts p !! new) →
  snapshot_items items (ext p) = (inl e, x') →
  ∃ p',
    for_each items (fun '(key, elem) =>
      v <- match elem with
           | Obj o => call Call_state_dict (state_dict_of o)
           | Plain _ => ret elem
           end ;;
      setitem new key v) p
    = (inl (Raised e), p') ∧
    ext p' = x' ∧
    global_metatadata p' = global_metatadata p ∧
    (∀ l, l ≠ new → dicts p' !! l = dicts p !! l).
Proof.
  unfold bind, ret, call, setitem.
  induction items as [|[key elem] rest IH]; intros p e x' [acc Hnew] Hsnap; [done|].
  rewrite for_each_cons. unfold bind at 1.
  destruct elem as [v|o]; simpl in Hsnap.
  - destruct (snapshot_items rest (ext p)) as [[e1|r] x1] eqn:Hr; [|done].
    injection Hsnap as -> ->. rewrite Hnew.
    edestruct (IH {| dicts := <[new:=dict_setitem acc key (Plain v)]> (dicts p);
                     ext := ext p; global_metatadata := global_metatadata p;
                     trace := trace p |}) as (p' & Hrun & He & Hg & Hd);
      [simpl; rewrite lookup_insert_eq; eauto | exact Hr |].
    exists p'. split; [exact Hrun|]. split; [done|]. split; [done|].
    intros l Hl. rewrite (Hd l Hl). simpl. by rewrite lookup_insert_ne.
  - destruct (state_dict_of o (ext p)) as [[e1|s] x1] eqn:Hs; simpl.
    + injection Hsnap as -> ->. eexists. split; [reflexivity|]. by repeat split.
    + destruct (snapshot_items rest x1) as [[e1|r] x2] eqn:Hr; [|done].
      injection Hsnap as -> ->. rewrite Hnew.
      edestruct (IH {| dicts := <[new:=dict_setitem acc key s]> (dicts p);
                       ext := x1; global_metatadata := global_metatadata p;
                       trace := trace p ++ [Call_state_dict] |})
        as (p' & Hrun & He & Hg & Hd);
        [simpl; rewrite lookup_insert_eq; eauto | exact Hr |].
      exists p'. split; [exact Hrun|]. split; [done|]. split; [done|].
      intros l Hl. rewrite (Hd l Hl). simpl. by rewrite lookup_insert_ne.
Qed.

Lemma _stateful_to_state_dict_inl (state_dict : loc) (items : Dict) p e x' :
  dicts p !! state_dict = Some items →
  snapshot_items items (ext p) = (inl e, x') →
  ∃ p', _stateful_to_state_dict state_dict p = (inl (Raised e), p') ∧ ext p' = x'.
Proof.
  intros Hsd Hsnap.
  set (new := fresh (dom (dicts p))).
  assert (dicts p !! new = None) as Hnew.
  { apply not_elem_of_dom. apply is_fresh. }
  assert (new ≠ state_dict) as Hne by congruence.
  destruct (for_each_resolve_failure new items
              {| dicts := <[new:=[]]> (dicts p); ext := ext p;
                 global_metatadata := global_metatadata p; trace := trace p |} e x')
    as (p' & Hrun & He & _ & _); [simpl; rewrite lookup_insert_eq; eauto | exact Hsnap |].
  exists p'. split; [|done].
  unfold _stateful_to_state_dict.
  unfold bind at 1. unfold new_dict. fold new.
  unfold bind at 1. unfold deref. simpl. rewrite lookup_insert_ne, Hsd by done.
  unfold bind at 1.
  match goal with
  | |- context [for_each ?a ?b ?c] =>
      replace (for_each a b c) with (@inl (Exn UserExn) unit (Raised e), p')
        by (symmetry; exact Hrun)
  end. done.
Qed.


(** * Barriers between the phases *)

Lemma extends_not_called lo hi (P : Event → Prop) p p' :
  (∀ ev, P ev → hi ≤ stage_of ev) →
  extends lo hi p p' → called_in_run P p p' → False.
Proof.
  intros HP (evs & Ht & _ & Hhi) (evs' & Ht' & Hex).
  rewrite Ht in Ht'. apply app_inv_head in Ht' as <-.
  apply Exists_exists in Hex as (ev & Hin & Hev).
  rewrite Forall_forall in Hhi. specialize (Hhi ev Hin). specialize (HP ev Hev). lia.
Qed.

Lemma plan_phase_extends no_dist c w0 :
  Forall2 (extends 1 9) w0.*2 (procs_after (plan_phase no_dist c w0)).
Proof.
  apply (reduce_scatter_extends 1 5 6 8 "plan" local_step
           ltac:(lia) ltac:(lia) ltac:(lia) local_step_between eq_refl
           (negb no_dist) c global_step w0
           (fun a ts => global_step_between a ts) eq_refl).
Qed.

(** X3.  With a communication backend, no rank writes before the plan
    phase is over for the whole group: when, in any run of
    [_save_state_dict], returning or failing, some rank has called
    [write_data], then on every rank the local step ([set_up_planner] to
    [prepare_local_plan]) has returned, and the global step
    ([create_global_plan], [prepare_global_plan]) has returned on the
    coordinator, on the local plans of all ranks in rank order. *)
Theorem write_only_after_global_plan (c : nat) w j pj pj' :
  w.*2 !! j = Some pj →
  procs_after (_save_state_dict c false w) !! j = Some pj' →
  called_in_run is_write_data pj pj' →
  ∃ w0 w1 all_local_plans global_plan,
    each enter_save_state_dict (with_distW true c w) = inr w0 ∧
    plan_phase false c w0 = inr w1 ∧
    length all_local_plans = length w ∧
    (∀ i cap p, w0 !! i = Some (cap, p) →
       ∃ lp p1, local_step cap p = (inr lp, p1) ∧ all_local_plans !! i = Some lp) ∧
    (∃ capc pc pc', w0.*1 !! c = Some capc ∧
       global_step capc all_local_plans pc = (inr global_plan, pc')).
Proof.
  intros Hj Hj' Hcalled.
  destruct (_save_state_dict_dist_cases c w) as [(w0 & Hw0 & Heq)|Hbl]; cycle 1.
  { exfalso. eapply (extends_not_called 0 6 is_write_data);
      [|eapply Forall2_lookup_lr; eauto|exact Hcalled].
    intros [] ?; simpl in *; try done; lia. }
  rewrite Heq in Hj'. clear Heq.
  pose proof (each_extends 0 1 enter_save_state_dict (with_distW true c w)
                enter_save_state_dict_between) as H0.
  rewrite with_distW_procs, Hw0 in H0. simpl in H0.
  pose proof (plan_phase_extends false c w0) as H1.
  destruct (plan_phase false c w0) as [[e ps]|w1] eqn:Hw1; simpl in H1, Hj'.
  { exfalso. eapply (extends_not_called 0 9 is_write_data);
      [|eapply Forall2_lookup_lr;
        [eapply (extends_list_trans 0 1 9); [| |exact H0|exact H1]; lia|eauto..]
       |exact Hcalled].
    intros [] ?; simpl in *; try done; lia. }
  unfold plan_phase in Hw1. cbn [negb] in Hw1.
  destruct (reduce_scatter_group _ _ _ _ _ _ Hw1) as (ts & rs & Hc & Hts & _ & Hall).
  exists w0, w1, ts, rs. split; [done|]. split; [done|].
  split; [rewrite Hts; by apply each_length in Hw0; rewrite Hw0, with_distW_length|].
  split.
  - intros i cap p Hi. destruct (Hall i cap p Hi) as (t & p1 & _ & _ & Hl & Ht & _).
    eauto.
  - destruct (lookup_lt_is_Some_2 w0 c) as [[capc pc] Hcc]; [lia|].
    destruct (Hall c capc pc Hcc) as (t & p1 & p2 & r & _ & _ & Hg & _).
    rewrite decide_True in Hg by done.
    exists capc, (log (Collective "plan" Gather) p1), p2.
    split; [|done]. by rewrite list_lookup_fmap, Hcc.
Qed.

(** X4.  With a communication backend, the checkpoint is only finished
    after every rank has written: when, in any run of [_save_state_dict],
    returning or failing, some rank has called [finish], then the plan phase
    has returned and on every rank [finish_plan], [write_data], [wait] and
    [value] have returned. *)
Theorem finish_only_after_all_writes (c : nat) w j pj pj' :
  w.*2 !! j = Some pj →
  procs_after (_save_state_dict c false w) !! j = Some pj' →
  called_in_run is_finish pj pj' →
  ∃ w0 w1,
    each enter_save_state_dict (with_distW true c w) = inr w0 ∧
    plan_phase false c w0 = inr w1 ∧
    length w1 = length w ∧
    ∀ i cap central_plan p1, w1 !! i = Some ((cap, central_plan), p1) →
      ∃ results p2, write_data_step cap central_plan p1 = (inr results, p2).
Proof.
  intros Hj Hj' Hcalled.
  assert (∀ ev, is_finish ev → 14 ≤ stage_of ev) as Hst
    by (intros [] ?; simpl in *; try done; lia).
  destruct (_save_state_dict_dist_cases c w) as [(w0 & Hw0 & Heq)|Hbl]; cycle 1.
  { exfalso. eapply (extends_not_called 0 14 is_finish);
      [exact Hst| |exact Hcalled].
    eapply extends_weaken; [| |eapply Forall2_lookup_lr; eauto]; lia. }
  rewrite Heq in Hj'. clear Heq.
  pose proof (each_extends 0 1 enter_save_state_dict (with_distW true c w)
                enter_save_state_dict_between) as H0.
  rewrite with_distW_procs, Hw0 in H0. simpl in H0.
  pose proof (plan_phase_extends false c w0) as H1.
  assert (Forall2 (extends 0 9) w.*2 (procs_after (plan_phase false c w0))) as H01.
  { eapply (extends_list_trans 0 1 9); [| |exact H0|exact H1]; lia. }
  destruct (plan_phase false c w0) as [[e ps]|w1] eqn:Hw1; simpl in H01, Hj'.
  { exfalso. eapply (extends_not_called 0 14 is_finish);
      [exact Hst| |exact Hcalled].
    eapply extends_weaken; [| |eapply Forall2_lookup_lr; eauto]; lia. }
  exists w0, w1. split; [done|]. split; [done|].
  split.
  { unfold plan_phase in Hw1. apply reduce_scatter_length in Hw1.
    apply each_length in Hw0. rewrite with_distW_length in Hw0. lia. }
  unfold write_phase in Hj'. cbn [negb] in Hj'. unfold all_reduce in Hj'.
  set (local := fun '(cap, cp) => write_data_step cap cp) in *.
  pose proof (each_extends 9 14 (gathered "write" local) w1
                (gathered_between 9 13 14 15 "write" local
                   ltac:(lia) ltac:(lia) ltac:(lia)
                   (fun x => let '(cap, cp) := x in write_data_step_between cap cp)
                   eq_refl)) as H2.
  destruct (each (gathered "write" local) w1) as [[e ps]|w2] eqn:Hw2; simpl in H2, Hj'.
  { exfalso. eapply (extends_not_called 0 14 is_finish);
      [exact Hst| |exact Hcalled].
    eapply Forall2_lookup_lr; [|eauto..].
    eapply (extends_list_trans 0 9 14); [| |exact H01|exact H2]; lia. }
  intros i cap cp p1 Hi.
  destruct (gather_lookup _ _ _ _ _ _ _ Hw2 Hi) as (t & p2 & Hl & _). eauto.
Qed.

(** * The data the coordinator passes on *)

(** X5.  In a run of [_save_state_dict] with a communication backend that
    returns, the [finish] that gives the result is the one of the writer of
    the coordinator rank; the metadata it receives is the metadata the
    [create_global_plan] of the coordinator's planner (the given one, or the
    default when none was given) returned, and the results it receives are
    the write results of all ranks, in rank order; what it returns is what
    every rank returns. *)
Theorem finish_receives_plan_metadata_and_all_results (c : nat) w w' :
  _save_state_dict c false w = inr w' →
  ∃ a pc pl all_local_plans global_plan md0 all_results metadata x1 x1' x2 x2' w0 w1,
    w !! c = Some (a, pc) ∧
    match planner a with
    | Some given => pl = given
    | None => ∃ x, DefaultSavePlanner (ext pc) = (inr pl, x)
    end ∧
    create_global_plan pl all_local_plans x1 = (inr (global_plan, Some md0), x1') ∧
    finish (storage_writer a) md0 all_results x2 = (inr metadata, x2') ∧
    w'.*1 = replicate (length w) metadata ∧
    length all_results = length w ∧
    each enter_save_state_dict (with_distW true c w) = inr w0 ∧
    plan_phase false c w0 = inr w1 ∧
    ∀ i cap central_plan p1, w1 !! i = Some ((cap, central_plan), p1) →
      ∃ results p2, write_data_step cap central_plan p1 = (inr results, p2) ∧
                    all_results !! i = Some results.
Proof.
  intros Hrun. apply _save_state_dict_inr in Hrun as (w0 & w1 & Hw0 & Hw1 & Hw').
  cbn [negb] in *.
  pose proof (each_length _ _ _ Hw0) as Hl0. rewrite with_distW_length in Hl0.
  unfold plan_phase in Hw1. cbn [negb] in Hw1.
  destruct (reduce_scatter_group _ _ _ _ _ _ Hw1) as (lps & gp & Hc & _ & Hl1 & Hplan).
  unfold write_phase in Hw'. cbn [negb] in Hw'.
  destruct (all_reduce_group _ _ _ _ _ _ Hw') as (res & md & _ & Hres & Hl' & Hwrite).
  destruct (lookup_lt_is_Some_2 w c) as [[a pc] Hwc]; [lia|].
  pose proof (with_distW_lookup true c _ _ _ _ Hwc) as Hwc0.
  destruct (each_lookup _ _ _ _ _ _ Hw0 Hwc0) as (capc & p0 & Hent & Hc0).
  apply enter_save_state_dict_inr in Hent as (_ & Hsw & _ & Hpl & _).
  destruct (Hplan c capc p0 Hc0) as (lp & p1 & p2 & cp & _ & _ & Hg & _ & Hc1).
  rewrite decide_True in Hg by done.
  apply global_step_inr in Hg as (gp0 & mdo & x & Hcg & _ & Hmd & _).
  destruct (Hwrite c (capc, cp) _ Hc1) as (t & q1 & q2 & Hwd & _ & Hfin & _).
  rewrite decide_True in Hfin by done.
  apply write_data_step_inr in Hwd as (flp & _ & Hmd1 & _).
  apply finish_checkpoint_inr in Hfin as (md0 & y & Hmd2 & Hfin & _).
  simpl in Hmd1, Hmd2. rewrite Hmd1 in Hmd2. subst mdo. rewrite Hmd2 in Hcg.
  exists a, pc, (c_planner capc), lps, gp0, md0, res, md.
  eexists _, _, _, _, w0, w1.
  split; [done|]. split.
  { destruct (planner a) as [given|]; [by destruct Hpl|]. by destruct Hpl as [? _]. }
  split; [exact Hcg|]. split; [rewrite <- Hsw; exact Hfin|].
  split.
  { apply list_eq. intros i. rewrite list_lookup_fmap.
    destruct (decide (i < length w)) as [Hi|Hi].
    - destruct (lookup_lt_is_Some_2 w1 i) as [[[cap cpi] pi] Hi1]; [lia|].
      destruct (Hwrite i _ _ Hi1) as (? & ? & ? & _ & _ & _ & ->). simpl.
      symmetry. by apply lookup_replicate_2.
    - rewrite (lookup_ge_None_2 w') by lia. simpl.
      symmetry. apply lookup_replicate_None. lia. }
  split; [lia|]. split; [done|]. split; [done|].
  intros i cap cpi pi Hi1.
  destruct (Hwrite i _ _ Hi1) as (t' & r1 & r2 & Hwd & Ht & _). eauto.
Qed.

(** * The deprecated entry point in every run *)

Lemma Forall2_compose {X Y Z} (R : X → Y → Prop) (R' : Y → Z → Prop)
    (R'' : X → Z → Prop) l k m :
  (∀ x y z, R x y → R' y z → R'' x z) →
  Forall2 R l k → Forall2 R' k m → Forall2 R'' l m.
Proof.
  intros HR H1. revert m. induction H1 as [|x y l k Hxy _ IH]; intros m H2.
  - apply Forall2_nil_inv_l in H2 as ->. constructor.
  - apply Forall2_cons_inv_l in H2 as (z & m' & Hyz & H2 & ->).
    constructor; [by eapply HR | by apply IH].
Qed.

Lemma enter_save_state_dict_deprecated_log a p :
  logged [Warn warn_deprecated; Call_reset] p (enter_save_state_dict_deprecated a p).2 ∧
  dicts (enter_save_state_dict_deprecated a p).2 = dicts p.
Proof.
  unfold logged, enter_save_state_dict_deprecated, bind, emit, call, ret, log. simpl.
  destruct (reset (storage_writer a) (ext p)) as [[e|[]] x]; simpl;
    by rewrite <- app_assoc.
Qed.

(** X6.  In every run of [save_state_dict], returning or failing, every
    rank first logs the deprecation warning, then calls [reset] on its
    writer, and after that makes only calls of the protocol of
    [_save_state_dict], in protocol order: the writer is reset exactly once,
    before any planner or writer hook, and [state_dict()] of a Stateful
    element is never called. *)
Theorem save_state_dict_resets_first (c : nat) (no_dist : bool) w :
  Forall2 (fun p p' => ∃ evs, logged (Warn warn_deprecated :: Call_reset :: evs) p p' ∧
                              between 0 16 evs)
    w.*2 (procs_after (save_state_dict c no_dist w)).
Proof.
  unfold save_state_dict.
  pose proof (_save_state_dict_after_procs enter_save_state_dict_deprecated c no_dist w)
    as Hps.
  apply Forall2_fmap_l. eapply Forall2_impl; [exact Hps|].
  intros [a p] p' (evs & Ht & Hb). simpl in *. exists evs. split; [|done].
  destruct (enter_save_state_dict_deprecated_log a p) as [Hl _].
  unfold logged in *. rewrite Ht, Hl. by rewrite <- app_assoc.
Qed.


(** * [save] in every run *)

Lemma enter_save_log (dist_ready : bool) k p :
  ∃ evs, logged ((if dist_ready then [] else [Warn warn_no_dist]) ++ evs) p
           (enter_save dist_ready k p).2 ∧
         Forall (eq Call_state_dict) evs.
Proof.
  unfold enter_save, logged.
  destruct dist_ready; cbn [negb].
  - change (bind (ret tt) ?k p) with (k tt p). cbv beta.
    match goal with
    | |- ∃ evs, trace (?m p).2 = _ ∧ _ =>
        assert (emits (eq Call_state_dict) m) as Hem;
          [|destruct (m p) as [r p'] eqn:Hrun]
    end.
    { emits_tac. all: first [apply emits__storage_setup | by apply emits__stateful_to_state_dict]. }
    destruct (Hem _ _ _ Hrun) as (evs & Ht & Hevs). by exists evs.
  - change (bind (emit ?ev) ?k p) with (k tt (log ev p)). cbv beta.
    match goal with
    | |- ∃ evs, trace (?m ?q).2 = _ ∧ _ =>
        assert (emits (eq Call_state_dict) m) as Hem;
          [|destruct (m q) as [r p'] eqn:Hrun]
    end.
    { emits_tac. all: first [apply emits__storage_setup | by apply emits__stateful_to_state_dict]. }
    destruct (Hem _ _ _ Hrun) as (evs & Ht & Hevs). exists evs. split; [|done].
    simpl in *. by rewrite Ht, <- app_assoc.
Qed.

(** X8.  In every run of [save], returning or failing, the log of every rank
    grows by: the warning, when torch.distributed is not initialised; then
    the [state_dict()] calls of the resolution of the Stateful elements;
    then calls of the protocol of [_save_state_dict] in protocol order.  So
    every snapshot of a Stateful element is taken before the first planner
    or writer call, and none after it. *)
Theorem save_snapshots_before_planning (dist_ready : bool) w :
  Forall2 (fun p p' => ∃ snapshots evs,
             logged ((if dist_ready then [] else [Warn warn_no_dist]) ++
                     snapshots ++ evs) p p' ∧
             Forall (eq Call_state_dict) snapshots ∧
             between 0 16 evs)
    w.*2 (procs_after (save dist_ready w)).
Proof.
  unfold save.
  pose proof (_save_state_dict_after_procs (enter_save dist_ready) 0 (negb dist_ready) w)
    as Hps.
  apply Forall2_fmap_l. eapply Forall2_impl; [exact Hps|].
  intros [k p] p' (evs & Ht & Hb). simpl in *.
  destruct (enter_save_log dist_ready k p) as (sn & Hl & Hsn).
  exists sn, evs. split; [|done].
  unfold logged in *. rewrite Ht, Hl. by rewrite <- !app_assoc.
Qed.

(** * The state dict [save] plans *)

Lemma _storage_setup_inr sw cid p w p' :
  _storage_setup sw cid p = (inr w, p') → p' = p.
Proof.
  unfold _storage_setup, ret, raise.
  destruct sw; [by intros [= _ <-]|].
  destruct cid as [id|]; [|done]. destruct (writer_for id); [by intros [= _ <-]|done].
Qed.

Lemma _storage_setup_result sw cid p q :
  (_storage_setup sw cid p).1 = (_storage_setup sw cid q).1.
Proof.
  unfold _storage_setup, ret, raise.
  destruct sw; [done|]. destruct cid as [id|]; [|done]. by destruct (writer_for id).
Qed.

Lemma enter_save_inr (dist_ready : bool) k p a pa items :
  enter_save dist_ready k p = (inr a, pa) →
  dicts p !! k_state_dict k = Some items →
  NoDup items.*1 →
  ∃ res,
    snapshot_items items (ext p) = (inr res, ext pa) ∧
    dicts p !! state_dict a = None ∧
    dicts pa = <[state_dict a := res]> (dicts p) ∧
    planner a = k_planner k ∧
    (_storage_setup (k_storage_writer k) (k_checkpoint_id k) p).1
    = inr (storage_writer a) ∧
    trace pa = trace p ++ (if dist_ready then [] else [Warn warn_no_dist]) ++
               stateful_calls items.
Proof.
  unfold enter_save. intros Hrun Hsd Hnd.
  apply bind_inr in Hrun as ([] & p0 & Hwarn & Hrun).
  apply bind_inr in Hrun as (sw & p0' & Hsetup & Hrun).
  pose proof (_storage_setup_inr _ _ _ _ _ Hsetup) as ->.
  apply bind_inr in Hrun as (sd & p1 & Hres & Hret).
  apply ret_inr in Hret as [<- <-]. simpl.
  assert (dicts p0 = dicts p ∧ ext p0 = ext p ∧
          trace p0 = trace p ++ (if dist_ready then [] else [Warn warn_no_dist]))
    as (Hd0 & He0 & Ht0).
  { destruct dist_ready; cbn [negb] in Hwarn.
    - apply ret_inr in Hwarn as [_ <-]. by rewrite app_nil_r.
    - by apply emit_inr in Hwarn as ->. }
  rewrite <- Hd0 in Hsd.
  destruct (snapshot_items items (ext p0)) as [[e|res] x'] eqn:Hsnap.
  { destruct (_stateful_to_state_dict_inl _ _ _ _ _ Hsd Hsnap) as (q & Hfail & _).
    congruence. }
  destruct (_stateful_to_state_dict_inr _ _ _ _ _ Hsd Hnd Hsnap) as [Heq Hnew].
  rewrite Heq in Hres. injection Hres as <- <-. simpl.
  exists res. rewrite <- He0, <- Hd0, Ht0, <- app_assoc.
  repeat split; try done.
  by rewrite (_storage_setup_result _ _ p p0), Hsetup.
Qed.

Lemma plan_phase_rank_state_dict no_dist c w0 w1 i cap p :
  plan_phase no_dist c w0 = inr w1 →
  w0 !! i = Some (cap, p) →
  c_distW cap = _DistWrapper_init (negb no_dist) c i →
  ∃ central_plan p1 sd lp0 lps gp0,
    w1 !! i = Some ((cap, central_plan), p1) ∧
    dicts p !! c_state_dict cap = Some sd ∧
    trace p1 = trace p ++ plan_calls (c_distW cap) sd lp0 lps gp0.
Proof.
  intros Hw1 Hi Hd. unfold plan_calls. rewrite Hd.
  rewrite _DistWrapper_init_use_dist, _DistWrapper_init_coordinator.
  unfold plan_phase in Hw1. destruct no_dist; cbn [negb] in *.
  - apply reduce_scatter_solo in Hw1 as [_ Hpt].
    destruct (Hpt _ _ _ Hi) as (t & p1 & rs & p2 & r & Hl & Hg & _ & Hi1).
    apply local_step_inr in Hl as (sd & lp0 & Hsd & _ & _ & Ht1).
    apply global_step_inr in Hg as (gp0 & md & x & _ & _ & _ & Ht2).
    exists r, p2, sd, lp0, [t], gp0. split; [done|]. split; [done|].
    rewrite Ht2, Ht1, Hd, _DistWrapper_init_coordinator. simpl.
    by rewrite <- !app_assoc.
  - apply reduce_scatter_group in Hw1 as (ts & rs & Hc & Hts & Hlen & Hpt).
    destruct (Hpt _ _ _ Hi) as (t & p1 & p2 & r & Hl & Ht & Hg & Hr & Hi1).
    apply local_step_inr in Hl as (sd & lp0 & Hsd & _ & _ & Ht1).
    destruct (decide (i = c)) as [->|Hne].
    + apply global_step_inr in Hg as (gp0 & md & x & _ & _ & _ & Ht2).
      rewrite bool_decide_eq_true_2 by done.
      exists r, (log (Collective "plan" Scatter) p2), sd, lp0, ts, gp0.
      split; [done|]. split; [done|].
      simpl. rewrite Ht2. simpl. rewrite Ht1, Hd, _DistWrapper_init_coordinator.
      rewrite bool_decide_eq_true_2 by done. simpl. by rewrite <- !app_assoc.
    + subst p2. rewrite bool_decide_eq_false_2 by done.
      exists r, (log (Collective "plan" Scatter) (log (Collective "plan" Gather) p1)),
        sd, lp0, ts, [].
      split; [done|]. split; [done|].
      simpl. rewrite Ht1, Hd, _DistWrapper_init_coordinator.
      rewrite bool_decide_eq_false_2 by done. simpl. by rewrite <- !app_assoc.
Qed.

(** X9.  What a rank logs in a run of [save] that returns: after the
    warning (without torch.distributed) come the [state_dict()] calls of the
    Stateful elements of the given state dict, then the construction of the
    default planner when none was given, then the calls of the plan phase
    and of the write phase.  The state dict [set_up_planner] receives is the
    resolved one: the given keys in the given order, every Stateful element
    replaced by its snapshot. *)
Theorem save_plans_resolved_state (dist_ready : bool) w w' i k p items :
  save dist_ready w = inr w' →
  w !! i = Some (k, p) →
  dicts p !! k_state_dict k = Some items →
  NoDup items.*1 →
  let distW := _DistWrapper_init dist_ready 0 i in
  ∃ res x' metadata p' lp0 lps gp0 central_plan flp md0 all_results,
    snapshot_items items (ext p) = (inr res, x') ∧
    w' !! i = Some (metadata, p') ∧
    trace p' = trace p ++ (if dist_ready then [] else [Warn warn_no_dist]) ++
               stateful_calls items ++
               match k_planner k with None => [Call_DefaultSavePlanner] | Some _ => [] end ++
               plan_calls distW res lp0 lps gp0 ++
               write_calls distW central_plan flp md0 all_results.
Proof.
  intros Hrun Hi Hsd Hnd distW. unfold save in Hrun.
  apply _save_state_dict_after_inr in Hrun as (wa & w0 & w1 & Hwa & Hw0 & Hw1 & Hw').
  destruct (each_lookup _ _ _ _ _ _ Hwa Hi) as (a & pa & Hent & Hia).
  destruct (enter_save_inr _ _ _ _ _ _ Hent Hsd Hnd)
    as (res & Hsnap & _ & Hda & Hpl & _ & Hta).
  rewrite negb_involutive in Hw0.
  pose proof (with_distW_lookup dist_ready 0 _ _ _ _ Hia) as Hi0.
  destruct (each_lookup _ _ _ _ _ _ Hw0 Hi0) as (cap & p0 & Hcap & Hi0').
  apply enter_save_state_dict_inr in Hcap as (Hcsd & _ & Hd & Hdef & Hd0).
  assert (c_distW cap = _DistWrapper_init (negb (negb dist_ready)) 0 i) as Hd'
    by (by rewrite negb_involutive).
  destruct (plan_phase_rank_state_dict _ _ _ _ _ _ _ Hw1 Hi0' Hd')
    as (cp & p1 & sd & lp0 & lps & gp0 & Hi1 & Hsd0 & Ht1).
  destruct (write_phase_rank _ _ _ _ _ _ _ _ Hw' Hi1 Hd')
    as (md & p' & flp & md0 & results & Hi' & Ht' & _).
  rewrite Hd0, Hcsd, Hda, lookup_insert_eq in Hsd0. injection Hsd0 as <-.
  exists res, (ext pa), md, p', lp0, lps, gp0, cp, flp, md0, results.
  split; [done|]. split; [done|].
  rewrite Ht', Ht1, Hd. fold distW.
  assert (trace p0 = trace pa ++
            match k_planner k with None => [Call_DefaultSavePlanner] | Some _ => [] end)
    as ->.
  { rewrite <- Hpl. destruct (planner a); [|by destruct Hdef].
    destruct Hdef as (_ & _ & ->). by rewrite app_nil_r. }
  rewrite Hta. by rewrite <- !app_assoc.
Qed.

(** * [async_save]: before and after the submission *)









(** * What a run leaves as it is *)

Section Frame.
Context (R : Proc → Proc → Prop).
Hypothesis R_dicts : ∀ p p', dicts p' = dicts p → R p p'.
Hypothesis R_trans : ∀ p q r, R p q → R q r → R p r.

Lemma keeps_ret {A} (a : A) : keeps R (ret a).
Proof. intros p. by apply R_dicts. Qed.

Lemma keeps_raise {A} e : keeps R (raise (A:=A) e).
Proof. intros p. by apply R_dicts. Qed.

Lemma keeps_bind {A B} (m : M A) (k : A → M B) :
  keeps R m → (∀ a, keeps R (k a)) → keeps R (bind m k).
Proof.
  intros Hm Hk p. unfold bind. specialize (Hm p).
  destruct (m p) as [[e|a] p1]; [done|]. eapply R_trans; [exact Hm|]. apply Hk.
Qed.

Lemma keeps_emit ev : keeps R (emit ev).
Proof. intros p. by apply R_dicts. Qed.

Lemma keeps_call {A} ev (m : Method A) : keeps R (call ev m).
Proof. intros p. unfold call. destruct (m (ext p)). by apply R_dicts. Qed.

Lemma keeps_deref l : keeps R (deref l).
Proof. intros p. unfold deref. destruct (dicts p !! l); by apply R_dicts. Qed.

Lemma keeps_py_assert b msg : keeps R (py_assert b msg).
Proof. unfold py_assert. destruct b; [apply keeps_ret | apply keeps_raise]. Qed.

Lemma keeps_set_global_metatadata v : keeps R (set_global_metatadata v).
Proof. intros p. by apply R_dicts. Qed.

Lemma keeps_get_global_metatadata : keeps R get_global_metatadata.
Proof. intros p. by apply R_dicts. Qed.

Lemma keeps_for_each {A} (xs : list A) body :
  (∀ x, keeps R (body x)) → keeps R (for_each xs body).
Proof.
  intros Hbody. induction xs as [|x xs IH]; [apply keeps_ret|].
  rewrite for_each_cons. apply keeps_bind; [apply Hbody | by intros _].
Qed.

Lemma keeps__storage_setup sw cid : keeps R (_storage_setup sw cid).
Proof.
  unfold _storage_setup. destruct sw; [apply keeps_ret|].
  destruct cid as [id|]; [|apply keeps_raise].
  destruct (writer_for id); [apply keeps_ret | apply keeps_raise].
Qed.

End Frame.

Ltac keeps_with Hd Ht :=
  repeat first
    [ match goal with
      | |- keeps _ (_stateful_to_state_dict _) => idtac
      end
    | apply (keeps_ret _ Hd) | apply (keeps_raise _ Hd) | apply (keeps_deref _ Hd)
    | apply (keeps_emit _ Hd) | apply (keeps_call _ Hd) | apply (keeps_py_assert _ Hd)
    | apply (keeps_set_global_metatadata _ Hd)
    | apply (keeps_get_global_metatadata _ Hd)
    | apply (keeps__storage_setup _ Hd)
    | apply (keeps_for_each _ Hd Ht); intros
    | apply (keeps_bind _ Ht); [|intros]
    | match goal with
      | |- keeps _ (match ?x with _ => _ end) => destruct x
      | |- keeps _ (let '(_, _) := ?x in _) => destruct x
      end ].

Lemma same_dicts_but_dicts new p p' : dicts p' = dicts p → same_dicts_but new p p'.
Proof. intros Hd l _. by rewrite Hd. Qed.

Lemma same_dicts_but_trans new p q r :
  same_dicts_but new p q → same_dicts_but new q r → same_dicts_but new p r.
Proof. intros H1 H2 l Hl. by rewrite H2, H1. Qed.

Lemma setitem_keeps new key v : keeps (same_dicts_but new) (setitem new key v).
Proof.
  intros p l Hl. unfold setitem. destruct (dicts p !! new); [|done]. simpl.
  by rewrite lookup_insert_ne.
Qed.

Lemma new_dict_keeps d : keeps dicts_kept (new_dict d).
Proof.
  intros p l d' Hl. unfold new_dict. simpl.
  rewrite lookup_insert_ne; [done|]. intros <-.
  pose proof (is_fresh (dom (dicts p))) as Hfresh.
  apply not_elem_of_dom in Hfresh. congruence.
Qed.

Lemma _stateful_to_state_dict_keeps l : keeps dicts_kept (_stateful_to_state_dict l).
Proof.
  intros p. unfold _stateful_to_state_dict. unfold bind at 1, new_dict.
  set (new := fresh (dom (dicts p))).
  match goal with
  | |- dicts_kept p (?m ?q).2 =>
      set (p0 := q); assert (keeps (same_dicts_but new) m) as Hk
  end.
  { keeps_with (same_dicts_but_dicts new) (same_dicts_but_trans new).
    apply setitem_keeps. }
  intros x d Hx. rewrite (Hk p0 x).
  - simpl. rewrite lookup_insert_ne; [done|]. intros <-.
    pose proof (is_fresh (dom (dicts p))) as Hfresh.
    apply not_elem_of_dom in Hfresh. fold new in Hfresh. congruence.
  - intros ->. pose proof (is_fresh (dom (dicts p))) as Hfresh.
    apply not_elem_of_dom in Hfresh. fold new in Hfresh. congruence.
Qed.

(** X1.  When the [state_dict()] of a Stateful element raises,
    [_stateful_to_state_dict] raises the same exception; the elements after
    it are not asked for their snapshot (the external state is the one the
    calls up to the failing one left), and the input mapping and every
    other dictionary that existed before the call are as they were. *)
Theorem snapshot_failure_propagates (state_dict : loc) (items : Dict) p e x' :
  dicts p !! state_dict = Some items →
  snapshot_items items (ext p) = (inl e, x') →
  ∃ p',
    _stateful_to_state_dict state_dict p = (inl (Raised e), p') ∧
    ext p' = x' ∧
    dicts p' !! state_dict = Some items ∧
    (∀ l, is_Some (dicts p !! l) → dicts p' !! l = dicts p !! l).
Proof.
  intros Hsd Hsnap.
  destruct (_stateful_to_state_dict_inl _ _ _ _ _ Hsd Hsnap) as (p' & Hrun & Hext).
  pose proof (_stateful_to_state_dict_keeps state_dict p) as Hkept.
  rewrite Hrun in Hkept. simpl in Hkept.
  exists p'. split; [done|]. split; [done|]. split; [by apply Hkept|].
  intros l [d Hl]. rewrite Hl. by apply Hkept.
Qed.

(** * Failing resolution in [save], and the state dict of [save_state_dict] *)




(** X16.  What a rank logs in a run of [save_state_dict] that returns: the
    deprecation warning, the [reset] of the writer, the construction of the
    default planner when none was given, then the calls of the plan phase
    and of the write phase.  The state dict [set_up_planner] receives is the
    given one as it is in the store, Stateful elements included; no
    [state_dict()] is called. *)
Theorem save_state_dict_plans_given_state (c : nat) (no_dist : bool) w w' i a p :
  save_state_dict c no_dist w = inr w' →
  w !! i = Some (a, p) →
  let distW := _DistWrapper_init (negb no_dist) c i in
  ∃ items metadata p' lp0 lps gp0 central_plan flp md0 all_results,
    dicts p !! state_dict a = Some items ∧
    w' !! i = Some (metadata, p') ∧
    trace p' = trace p ++ [Warn warn_deprecated; Call_reset] ++
               default_planner_calls a ++
               plan_calls distW items lp0 lps gp0 ++
               write_calls distW central_plan flp md0 all_results.
Proof.
  intros Hrun Hi distW. unfold save_state_dict in Hrun.
  apply _save_state_dict_after_inr in Hrun as (wa & w0 & w1 & Hwa & Hw0 & Hw1 & Hw').
  destruct (each_lookup _ _ _ _ _ _ Hwa Hi) as (a' & pa & Hent & Hia).
  pose proof (enter_save_state_dict_deprecated_log a p) as [Hta Hda].
  rewrite Hent in Hta, Hda. simpl in Hta, Hda.
  assert (a' = a) as ->.
  { unfold enter_save_state_dict_deprecated in Hent.
    apply bind_inr in Hent as (? & ? & _ & Hent).
    apply bind_inr in Hent as (? & ? & _ & Hent).
    by apply ret_inr in Hent as [<- _]. }
  pose proof (with_distW_lookup (negb no_dist) c _ _ _ _ Hia) as Hi0.
  destruct (each_lookup _ _ _ _ _ _ Hw0 Hi0) as (cap & p0 & Hcap & Hi0').
  apply enter_save_state_dict_inr in Hcap as (Hcsd & _ & Hd & Hdef & Hd0).
  destruct (plan_phase_rank_state_dict _ _ _ _ _ _ _ Hw1 Hi0' Hd)
    as (cp & p1 & sd & lp0 & lps & gp0 & Hi1 & Hsd0 & Ht1).
  destruct (write_phase_rank _ _ _ _ _ _ _ _ Hw' Hi1 Hd)
    as (md & p' & flp & md0 & results & Hi' & Ht' & _).
  rewrite Hd0, Hcsd, Hda in Hsd0.
  exists sd, md, p', lp0, lps, gp0, cp, flp, md0, results.
  split; [done|]. split; [done|].
  rewrite Ht', Ht1, Hd. fold distW.
  assert (trace p0 = trace pa ++ default_planner_calls a) as ->.
  { unfold default_planner_calls. destruct (planner a); [|by destruct Hdef].
    destruct Hdef as (_ & _ & ->). by rewrite app_nil_r. }
  unfold logged in Hta. rewrite Hta. by rewrite <- !app_assoc.
Qed.

End Facts.

(** * The theorems at concrete inputs *)

Module Checks.
Import Example.
#[local] Existing Instance types.
#[local] Existing Instance package.

Definition saved3 : list (Metadata * Proc) := result_of (_save_state_dict 0 false group3).

Definition entered3 : list (Captured * Proc) :=
  result_of (each enter_save_state_dict (with_distW true 0 group3)).

Definition planned3 : list (Captured * SavePlan * Proc) :=
  result_of (plan_phase false 0 entered3).

Lemma all_ranks_same_metadata_witness :
  ∃ metadata : nat, saved3.*1 = replicate 3 metadata.
Proof.
  assert (_save_state_dict 0 false group3 = inr saved3) as Hrun
    by (vm_compute; reflexivity).
  destruct (all_ranks_same_metadata 0 false group3 saved3 Hrun (or_introl eq_refl))
    as (w0 & w1 & capc & cp & p1 & results & pw & all_results & metadata & pf &
        _ & _ & _ & _ & _ & _ & _ & _ & _ & _ & Hsame).
  exists metadata. exact Hsame.
Defined.

Lemma reduce_scatter_index_fidelity_witness :
  ∃ global_plan : list nat,
    ∀ i cap p, entered3 !! i = Some (cap, p) →
      ∃ central_plan p', planned3 !! i = Some ((cap, central_plan), p') ∧
                         global_plan !! i = Some central_plan.
Proof.
  assert (plan_phase false 0 entered3 = inr planned3) as Hrun
    by (vm_compute; reflexivity).
  destruct (proj1 (reduce_scatter_index_fidelity 0) entered3 planned3 Hrun)
    as (all_local_plans & global_plan & _ & _ & _ & Hplans).
  exists global_plan. exact Hplans.
Defined.

Lemma hook_order_witness :
  ∃ w1, plan_phase false 0 entered3 = inr w1 ∧ write_phase false 0 w1 = inr saved3.
Proof.
  assert (_save_state_dict 0 false group3 = inr saved3) as Hrun
    by (vm_compute; reflexivity).
  destruct (proj2 (hook_order 0 false group3) saved3 Hrun)
    as (w0 & w1 & Hw0 & Hw1 & Hw' & _).
  exists w1. split; [|exact Hw'].
  assert (w0 = entered3) as <-; [|exact Hw1].
  unfold entered3. cbn [negb] in Hw0. rewrite Hw0. reflexivity.
Defined.




Lemma save_preconditions_witness :
  enter_save false (kwargs None None) (process plain_state 0) =
  (inl (RuntimeError "`checkpoint_id` must be specificed if storage_writer is None."),
   log (Warn warn_no_dist) (process plain_state 0)).
Proof.
  exact (proj1 (save_preconditions false) (kwargs None None) (process plain_state 0)
           eq_refl eq_refl).
Defined.

Lemma async_save_requires_cpu_backend_witness :
  enter_async_save true (kwargs (Some writer) (Some false)) (process plain_state 0) =
  (inl (AssertionError assert_cpu_backend), process plain_state 0).
Proof.
  exact (proj1 async_save_requires_cpu_backend
           (kwargs (Some writer) (Some false)) (process plain_state 0) eq_refl).
Defined.

Lemma stateful_resolution_witness :
  ∃ new,
    (_stateful_to_state_dict 1%positive (process stateful_state 0)).1 = inr new ∧
    dicts (_stateful_to_state_dict 1%positive (process stateful_state 0)).2 !! new
    = Some resolved_state ∧
    dicts (_stateful_to_state_dict 1%positive (process stateful_state 0)).2 !! 1%positive
    = Some stateful_state.
Proof.
  assert (NoDup stateful_state.*1) as Hnd
    by (apply (bool_decide_unpack _); vm_compute; exact I).
  destruct (stateful_resolution 1%positive stateful_state (process stateful_state 0)
              resolved_state 0 eq_refl Hnd eq_refl)
    as (new & Hrun & _ & Hinput & _).
  exists new. rewrite Hrun. simpl. split; [reflexivity|]. split; [|exact Hinput].
  apply lookup_insert_eq.
Defined.

Lemma metadata_assertion_holds_witness :
  _save_state_dict 0 false group3 ≠ inl (AssertionError assert_metadata, []).
Proof.
  apply (metadata_assertion_holds 0 false group3).
  - intros [|[|[|i]]] a p pl Hi Hpl; simpl in Hi; try discriminate Hi;
      injection Hi as <- _; simpl in Hpl; try discriminate Hpl; injection Hpl as <-;
      intros lps x gp md x' Hcg; injection Hcg as _ <- _; eexists; reflexivity.
  - intros x pl x' Hdef. injection Hdef as <- _.
    intros lps y gp md y' Hcg. injection Hcg as _ <- _. eexists; reflexivity.
Defined.

Lemma deprecated_save_agrees_witness :
  outcome_agree (worlds_agree (fun g g' p q => g = g' ∧ same_effect p q))
    (save_state_dict 0 false group3) (reset_then_save true None group3).
Proof.
  apply (deprecated_save_agrees true None group3).
  repeat constructor; exists plain_state;
    (split; [reflexivity|]); (split; [|repeat constructor]);
    apply (bool_decide_unpack _); vm_compute; exact I.
Defined.

(** The group of the counterexample: one process without a process group,
    whose state dict holds a Stateful object. *)
Definition stateful_group : list (SaveArgs * Proc) :=
  [({| state_dict := 1%positive; storage_writer := writer; process_group := None;
       planner := Some counting_planner |},
    process stateful_state 0)].

(** C9 as stated fails: on a state dict with a Stateful element the
    deprecated entry point plans the dict as given (one element that is not
    Stateful, metadata 1), while [save] after a reset plans the resolved
    dict (two such elements, metadata 2). *)
Lemma deprecated_save_differs :
  (result_of (save_state_dict 0 true stateful_group)).*1 = [1] ∧
  (result_of (reset_then_save false None stateful_group)).*1 = [2] ∧
  (result_of (save_state_dict 0 true stateful_group)).*1
  ≠ (result_of (reset_then_save false None stateful_group)).*1.
Proof.
  assert ((result_of (save_state_dict 0 true stateful_group)).*1 = [1]) as H1
    by (vm_compute; reflexivity).
  assert ((result_of (reset_then_save false None stateful_group)).*1 = [2]) as H2
    by (vm_compute; reflexivity).
  split; [exact H1|]. split; [exact H2|]. rewrite H1, H2. discriminate.
Qed.

(** C7 at the failing input.  With a writer that implements the stager
    interface, [async_save] hands the state dict to [stage] as it was given,
    the Stateful object still in it, and no [state_dict()] has been called;
    with a writer that does not, the Stateful object is resolved before the
    offload. *)
Theorem stager_receives_unresolved_state :
  trace (enter_async_save false (kwargs (Some staging_writer) None)
           (process stateful_state 0)).2
  = [Call_stage stateful_state] ∧
  trace (enter_async_save false (kwargs (Some writer) None)
           (process stateful_state 0)).2
  = [Call_state_dict; Call_offload resolved_state].
Proof. split; vm_compute; reflexivity. Qed.

End Checks.

(** * Further properties at concrete inputs *)

Module MoreChecks.
Import Example Faulty.
#[local] Existing Instance types.
#[local] Existing Instance package.

Lemma snapshot_failure_propagates_witness :
  ∃ p', _stateful_to_state_dict 1%positive (process broken_state 0)
        = (inl (Raised tt), p') ∧
        ext p' = 1 ∧
        dicts p' !! 1%positive = Some broken_state.
Proof.
  destruct (snapshot_failure_propagates 1%positive broken_state
              (process broken_state 0) tt 1 eq_refl eq_refl)
    as (p' & Hrun & Hext & Hinput & _).
  exists p'. split; [exact Hrun|]. split; [exact Hext | exact Hinput].
Defined.


(** The three ranks of [group3] after [_save_state_dict]. *)
Definition after3 : list Proc := procs_after (_save_state_dict 0 false group3).

Definition rank_after (i : nat) : Proc := default (process plain_state i) (after3 !! i).

Ltac find_event :=
  repeat first [ apply Exists_cons_hd; exact I | apply Exists_cons_tl ].

Lemma write_only_after_global_plan_witness :
  ∃ w0 w1,
    each enter_save_state_dict (with_distW true 0 group3) = inr w0 ∧
    plan_phase false 0 w0 = inr w1.
Proof.
  assert (group3.*2 !! 1 = Some (process plain_state 1)) as Hj by reflexivity.
  assert (procs_after (_save_state_dict 0 false group3) !! 1 = Some (rank_after 1))
    as Hj' by (vm_compute; reflexivity).
  assert (called_in_run is_write_data (process plain_state 1) (rank_after 1)) as Hcalled.
  { exists (trace (rank_after 1)). split; [reflexivity|]. vm_compute. find_event. }
  destruct (write_only_after_global_plan 0 group3 1 _ _ Hj Hj' Hcalled)
    as (w0 & w1 & _ & _ & Hw0 & Hw1 & _).
  exists w0, w1. split; assumption.
Defined.

Lemma finish_only_after_all_writes_witness :
  ∃ w0 w1,
    each enter_save_state_dict (with_distW true 0 group3) = inr w0 ∧
    plan_phase false 0 w0 = inr w1 ∧
    ∀ i cap central_plan p1, w1 !! i = Some ((cap, central_plan), p1) →
      ∃ results p2, write_data_step cap central_plan p1 = (inr results, p2).
Proof.
  assert (group3.*2 !! 0 = Some (process plain_state 0)) as Hj by reflexivity.
  assert (procs_after (_save_state_dict 0 false group3) !! 0 = Some (rank_after 0))
    as Hj' by (vm_compute; reflexivity).
  assert (called_in_run is_finish (process plain_state 0) (rank_after 0)) as Hcalled.
  { exists (trace (rank_after 0)). split; [reflexivity|]. vm_compute. find_event. }
  destruct (finish_only_after_all_writes 0 group3 0 _ _ Hj Hj' Hcalled)
    as (w0 & w1 & Hw0 & Hw1 & _ & Hall).
  exists w0, w1. repeat split; assumption.
Defined.

Lemma finish_receives_plan_metadata_and_all_results_witness :
  ∃ (metadata : nat) (all_results : list (list nat)),
    Checks.saved3.*1 = replicate 3 metadata ∧ length all_results = 3.
Proof.
  assert (_save_state_dict 0 false group3 = inr Checks.saved3) as Hrun
    by (vm_compute; reflexivity).
  destruct (finish_receives_plan_metadata_and_all_results 0 group3 Checks.saved3 Hrun)
    as (a & pc & pl & lps & gp & md0 & results & metadata & x1 & x1' & x2 & x2' &
        w0 & w1 & _ & _ & _ & _ & Hsame & Hlen & _).
  exists metadata, results. split; assumption.
Defined.



(** One process without torch.distributed that saves a state dict with a
    Stateful element. *)
Definition solo_stateful : list (SaveKwargs * Proc) :=
  [(kwargs (Some writer) None, process stateful_state 0)].

Lemma save_plans_resolved_state_witness :
  ∃ metadata p' lp0 lps gp0 central_plan flp md0 all_results,
    result_of (save false solo_stateful) !! 0 = Some (metadata, p') ∧
    trace p' = [Warn warn_no_dist; Call_state_dict] ++
               plan_calls (_DistWrapper_init false 0 0) resolved_state lp0 lps gp0 ++
               write_calls (_DistWrapper_init false 0 0) central_plan flp md0 all_results.
Proof.
  assert (save false solo_stateful = inr (result_of (save false solo_stateful))) as Hrun
    by (vm_compute; reflexivity).
  assert (NoDup stateful_state.*1) as Hnd
    by (apply (bool_decide_unpack _); vm_compute; exact I).
  destruct (save_plans_resolved_state false solo_stateful _ 0
              (kwargs (Some writer) None) (process stateful_state 0) stateful_state
              Hrun eq_refl eq_refl Hnd)
    as (res & x' & md & p' & lp0 & lps & gp0 & cp & flp & md0 & results &
        Hsnap & Hi & Ht).
  injection Hsnap as <- _.
  exists md, p', lp0, lps, gp0, cp, flp, md0, results. split; [exact Hi | exact Ht].
Defined.









(** One process that saves a state dict with a Stateful element through the
    deprecated entry point. *)
Definition solo_deprecated : list (SaveArgs * Proc) :=
  [(args (Some counting_planner), process stateful_state 0)].

Lemma save_state_dict_plans_given_state_witness :
  ∃ metadata p' lp0 lps gp0 central_plan flp md0 all_results,
    result_of (save_state_dict 0 true solo_deprecated) !! 0 = Some (metadata, p') ∧
    trace p' = [Warn warn_deprecated; Call_reset] ++
               plan_calls (_DistWrapper_init false 0 0) stateful_state lp0 lps gp0 ++
               write_calls (_DistWrapper_init false 0 0) central_plan flp md0 all_results.
Proof.
  assert (save_state_dict 0 true solo_deprecated
          = inr (result_of (save_state_dict 0 true solo_deprecated))) as Hrun
    by (vm_compute; reflexivity).
  destruct (save_state_dict_plans_given_state 0 true solo_deprecated _ 0 _ _
              Hrun eq_refl)
    as (items & md & p' & lp0 & lps & gp0 & cp & flp & md0 & results &
        Hitems & Hi & Ht).
  injection Hitems as <-.
  exists md, p', lp0, lps, gp0, cp, flp, md0, results. split; [exact Hi | exact Ht].
Defined.

End MoreChecks.
